(** * news-agent: a shallow embedding of the RAG pipeline's glue code

    The TypeScript sources embedded here are
    - [src/api/server.ts]         (HTTP endpoint, [extractUrlFromQuery],
                                   [processArticle], [searchArticles],
                                   [agentHandler]);
    - [src/kafka/consumer.ts]     (URL-ingesting queue listener);
    - the two article-processor service modules ([processArticle],
      [storeArticle], [searchArticles], [generateResponse]);
    - the query-answering queue listener.

    JavaScript strings are sequences of UTF-16 code units; every string
    operation of the sources ([substring], [slice], [indexOf], regular
    expressions) counts code units, so a string is a [list N] here. *)

From Stdlib Require Import NArith ZArith Lia List Ascii String Bool DecimalString.
From stdpp Require Import base option list gmap.

Set Warnings "-register-all".

Local Open Scope N_scope.

(** ** JavaScript strings *)

Abbreviation char16 := N (only parsing).
Abbreviation jsstring := (list N) (only parsing).

(** String literals of the sources are ASCII; [js] reads one. *)
Definition js (s : string) : jsstring :=
  List.map N_of_ascii (list_ascii_of_string s).

(** [jsq] is [js] with every apostrophe replaced by a double quote, for
    writing JSON samples. *)
Definition jsq (s : string) : jsstring :=
  List.map (fun c => if c =? 39 then 34 else c) (js s).

Arguments js : simpl never.
Arguments jsq : simpl never.

Definition eqc (c : char16) : char16 -> bool := fun d => d =? c.
Definition neqc (c : char16) : char16 -> bool := fun d => negb (d =? c).

(** [String.prototype.substring(0, n)] for a non-negative integer [n]
    and [String.prototype.slice(0, n)] both keep the first [n] code
    units. *)
Definition substring0 (n : N) (s : jsstring) : jsstring := take (N.to_nat n) s.

(** [String.prototype.slice(start, end)] with integer arguments: a
    negative index counts from the end, both indices are clamped to
    [0, length], and an empty string results when [start >= end]. *)
Definition slice_index (len i : Z) : Z :=
  if (i <? 0)%Z then Z.max (len + i) 0 else Z.min i len.

Definition slice (s : jsstring) (start stop : Z) : jsstring :=
  let len := Z.of_nat (length s) in
  let from := slice_index len start in
  let to := slice_index len stop in
  take (Z.to_nat (to - from)) (drop (Z.to_nat from) s).

(** [String.prototype.indexOf(c)] for a one-unit needle: index of the
    first occurrence, [-1] when there is none. *)
Fixpoint indexOf_from (c : char16) (s : jsstring) (i : Z) : Z :=
  match s with
  | [] => (-1)%Z
  | d :: s' => if d =? c then i else indexOf_from c s' (i + 1)%Z
  end.

Definition indexOf (c : char16) (s : jsstring) : Z := indexOf_from c s 0.

(** [String.prototype.lastIndexOf(c)]: index of the last occurrence,
    [-1] when there is none. *)
Fixpoint lastIndexOf_from (c : char16) (s : jsstring) (i : Z) (found : Z) : Z :=
  match s with
  | [] => found
  | d :: s' => lastIndexOf_from c s' (i + 1)%Z (if d =? c then i else found)
  end.

Definition lastIndexOf (c : char16) (s : jsstring) : Z :=
  lastIndexOf_from c s 0 (-1).

(** [String.prototype.startsWith]. *)
Fixpoint startsWith (p s : jsstring) : bool :=
  match p, s with
  | [], _ => true
  | _ :: _, [] => false
  | a :: p', b :: s' => (b =? a) && startsWith p' s'
  end.

(** The class [\s] of ECMAScript regular expressions: white space and
    line terminators. *)
Definition is_space (c : char16) : bool :=
  (c =? 9) || (c =? 10) || (c =? 11) || (c =? 12) || (c =? 13) ||
  (c =? 32) || (c =? 160) || (c =? 5760) ||
  ((8192 <=? c) && (c <=? 8202)) ||
  (c =? 8232) || (c =? 8233) || (c =? 8239) || (c =? 8287) ||
  (c =? 12288) || (c =? 65279).

(** [String.prototype.trim()] removes [\s] units from both ends. *)
Fixpoint trim_start (s : jsstring) : jsstring :=
  match s with
  | c :: s' => if is_space c then trim_start s' else s
  | [] => []
  end.

Definition trim (s : jsstring) : jsstring :=
  rev (trim_start (rev (trim_start s))).

(** ** Regular expressions

    The three regular expressions of the sources are sequences of
    single-unit atoms, optional atoms and greedy one-or-more classes,
    some of them inside a capture group.  The matcher is the
    backtracking matcher of ECMAScript restricted to these forms: an
    optional atom is tried present first, a [+] takes as many units as it
    can and gives them back one at a time while the rest of the pattern
    fails. *)
Module Regex.

Inductive atom :=
| One (p : char16 -> bool)      (* a literal or a class: one unit *)
| Maybe (p : char16 -> bool)    (* [x?] *)
| Many1 (p : char16 -> bool).   (* [[...]+] *)

Inductive node :=
| Plain (a : atom)
| Group (a : atom).             (* [( ... )] around one atom *)

Definition regex := list node.

Definition atom_of (n : node) : atom :=
  match n with Plain a | Group a => a end.

Definition captures (n : node) : bool :=
  match n with Plain _ => false | Group _ => true end.

(** The literal text [w], unit by unit. *)
Definition lit (w : string) : regex :=
  List.map (fun c => Plain (One (eqc c))) (js w).

(** Result of matching a pattern at the head of the input: the text it
    consumed, the captured groups in order, and the input left. *)
Record hit := Hit {
  consumed : jsstring;
  groups : list jsstring;
  rest : jsstring
}.

Section Many1.
Context {R : Type} (p : char16 -> bool) (k : jsstring -> jsstring -> option R).

(** [many1 taken s]: [taken] has been consumed by the class so far. *)
Fixpoint many1 (taken s : jsstring) : option R :=
  match s with
  | c :: s' =>
      if p c then
        match many1 (taken ++ [c]) s' with
        | Some r => Some r
        | None => k (taken ++ [c]) s'
        end
      else None
  | [] => None
  end.
End Many1.

Definition one {R} (p : char16 -> bool) (k : jsstring -> jsstring -> option R)
    (s : jsstring) : option R :=
  match s with
  | c :: s' => if p c then k [c] s' else None
  | [] => None
  end.

Fixpoint match_here (r : regex) (s : jsstring) : option hit :=
  match r with
  | [] => Some (Hit [] [] s)
  | n :: r' =>
      let k := fun taken s' =>
        match match_here r' s' with
        | Some h =>
            Some (Hit (taken ++ consumed h)
                      (if captures n then taken :: groups h else groups h)
                      (rest h))
        | None => None
        end in
      match atom_of n with
      | One p => one p k s
      | Maybe p =>
          match one p k s with
          | Some h => Some h
          | None => k [] s
          end
      | Many1 p => many1 p k [] s
      end
  end.

(** A match object: [index], [match[0]], the groups, and the index just
    after the match. *)
Record found := Found {
  index : nat;
  whole : jsstring;
  group : list jsstring;
  after : nat
}.

(** Leftmost match in [s], whose first unit has index [i] in the
    subject string. *)
Fixpoint search_from (r : regex) (s : jsstring) (i : nat) : option found :=
  match match_here r s with
  | Some h =>
      Some (Found i (consumed h) (groups h) (i + length (consumed h))%nat)
  | None =>
      match s with
      | [] => None
      | _ :: s' => search_from r s' (S i)
      end
  end.

(** [RegExp.prototype.exec] on a regular expression object whose
    [lastIndex] is [lastIndex]; returns the match (or [None] for
    [null]) and the new [lastIndex].  A regular expression without the
    [g] flag always starts at 0 and leaves [lastIndex] alone. *)
Definition exec (r : regex) (global : bool) (lastIndex : nat) (s : jsstring)
    : option found * nat :=
  if global then
    if (length s <? lastIndex)%nat then (None, 0%nat)
    else
      match search_from r (drop lastIndex s) lastIndex with
      | Some m => (Some m, after m)
      | None => (None, 0%nat)
      end
  else (search_from r s 0, lastIndex).

(** [String.prototype.match] with a regular expression without [g]. *)
Definition str_match (s : jsstring) (r : regex) : option found :=
  fst (exec r false 0 s).

End Regex.

(** ** [extractUrlFromQuery] (server.ts) *)

Definition non_space (c : char16) : bool := negb (is_space c).

(** [/https?:\/\/[^\s]+/] *)
Definition urlRegex : Regex.regex :=
  Regex.lit "http" ++ [Regex.Plain (Regex.Maybe (eqc 115))] ++ Regex.lit "://"
  ++ [Regex.Plain (Regex.Many1 non_space)].

Definition extractUrlFromQuery (query : jsstring) : option jsstring :=
  let match_ := Regex.str_match query urlRegex in
  match match_ with
  | Some m => Some (Regex.whole m)
  | None => None
  end.

(** *** What [urlRegex] matches, in words

    [span_while p s] splits [s] after its longest prefix of units in [p]. *)
Fixpoint span_while (p : char16 -> bool) (s : jsstring) : jsstring * jsstring :=
  match s with
  | c :: s' =>
      if p c then let '(run, r) := span_while p s' in (c :: run, r) else ([], s)
  | [] => ([], [])
  end.

(** [s] is empty or begins with a unit outside [p]. *)
Definition stops (p : char16 -> bool) (s : jsstring) : Prop :=
  match s with
  | [] => True
  | c :: _ => p c = false
  end.

Definition url_scheme (p : jsstring) : Prop :=
  p = js "http://" \/ p = js "https://".

(** [m] stands at index [i] of [q], and [m] is [http://] or [https://]
    followed by at least one unit that is not white space and by every
    such unit up to the next white space or the end of [q]. *)
Definition url_at (q : jsstring) (i : nat) (m : jsstring) : Prop :=
  (i <= length q)%nat /\
  exists p body post,
    drop i q = m ++ post /\ m = p ++ body /\ url_scheme p /\
    body <> [] /\ Forall (fun c => is_space c = false) body /\
    stops non_space post.

(** [m] stands at index [i] of [q] and is a maximal run of units that are
    not white space (white space or the end of [q] on either side) that
    begins with [http://] or [https://]. *)
Definition maximal_run_at (q : jsstring) (i : nat) (m : jsstring) : Prop :=
  (i <= length q)%nat /\
  exists post,
    drop i q = m ++ post /\
    (exists p t, url_scheme p /\ m = p ++ t) /\
    Forall (fun c => is_space c = false) m /\
    stops non_space post /\
    stops non_space (rev (take i q)).

(** The same match computed directly on the text. *)
Definition after_scheme (s : jsstring) : option Regex.hit :=
  match span_while non_space s with
  | ([], _) => None
  | (run, r) => Some (Regex.Hit run [] r)
  end.

Definition url_here (s : jsstring) : option Regex.hit :=
  if startsWith (js "https://") s then
    match after_scheme (drop 8 s) with
    | Some h => Some (Regex.Hit (js "https://" ++ Regex.consumed h) [] (Regex.rest h))
    | None => None
    end
  else if startsWith (js "http://") s then
    match after_scheme (drop 7 s) with
    | Some h => Some (Regex.Hit (js "http://" ++ Regex.consumed h) [] (Regex.rest h))
    | None => None
    end
  else None.

(** ** [Buffer.from(url).toString('base64')]

    [Buffer.from(string)] encodes the string as UTF-8: a surrogate pair
    becomes one four-byte sequence and a lone surrogate becomes U+FFFD. *)

Definition is_high_surrogate (c : char16) : bool := (55296 <=? c) && (c <? 56320).
Definition is_low_surrogate (c : char16) : bool := (56320 <=? c) && (c <? 57344).

Definition utf8_replacement : list N := [239; 191; 189].

Definition utf8_pair (hi lo : char16) : list N :=
  let cp := 65536 + (hi - 55296) * 1024 + (lo - 56320) in
  [240 + cp / 262144; 128 + (cp / 4096) mod 64; 128 + (cp / 64) mod 64;
   128 + cp mod 64].

Fixpoint utf8 (s : jsstring) : list N :=
  match s with
  | [] => []
  | c :: s' =>
      if c <? 128 then c :: utf8 s'
      else if c <? 2048 then (192 + c / 64) :: (128 + c mod 64) :: utf8 s'
      else if is_high_surrogate c then
        match s' with
        | d :: s'' =>
            if is_low_surrogate d then utf8_pair c d ++ utf8 s''
            else utf8_replacement ++ utf8 s'
        | [] => utf8_replacement
        end
      else if is_low_surrogate c then utf8_replacement ++ utf8 s'
      else (224 + (c / 4096) mod 16) :: (128 + (c / 64) mod 64)
           :: (128 + c mod 64) :: utf8 s'
  end.

(** The base64 alphabet [A-Za-z0-9+/]. *)
Definition b64_char (i : N) : char16 :=
  if i <? 26 then 65 + i
  else if i <? 52 then 97 + (i - 26)
  else if i <? 62 then 48 + (i - 52)
  else if i =? 62 then 43
  else 47.

Definition b64_pad : char16 := 61.

(** Standard base64 with [=] padding, three bytes to four characters. *)
Fixpoint base64 (bs : list N) : jsstring :=
  match bs with
  | [] => []
  | [a] => [b64_char (a / 4); b64_char ((a mod 4) * 16); b64_pad; b64_pad]
  | [a; b] =>
      [b64_char (a / 4); b64_char ((a mod 4) * 16 + b / 16);
       b64_char ((b mod 16) * 4); b64_pad]
  | a :: b :: c :: r =>
      b64_char (a / 4) :: b64_char ((a mod 4) * 16 + b / 16)
      :: b64_char ((b mod 16) * 4 + c / 64) :: b64_char (c mod 64)
      :: base64 r
  end.

(** [Buffer.from(url).toString('base64').slice(0, 64)], the expression
    that consumer.ts and both [storeArticle] functions use for the id of
    the upserted vector. *)
Definition articleId (url : jsstring) : jsstring :=
  substring0 64 (base64 (utf8 url)).

(** ** JavaScript values

    What [JSON.parse] returns, what the vector store keeps as metadata and
    what [res.json] is given.  A number is kept as the text that denotes
    it (floating point is not modelled); an object is the list of its own
    properties in insertion order, without repeated keys. *)

Inductive jsval :=
| VUndefined
| VNull
| VBool (b : bool)
| VNumber (lexeme : jsstring)
| VString (s : jsstring)
| VArray (items : list jsval)
| VObject (props : list (jsstring * jsval)).

Definition jsstring_eqb (a b : jsstring) : bool := bool_decide (a = b).

Fixpoint assoc (k : jsstring) (props : list (jsstring * jsval)) : option jsval :=
  match props with
  | [] => None
  | (k', v) :: props' => if jsstring_eqb k' k then Some v else assoc k props'
  end.

(** [props[k] = v]: overwrite in place, or append. *)
Fixpoint assoc_set (k : jsstring) (v : jsval) (props : list (jsstring * jsval))
    : list (jsstring * jsval) :=
  match props with
  | [] => [(k, v)]
  | (k', v') :: props' =>
      if jsstring_eqb k' k then (k', v) :: props'
      else (k', v') :: assoc_set k v props'
  end.

Definition keys (v : jsval) : list jsstring :=
  match v with
  | VObject props => List.map fst props
  | _ => []
  end.

(** Thrown values: an [Error] object of some class with its message, or
    anything else. *)
Inductive error_class := Error_ | TypeError | SyntaxError.

Inductive exn :=
| ErrorObject (cls : error_class) (message : jsstring)
| ThrownValue (v : jsval).

Inductive outcome (A : Type) :=
| Returned (a : A)
| Threw (e : exn).
Arguments Returned {A} a.
Arguments Threw {A} e.

(** [v.k] for a property name [k] that is none of the built-in ones:
    reading a property of [undefined] or [null] throws. *)
Definition get (k : string) (v : jsval) : outcome jsval :=
  match v with
  | VUndefined | VNull =>
      Threw (ErrorObject TypeError (js "Cannot read properties of undefined or null"))
  | VObject props =>
      Returned (match assoc (js k) props with Some x => x | None => VUndefined end)
  | _ => Returned VUndefined
  end.

(** [v?.k] *)
Definition get_opt (k : string) (v : jsval) : jsval :=
  match v with
  | VObject props => match assoc (js k) props with Some x => x | None => VUndefined end
  | _ => VUndefined
  end.

(** [v.substring(0, n)]: only a string has the method. *)
Definition call_substring0 (v : jsval) (n : N) : outcome jsstring :=
  match v with
  | VString s => Returned (substring0 n s)
  | VUndefined | VNull =>
      Threw (ErrorObject TypeError (js "Cannot read properties of undefined or null"))
  | _ => Threw (ErrorObject TypeError (js "substring is not a function"))
  end.

(** Truthiness of a value in a condition or before [||]. *)
Definition truthy (number_is_zero : jsstring -> bool) (v : jsval) : bool :=
  match v with
  | VUndefined | VNull => false
  | VBool b => b
  | VNumber l => negb (number_is_zero l)
  | VString s => negb (bool_decide (s = []))
  | VArray _ | VObject _ => true
  end.

(** A value that is no object: string, number, boolean, [null] or
    [undefined].  Its conversion to a string cannot throw. *)
Definition primitive (v : jsval) : bool :=
  match v with
  | VArray _ | VObject _ => false
  | _ => true
  end.

(** ** [JSON.parse]

    The grammar of ECMA-404.  The recursion is on a fuel argument; an
    input of [n] units never needs more than [2 n + 1] (lemma
    [JSONFacts.parse_fuel] below). *)
Module JSON.

Inductive pres (A : Type) :=
| POk (a : A) (rest : jsstring)
| PBad
| PFuel.
Arguments POk {A} a rest.
Arguments PBad {A}.
Arguments PFuel {A}.

Definition is_ws (c : char16) : bool :=
  (c =? 32) || (c =? 9) || (c =? 10) || (c =? 13).

Fixpoint skip_ws (s : jsstring) : jsstring :=
  match s with
  | c :: s' => if is_ws c then skip_ws s' else s
  | [] => []
  end.

Definition is_digit (c : char16) : bool := (48 <=? c) && (c <=? 57).

Definition hex_value (c : char16) : option N :=
  if is_digit c then Some (c - 48)
  else if (97 <=? c) && (c <=? 102) then Some (c - 87)
  else if (65 <=? c) && (c <=? 70) then Some (c - 55)
  else None.

(** The unit that a one-letter escape stands for. *)
Definition escape (e : char16) : option char16 :=
  if e =? 34 then Some 34
  else if e =? 92 then Some 92
  else if e =? 47 then Some 47
  else if e =? 98 then Some 8
  else if e =? 102 then Some 12
  else if e =? 110 then Some 10
  else if e =? 114 then Some 13
  else if e =? 116 then Some 9
  else None.

(** The units of a string literal after its opening quote. *)
Fixpoint parse_chars (s : jsstring) (acc : jsstring) : pres jsstring :=
  match s with
  | [] => PBad
  | c :: s' =>
      if c =? 34 then POk acc s'
      else if c =? 92 then
        match s' with
        | [] => PBad
        | e :: s'' =>
            if e =? 117 then
              match s'' with
              | a :: b :: c :: d :: s3 =>
                  match hex_value a, hex_value b, hex_value c, hex_value d with
                  | Some x, Some y, Some z, Some w =>
                      parse_chars s3 (acc ++ [x * 4096 + y * 256 + z * 16 + w])
                  | _, _, _, _ => PBad
                  end
              | _ => PBad
              end
            else
              match escape e with
              | Some x => parse_chars s'' (acc ++ [x])
              | None => PBad
              end
        end
      else if c <? 32 then PBad
      else parse_chars s' (acc ++ [c])
  end.

Fixpoint span_digits (s : jsstring) : jsstring * jsstring :=
  match s with
  | c :: s' =>
      if is_digit c then let '(d, r) := span_digits s' in (c :: d, r)
      else ([], s)
  | [] => ([], [])
  end.

(** An optional unit out of [p] at the head of [s]. *)
Definition optional (p : char16 -> bool) (s : jsstring) : jsstring * jsstring :=
  match s with
  | c :: s' => if p c then ([c], s') else ([], s)
  | [] => ([], s)
  end.

(** An optional minus, an integer part without a leading zero, an
    optional fraction and an optional exponent. *)
Definition parse_number (s : jsstring) : pres jsstring :=
  let '(sign, s1) := optional (eqc 45) s in
  let '(int, s2) := span_digits s1 in
  match int with
  | [] => PBad
  | d :: ds =>
      if (d =? 48) && negb (bool_decide (ds = [])) then PBad
      else
        let '(dot, s3) := optional (eqc 46) s2 in
        let '(frac, s4) :=
          match dot with [] => ([], s2) | _ => span_digits s3 end in
        match dot, frac with
        | _ :: _, [] => PBad
        | _, _ =>
            let '(e, s5) := optional (fun c => (c =? 101) || (c =? 69)) s4 in
            match e with
            | [] => POk (sign ++ int ++ dot ++ frac) s4
            | _ :: _ =>
                let '(esign, s6) :=
                  optional (fun c => (c =? 43) || (c =? 45)) s5 in
                let '(x, s7) := span_digits s6 in
                match x with
                | [] => PBad
                | _ :: _ => POk (sign ++ int ++ dot ++ frac ++ e ++ esign ++ x) s7
                end
            end
        end
  end.

Definition expect (w : string) (v : jsval) (s : jsstring) : pres jsval :=
  if startsWith (js w) s then POk v (drop (length (js w)) s) else PBad.

(** Is the next unit after white space [c]?  Then the input after it. *)
Definition next_is (c : char16) (s : jsstring) : option jsstring :=
  match skip_ws s with
  | d :: s' => if d =? c then Some s' else None
  | [] => None
  end.

Fixpoint parse_value (fuel : nat) (s : jsstring) : pres jsval :=
  match fuel with
  | O => PFuel
  | S fuel' =>
      match skip_ws s with
      | [] => PBad
      | c :: s1 =>
          if c =? 123 then
            match next_is 125 s1 with
            | Some s2 => POk (VObject []) s2
            | None => parse_members fuel' s1 []
            end
          else if c =? 91 then
            match next_is 93 s1 with
            | Some s2 => POk (VArray []) s2
            | None => parse_elements fuel' s1 []
            end
          else if c =? 34 then
            match parse_chars s1 [] with
            | POk str s2 => POk (VString str) s2
            | PBad => PBad
            | PFuel => PFuel
            end
          else if c =? 116 then expect "true" (VBool true) (c :: s1)
          else if c =? 102 then expect "false" (VBool false) (c :: s1)
          else if c =? 110 then expect "null" VNull (c :: s1)
          else
            match parse_number (c :: s1) with
            | POk l s2 => POk (VNumber l) s2
            | PBad => PBad
            | PFuel => PFuel
            end
      end
  end

with parse_members (fuel : nat) (s : jsstring) (acc : list (jsstring * jsval))
    : pres jsval :=
  match fuel with
  | O => PFuel
  | S fuel' =>
      match next_is 34 s with
      | Some s1 =>
          match parse_chars s1 [] with
          | POk key s2 =>
              match next_is 58 s2 with
              | Some s3 =>
                  match parse_value fuel' s3 with
                  | POk v s4 =>
                      match next_is 44 s4, next_is 125 s4 with
                      | Some s5, _ => parse_members fuel' s5 (assoc_set key v acc)
                      | None, Some s5 => POk (VObject (assoc_set key v acc)) s5
                      | None, None => PBad
                      end
                  | PBad => PBad
                  | PFuel => PFuel
                  end
              | None => PBad
              end
          | PBad => PBad
          | PFuel => PFuel
          end
      | None => PBad
      end
  end

with parse_elements (fuel : nat) (s : jsstring) (acc : list jsval) : pres jsval :=
  match fuel with
  | O => PFuel
  | S fuel' =>
      match parse_value fuel' s with
      | POk v s1 =>
          match next_is 44 s1, next_is 93 s1 with
          | Some s2, _ => parse_elements fuel' s2 (acc ++ [v])
          | None, Some s2 => POk (VArray (acc ++ [v])) s2
          | None, None => PBad
          end
      | PBad => PBad
      | PFuel => PFuel
      end
  end.

(** [JSON.parse(text)]: one value, white space around it, nothing else;
    a [SyntaxError] otherwise. *)
Definition parse (text : jsstring) : outcome jsval :=
  match parse_value (S (2 * length text)) text with
  | POk v r =>
      match skip_ws r with
      | [] => Returned v
      | _ => Threw (ErrorObject SyntaxError (js "Unexpected non-whitespace character after JSON"))
      end
  | PBad | PFuel => Threw (ErrorObject SyntaxError (js "Unexpected token or end of JSON input"))
  end.

End JSON.

(** ** The outside world

    Everything the sources delegate: the HTTP fetch, the HTML selector
    library, the generative model, the embedding model, the decision of
    the vector store to accept a write or to rank its records, the clock,
    and the number formatting of the JavaScript engine.  The calls that
    can fail or answer differently from one call to the next thread a
    state of the outside world. *)
Class Externals := {
  ext_state : Type;
  response : Type;                 (* what [generateContent] resolves to *)
  vector : Type;                   (* [embedding.values] *)
  (* [fetch(url).then(res => res.text())] *)
  fetch_text : jsstring -> ext_state -> outcome jsstring * ext_state;
  (* [$(selector)]: the [text()] of every selected element, in order *)
  select_texts : jsstring -> string -> list jsstring;
  (* [genAI.getGenerativeModel({model}).generateContent(prompt)] *)
  generateContent : string -> jsstring -> ext_state -> outcome response * ext_state;
  (* [response.text()] *)
  response_text : response -> outcome jsstring;
  (* [getGenerativeModel({model}).embedContent(...)], then [.embedding.values] *)
  embedContent : string -> jsstring -> ext_state -> outcome vector * ext_state;
  (* does the vector store refuse this [upsert]? *)
  upsert_refused :
    list (jsstring * vector * jsval) -> ext_state -> option exn * ext_state;
  (* [index.query({vector, topK, includeMetadata: true})], then [.matches]:
     the id and the metadata of every match *)
  query_matches :
    gmap jsstring (vector * jsval) -> vector -> nat -> ext_state
    -> outcome (list (jsstring * jsval)) * ext_state;
  (* [new Date().toISOString().split('T')[0]] *)
  today : ext_state -> jsstring;
  (* [String(n)] and [!n] for a number *)
  number_to_string : jsstring -> jsstring;
  number_is_zero : jsstring -> bool;
  (* [Buffer.from(v)] for an array or an object *)
  buffer_from_object : jsval -> outcome (list N)
}.

Inductive level := Log | Warn | Error.

Inductive logarg :=
| LText (s : jsstring)
| LValue (v : jsval)
| LExn (e : exn).

(** The state a handler runs in: the outside world, the vector index
    that the running call site addresses, and the console.  Every call
    site addresses [pinecone.Index(process.env.PINECONE_INDEX_NAME)];
    [storeArticle] of the first service module alone names
    ['news-articles'] when the variable is not set.  Which index that is
    plays no part in what a call site does to it. *)
Record World `{Externals} := {
  outside : ext_state;
  index : gmap jsstring (vector * jsval);
  console : list (level * list logarg)
}.

(** ** Computations: state passing with exceptions *)
Section Monad.
Context `{Externals}.

Definition M (A : Type) : Type := World -> outcome A * World.

Definition ret {A} (a : A) : M A := fun w => (Returned a, w).

Definition throw {A} (e : exn) : M A := fun w => (Threw e, w).

Definition bind {A B} (c : M A) (k : A -> M B) : M B :=
  fun w =>
    match c w with
    | (Returned a, w') => k a w'
    | (Threw e, w') => (Threw e, w')
    end.

(** [try { c } catch (error) { h error }] *)
Definition try_catch {A} (c : M A) (h : exn -> M A) : M A :=
  fun w =>
    match c w with
    | (Returned a, w') => (Returned a, w')
    | (Threw e, w') => h e w'
    end.

Definition lift {A} (o : outcome A) : M A := fun w => (o, w).

(** A call to the outside world. *)
Definition call {A} (f : ext_state -> outcome A * ext_state) : M A :=
  fun w =>
    let '(o, x) := f (outside w) in
    (o, {| outside := x; index := index w; console := console w |}).

Definition clock : M jsstring := fun w => (Returned (today (outside w)), w).

(** [console.log], [console.warn], [console.error] *)
Definition console_ (l : level) (args : list logarg) : M unit :=
  fun w =>
    (Returned tt,
     {| outside := outside w; index := index w;
        console := console w ++ [(l, args)] |}).

(** [index.upsert(records)]: insert or overwrite by id, unless the store
    refuses the call. *)
Definition upsert (records : list (jsstring * vector * jsval)) : M unit :=
  fun w =>
    let '(refusal, x) := upsert_refused records (outside w) in
    match refusal with
    | Some e =>
        (Threw e, {| outside := x; index := index w; console := console w |})
    | None =>
        (Returned tt,
         {| outside := x;
            index := foldl (fun m r => <[ r.1.1 := (r.1.2, r.2) ]> m)
                           (index w) records;
            console := console w |})
    end.

Definition query (v : vector) (topK : nat) : M (list (jsstring * jsval)) :=
  fun w =>
    let '(o, x) := query_matches (index w) v topK (outside w) in
    (o, {| outside := x; index := index w; console := console w |}).

End Monad.

Declare Scope js_scope.
Delimit Scope js_scope with js.
Notation "'let*' x ':=' c 'in' k" := (bind c (fun x => k))
  (at level 10, x name, c at level 100, k at level 200) : js_scope.
Notation "c ';;' k" := (bind c (fun _ => k))
  (at level 100, k at level 200, right associativity) : js_scope.

Local Open Scope js_scope.

(** ** Small pieces of the JavaScript library *)

Definition nl : jsstring := [10].

(** [Array.prototype.join(sep)] on an array of strings. *)
Fixpoint join (sep : jsstring) (parts : list jsstring) : jsstring :=
  match parts with
  | [] => []
  | [a] => a
  | a :: parts' => a ++ sep ++ join sep parts'
  end.

(** [s.replace(/\s+/g, ' ')]: every maximal run of white space becomes
    one space. *)
Fixpoint collapse_spaces (s : jsstring) (in_run : bool) : jsstring :=
  match s with
  | [] => []
  | c :: s' =>
      if is_space c then
        if in_run then collapse_spaces s' true else 32 :: collapse_spaces s' true
      else c :: collapse_spaces s' false
  end.

Definition decimal (n : nat) : jsstring :=
  js (NilEmpty.string_of_uint (Nat.to_uint n)).

Section Values.
Context `{Externals}.

(** The string a value becomes inside a template literal.  An object
    becomes what [Object.prototype.toString] makes of it; an object
    with a [toString] property of its own, for which the conversion
    throws instead, is not in the domain of this definition: a
    statement that tells what the conversion of a value parsed from a
    reply yields assumes the value [primitive]. *)
Fixpoint ToString (v : jsval) : jsstring :=
  match v with
  | VUndefined => js "undefined"
  | VNull => js "null"
  | VBool true => js "true"
  | VBool false => js "false"
  | VNumber l => number_to_string l
  | VString s => s
  | VArray items =>
      join [44]
        (List.map
           (fun i => match i with VUndefined | VNull => [] | _ => ToString i end)
           items)
  | VObject _ => js "[object Object]"
  end.

(** [Buffer.from(v)] followed by the byte content. *)
Definition Buffer_from (v : jsval) : outcome (list N) :=
  match v with
  | VString s => Returned (utf8 s)
  | VArray _ | VObject _ => buffer_from_object v
  | _ =>
      Threw (ErrorObject TypeError
               (js "The first argument must be of type string or an instance of Buffer, ArrayBuffer, or Array or an Array-like Object"))
  end.

(** [a || b] *)
Definition or_else (a : jsval) (b : jsval) : jsval :=
  if truthy number_is_zero a then a else b.

(** [$(selector).first().text()] and [$(selector).text()] *)
Definition first_text (html : jsstring) (selector : string) : jsstring :=
  match select_texts html selector with
  | t :: _ => t
  | [] => []
  end.

Definition all_text (html : jsstring) (selector : string) : jsstring :=
  concat (select_texts html selector).

End Values.

(** What a client reads back from a body sent with [res.json]:
    [JSON.stringify] leaves out a property whose value is [undefined] and
    writes [null] for such an array element. *)
Fixpoint json_body (v : jsval) : jsval :=
  match v with
  | VArray items =>
      VArray (List.map
                (fun i => match i with VUndefined => VNull | _ => json_body i end)
                items)
  | VObject props =>
      VObject
        ((fix go (ps : list (jsstring * jsval)) : list (jsstring * jsval) :=
            match ps with
            | [] => []
            | (k, VUndefined) :: ps' => go ps'
            | (k, x) :: ps' => (k, json_body x) :: go ps'
            end) props)
  | _ => v
  end.

Record HttpResponse := {
  status : N;
  body : jsval
}.

(** [res.json(v)] and [res.status(code).json(v)] *)
Definition res_json (v : jsval) : HttpResponse :=
  {| status := 200; body := json_body v |}.

Definition res_status_json (code : N) (v : jsval) : HttpResponse :=
  {| status := code; body := json_body v |}.

(** The [Article] interface of the sources. *)
Record Article := {
  title : jsstring;
  content : jsstring;
  url : jsstring;
  date : jsstring
}.

(** An [Article] as a value. *)
Definition Article_value (a : Article) : jsval :=
  VObject [(js "title", VString (title a)); (js "content", VString (content a));
           (js "url", VString (url a)); (js "date", VString (date a))].

(** [error instanceof Error ? error.message : other] *)
Definition message_or (error : exn) (other : logarg) : logarg :=
  match error with
  | ErrorObject _ m => LText m
  | ThrownValue _ => other
  end.

(** [searchArticles(query, topK = 3)].  server.ts and both service modules
    contain the same function, word for word. *)
Section Search.
Context `{Externals}.

Definition article_of_match (m : jsstring * jsval) : jsval :=
  let metadata := m.2 in
  VObject [(js "title", get_opt "title" metadata);
           (js "content", get_opt "content" metadata);
           (js "url", get_opt "url" metadata);
           (js "date", get_opt "date" metadata)].

Definition searchArticles (query_ : jsstring) (topK : nat) : M (list jsval) :=
  try_catch
    (let* embedding := call (embedContent "gemini-embedding-exp-03-07" query_) in
     let* matches := query embedding topK in
     ret (List.map article_of_match matches))
    (fun error =>
       console_ Error [LText (js "Search failed:"); LExn error];;
       throw error).

(** The context block that server.ts and the query listener build:
    [`Title: ${a.title}\nContent: ${a.content.substring(0, 1000)}`],
    joined by blank lines. *)
Fixpoint context_lines (articles : list jsval) : outcome (list jsstring) :=
  match articles with
  | [] => Returned []
  | a :: articles' =>
      match get "title" a with
      | Threw e => Threw e
      | Returned t =>
          match get "content" a with
          | Threw e => Threw e
          | Returned c =>
              match call_substring0 c 1000 with
              | Threw e => Threw e
              | Returned sub =>
                  match context_lines articles' with
                  | Threw e => Threw e
                  | Returned ls =>
                      Returned ((js "Title: " ++ ToString t ++ nl
                                 ++ js "Content: " ++ sub) :: ls)
                  end
              end
          end
      end
  end.

Definition rag_prompt (query_ context : jsstring) : jsstring :=
  js "Answer this query: " ++ query_ ++ nl ++ nl ++ js "Context:" ++ nl
  ++ context ++ nl ++ nl ++ js "Be concise and cite sources.".

(** [relevantArticles.map(a => ({title: a.title, url: a.url, date: a.date}))] *)
Definition source_of (a : jsval) : jsval :=
  VObject [(js "title", get_opt "title" a); (js "url", get_opt "url" a);
           (js "date", get_opt "date" a)].

End Search.

Definition spaces (n : nat) : jsstring := repeat 32 n.

Definition is_empty (s : jsstring) : bool := bool_decide (s = []).

(** [const jsonStart = text.indexOf('{'); const jsonEnd =
    text.lastIndexOf('}') + 1; text.slice(jsonStart, jsonEnd)], the
    expression that server.ts, consumer.ts and the second service module
    hand to [JSON.parse]. *)
Definition json_span (text : jsstring) : jsstring :=
  let jsonStart := indexOf 123 text in
  let jsonEnd := (lastIndexOf 125%N text + 1)%Z in
  slice text jsonStart jsonEnd.

(** ** src/api/server.ts *)
Module Server.
Section Server.
Context `{Externals}.

Definition processArticle (url_ : jsstring) : M jsval :=
  try_catch
    (let* html := call (fetch_text url_) in
     (if is_empty html
      then throw (ErrorObject Error_ (js "Failed to fetch valid HTML content."))
      else ret tt);;
     let title_ := trim (first_text html "h1") in
     let content_ := join (nl ++ nl) (List.map trim (select_texts html "p")) in
     let prompt :=
       js "Extract JSON from this article:" ++ nl
       ++ js "Title: " ++ title_ ++ nl
       ++ js "Content: " ++ substring0 10000 content_ ++ nl ++ nl
       ++ js "Output format: {" ++ nl
       ++ spaces 6 ++ jsq "'title': 'string'," ++ nl
       ++ spaces 6 ++ jsq "'content': 'string'," ++ nl
       ++ spaces 6 ++ jsq "'url': '" ++ url_ ++ jsq "'," ++ nl
       ++ spaces 6 ++ jsq "'date': 'YYYY-MM-DD'" ++ nl
       ++ spaces 4 ++ js "}" in
     let* result := call (generateContent "gemini-1.5-pro" prompt) in
     let* text := lift (response_text result) in
     lift (JSON.parse (json_span text)))
    (fun error =>
       console_ Error
         [LText (js "Failed to process article " ++ url_ ++ js ":"); LExn error];;
       throw error).

(** The part of [agentHandler] after the [if (url)] block. *)
Definition answer_from_index (query_ : jsstring) : M HttpResponse :=
  let* relevantArticles := searchArticles query_ 3 in
  let* lines := lift (context_lines relevantArticles) in
  let context := join (nl ++ nl) lines in
  let* response_ := call (generateContent "gemini-1.5-pro" (rag_prompt query_ context)) in
  let* answer := lift (response_text response_) in
  ret (res_json
         (VObject [(js "answer", VString answer);
                   (js "sources", VArray (List.map source_of relevantArticles))])).

(** The [if (url)] block of [agentHandler]. *)
Definition answer_from_url (url_ : jsstring) : M HttpResponse :=
  let* article := processArticle url_ in
  let* content_ := lift (get "content" article) in
  let* response_ :=
    call (generateContent "gemini-1.5-pro"
            (js "Summarize this article in 3-4 sentences:" ++ nl ++ nl
             ++ ToString content_)) in
  let* answer := lift (response_text response_) in
  let* title_ := lift (get "title" article) in
  let* url' := lift (get "url" article) in
  let* date_ := lift (get "date" article) in
  ret (res_json
         (VObject [(js "answer", VString answer);
                   (js "sources",
                    VArray [VObject [(js "title", title_); (js "url", url');
                                     (js "date", date_)]])])).

(** The [catch] block of [agentHandler]. *)
Definition on_error (error : exn) : M HttpResponse :=
  console_ Error [LText (js "API Error:"); LExn error];;
  ret (res_status_json 500
         (VObject [(js "error", VString (js "Processing failed"));
                   (js "details",
                    VString (match error with
                             | ErrorObject _ m => m
                             | ThrownValue _ => js "Unknown error"
                             end))])).

(** [agentHandler], given [req.body]. *)
Definition agentHandler (req_body : jsval) : M HttpResponse :=
  try_catch
    (let* query_ := lift (get "query" req_body) in
     match query_ with
     | VString q =>
         if is_empty q then
           ret (res_status_json 400
                  (VObject [(js "error",
                             VString (js "Query is required and must be a string"))]))
         else
           match extractUrlFromQuery q with
           | Some url_ =>
               if is_empty url_ then answer_from_index q
               else answer_from_url url_
           | None => answer_from_index q
           end
     | _ =>
         ret (res_status_json 400
                (VObject [(js "error",
                           VString (js "Query is required and must be a string"))]))
     end)
    on_error.

End Server.
End Server.

(** ** src/kafka/consumer.ts: the listener that ingests URLs *)
Module IngestConsumer.
Section IngestConsumer.
Context `{Externals}.

Definition prompt_of (url_ rawTitle rawContent : jsstring) : jsstring :=
  nl
  ++ spaces 12 ++ js "Transform this raw article content into structured JSON:" ++ nl
  ++ spaces 12 ++ js "URL: " ++ url_ ++ nl
  ++ spaces 12 ++ js "Raw Title: " ++ substring0 200 rawTitle ++ nl
  ++ spaces 12 ++ js "Raw Content: " ++ substring0 10000 rawContent ++ nl
  ++ nl
  ++ spaces 12 ++ js "Output MUST be valid JSON in this exact format:" ++ nl
  ++ spaces 12 ++ js "{" ++ nl
  ++ spaces 14 ++ jsq "'title': 'Cleaned article title'," ++ nl
  ++ spaces 14 ++ jsq "'content': 'Cleaned and concise article content'," ++ nl
  ++ spaces 14 ++ jsq "'url': '" ++ url_ ++ jsq "'," ++ nl
  ++ spaces 14 ++ jsq "'date': 'YYYY-MM-DD'" ++ js " (use current date if not available)" ++ nl
  ++ spaces 12 ++ js "}".

(** The body of the [try] block of [eachMessage]. *)
Definition ingest (url_ : jsstring) : M unit :=
  let* html := call (fetch_text url_) in
  (if is_empty html
   then throw (ErrorObject Error_ (js "Failed to fetch HTML content"))
   else ret tt);;
  let rawTitle :=
    let t := trim (first_text html "h1") in
    if is_empty t then trim (all_text html "title") else t in
  let rawContent := trim (collapse_spaces (all_text html "body") false) in
  let* response_ :=
    call (generateContent "gemini-2.5-pro-exp-03-25"
            (prompt_of url_ rawTitle rawContent)) in
  let* text := lift (response_text response_) in
  let* article := lift (JSON.parse (json_span text)) in
  let* title_ := lift (get "title" article) in
  let* content_ := lift (get "content" article) in
  let* head := lift (call_substring0 content_ 1000) in
  let* embedding :=
    call (embedContent "gemini-embedding-exp-03-07" (ToString title_ ++ nl ++ head)) in
  upsert [(substring0 64 (base64 (utf8 url_)), embedding, article)];;
  console_ Log
    [LText (js "Successfully processed article:");
     LValue (VObject [(js "title", get_opt "title" article);
                      (js "url", get_opt "url" article);
                      (js "date", get_opt "date" article);
                      (js "contentLength",
                       match content_ with
                       | VString s => VNumber (decimal (length s))
                       | _ => VUndefined
                       end)])].

(** The prompt that [ingest] builds for the page [html] of [url_]. *)
Definition prompt_for (url_ html : jsstring) : jsstring :=
  prompt_of url_
    (let t := trim (first_text html "h1") in
     if is_empty t then trim (all_text html "title") else t)
    (trim (collapse_spaces (all_text html "body") false)).

(** The [catch] block of [eachMessage]. *)
Definition on_error (url_ : jsstring) (error : exn) : M unit :=
  console_ Error
    [LText (js "Failed to process article " ++ url_ ++ js ":");
     message_or error (LExn error)].

(** [eachMessage({partition, message})]; [value] is
    [message.value?.toString()]. *)
Definition eachMessage (partition : nat) (value : option jsstring) : M unit :=
  match value with
  | Some url_ =>
      if is_empty url_ || negb (startsWith (js "http") url_) then
        console_ Warn
          [LText (js "Invalid URL in message [Partition " ++ decimal partition ++ js "]")]
      else
        console_ Log
          [LText (js "Processing article URL [Partition " ++ decimal partition
                  ++ js "]: " ++ url_)];;
        try_catch (ingest url_) (on_error url_)
  | None =>
      console_ Warn
        [LText (js "Invalid URL in message [Partition " ++ decimal partition ++ js "]")]
  end.

End IngestConsumer.
End IngestConsumer.

(** ** The listener that answers queries *)
Module QueryConsumer.
Section QueryConsumer.
Context `{Externals}.

(** The body of the [try] block of [eachMessage]. *)
Definition answer_query (query_ : jsstring) : M unit :=
  let* relevantArticles := searchArticles query_ 3 in
  let* lines := lift (context_lines relevantArticles) in
  let context := join (nl ++ nl) lines in
  let* response_ := call (generateContent "gemini-1.5-pro" (rag_prompt query_ context)) in
  let* answer := lift (response_text response_) in
  console_ Log [LText (js "Generated response:"); LText answer];;
  console_ Log [LText (js "Sources:");
                LValue (VArray (List.map source_of relevantArticles))].

(** The [catch] block of [eachMessage]. *)
Definition on_error (query_ : jsstring) (error : exn) : M unit :=
  console_ Error
    [LText (js "Failed to process query " ++ query_ ++ js ":"); LExn error].

Definition eachMessage (partition : nat) (value : option jsstring) : M unit :=
  match value with
  | Some query_ =>
      if is_empty query_ then
        console_ Warn [LText (js "Message without a valid query:")]
      else
        console_ Log
          [LText (js "Processing query [Partition " ++ decimal partition
                  ++ js "]: " ++ query_)];;
        try_catch (answer_query query_) (on_error query_)
  | None => console_ Warn [LText (js "Message without a valid query:")]
  end.

End QueryConsumer.
End QueryConsumer.

(** ** The first article-processor service module
    ([storeArticle(article: any)], [JSON.parse] on the whole reply) *)
Module ServiceA.
Section ServiceA.
Context `{Externals}.

(** [storeArticle(article: any)].  The index it writes is
    [pinecone.Index(process.env.PINECONE_INDEX_NAME || 'news-articles')],
    the [index] of the state it runs in (see [World]). *)
Definition storeArticle (article : jsval) : M unit :=
  try_catch
    (let* embedding :=
       try_catch
         (let* title_ := lift (get "title" article) in
          let* content_ := lift (get "content" article) in
          let* head := lift (call_substring0 content_ 1000) in
          call (embedContent "gemini-embedding-exp-03-07"
                  (ToString title_ ++ nl ++ head)))
         (fun error =>
            console_ Error
              [LText (js "Error generating embeddings with Gemini:"); LExn error];;
            throw (ErrorObject Error_ (js "Failed to generate embeddings."))) in
     let* url_ := lift (get "url" article) in
     let* bytes := lift (Buffer_from url_) in
     let articleId := substring0 64 (base64 bytes) in
     let* title_ := lift (get "title" article) in
     let* title1000 := lift (call_substring0 title_ 1000) in
     let* date_ := lift (get "date" article) in
     let* now := clock in
     let* content_ := lift (get "content" article) in
     let* content5000 := lift (call_substring0 content_ 5000) in
     let metadata :=
       VObject [(js "title", VString title1000);
                (js "url", url_);
                (js "date", or_else date_ (VString now));
                (js "content", VString content5000)] in
     upsert [(articleId, embedding, metadata)];;
     console_ Log [LText (js "Stored article: " ++ ToString title_)])
    (fun error =>
       console_ Error [LText (js "Error storing article in Pinecone:"); LExn error];;
       throw error).

Definition prompt_of (url_ title_ rawContent : jsstring) : jsstring :=
  nl
  ++ spaces 24 ++ js "Clean and structure this news article into JSON format:" ++ nl
  ++ spaces 24 ++ js "Title: " ++ title_ ++ nl
  ++ spaces 24 ++ js "Content: " ++ substring0 10000 rawContent ++ nl
  ++ nl
  ++ spaces 24 ++ js "Output format:" ++ nl
  ++ spaces 24 ++ js "{" ++ nl
  ++ spaces 28 ++ jsq "'title': 'Clean article title'," ++ nl
  ++ spaces 28 ++ jsq "'content': 'Cleaned and concise article content'," ++ nl
  ++ spaces 28 ++ jsq "'url': '" ++ url_ ++ jsq "'," ++ nl
  ++ spaces 28 ++ jsq "'date': 'Extracted or current date in YYYY-MM-DD format'" ++ nl
  ++ spaces 24 ++ js "}" ++ nl
  ++ spaces 24.

Definition processArticle (url_ : jsstring) : M unit :=
  try_catch
    (let* html := call (fetch_text url_) in
     (if is_empty html
      then throw (ErrorObject Error_ (js "Failed to fetch valid HTML content."))
      else ret tt);;
     let title_ := trim (all_text html "h1") in
     let paragraphs := List.map trim (select_texts html "p") in
     let rawContent := join (nl ++ nl) paragraphs in
     let* result :=
       try_catch
         (call (generateContent "gemini-2.5-pro-exp-03-25"
                  (prompt_of url_ title_ rawContent)))
         (fun error =>
            console_ Error
              [LText (js "Error generating content with Gemini:"); LExn error];;
            throw (ErrorObject Error_ (js "Failed to process article content."))) in
     let* article :=
       try_catch
         (let* text := lift (response_text result) in
          lift (JSON.parse text))
         (fun error =>
            console_ Error [LText (js "Error parsing Gemini response:"); LExn error];;
            throw (ErrorObject Error_ (js "Invalid response format from Gemini."))) in
     storeArticle article)
    (fun error =>
       console_ Error [LText (js "Error processing article:"); LExn error];;
       throw error).

End ServiceA.
End ServiceA.

(** ** The second article-processor service module
    (typed [Article], [generateResponse]) *)
Module ServiceB.

Record ResponseWithSources := {
  answer : jsstring;
  sources : list Article
}.

(** [/\[([^\]]+)\]\(([^)]+)\)/g] *)
Definition sourceRegex : Regex.regex :=
  [Regex.Plain (Regex.One (eqc 91)); Regex.Group (Regex.Many1 (neqc 93));
   Regex.Plain (Regex.One (eqc 93)); Regex.Plain (Regex.One (eqc 40));
   Regex.Group (Regex.Many1 (neqc 41)); Regex.Plain (Regex.One (eqc 41))].

(** The [while ((match = sourceRegex.exec(answer)) !== null)] loop of
    [generateResponse], from the state ([lastIndex] of the regular
    expression object, [sources], [usedUrls]) to the state at exit.
    [fuel] bounds the iterations; [None] means it ran out, which
    [S (length answer)] iterations never do ([cite_loop_terminates]). *)
Fixpoint cite_loop (fuel : nat) (answer_ : jsstring) (articles : list Article)
    (lastIndex : nat) (sources_ : list Article) (usedUrls : gset jsstring)
    : option (nat * list Article * gset jsstring) :=
  match fuel with
  | O => None
  | S fuel' =>
      match Regex.exec sourceRegex true lastIndex answer_ with
      | (Some match_, lastIndex') =>
          let url_ := nth 1 (Regex.group match_) [] in
          if bool_decide (url_ ∈ usedUrls) then
            cite_loop fuel' answer_ articles lastIndex' sources_ usedUrls
          else
            match List.find (fun a => jsstring_eqb (url a) url_) articles with
            | Some article =>
                cite_loop fuel' answer_ articles lastIndex'
                  (sources_ ++ [article]) ({[ url_ ]} ∪ usedUrls)
            | None =>
                cite_loop fuel' answer_ articles lastIndex' sources_ usedUrls
            end
      | (None, lastIndex') => Some (lastIndex', sources_, usedUrls)
      end
  end.

(** The sources the loop collects, starting from a fresh regular
    expression object and empty [sources] and [usedUrls]. *)
Definition cited (answer_ : jsstring) (articles : list Article) : list Article :=
  match cite_loop (S (length answer_)) answer_ articles 0 [] ∅ with
  | Some (_, sources_, _) => sources_
  | None => []
  end.

Section ServiceB.
Context `{Externals}.

Definition prompt_of (url_ title_ rawContent : jsstring) : jsstring :=
  js "Clean and structure this news article into JSON format:" ++ nl
  ++ spaces 24 ++ js "Title: " ++ title_ ++ nl
  ++ spaces 24 ++ js "Content: " ++ substring0 10000 rawContent ++ nl
  ++ nl
  ++ spaces 24 ++ js "Output format:" ++ nl
  ++ spaces 24 ++ js "{" ++ nl
  ++ spaces 28 ++ jsq "'title': 'Clean article title'," ++ nl
  ++ spaces 28 ++ jsq "'content': 'Cleaned and concise article content'," ++ nl
  ++ spaces 28 ++ jsq "'url': '" ++ url_ ++ jsq "'," ++ nl
  ++ spaces 28 ++ jsq "'date': 'YYYY-MM-DD'" ++ nl
  ++ spaces 24 ++ js "}".

Definition processArticle (url_ : jsstring) : M jsval :=
  try_catch
    (let* html := call (fetch_text url_) in
     (if is_empty html
      then throw (ErrorObject Error_ (js "Failed to fetch valid HTML content."))
      else ret tt);;
     let title_ :=
       let t := trim (first_text html "h1") in
       if is_empty t then trim (all_text html "title") else t in
     let paragraphs := List.map trim (select_texts html "p") in
     let rawContent := join (nl ++ nl) paragraphs in
     let* result :=
       call (generateContent "gemini-2.5-pro-exp-03-25"
               (prompt_of url_ title_ rawContent)) in
     let* text := lift (response_text result) in
     lift (JSON.parse (json_span text)))
    (fun error =>
       console_ Error
         [LText (js "Failed to process article " ++ url_ ++ js ":"); LExn error];;
       throw error).

(** One entry of the context block of [generateResponse]. *)
Definition context_entry (now : jsstring) (article : Article) : jsstring :=
  js "[" ++ title article ++ js "](" ++ url article ++ js ") - Accessed "
  ++ (if is_empty (date article) then now else date article) ++ nl
  ++ js "Content: " ++ substring0 1000 (content article).

Definition answer_prompt (query_ context : jsstring) : jsstring :=
  js "Answer this query: " ++ query_ ++ nl ++ nl
  ++ js "Available Sources:" ++ nl ++ context ++ nl ++ nl
  ++ js "Format Requirements:" ++ nl
  ++ jsq "1. Include ALL sources used in this exact format: '[Title](URL)'" ++ nl
  ++ js "2. Place source references at relevant points in your answer" ++ nl
  ++ jsq "3. List ALL used sources again at the end in a 'Sources:' section".

Definition generateResponse (query_ : jsstring) (articles : list Article)
    : M ResponseWithSources :=
  try_catch
    (let* now := clock in
     let context := join (nl ++ nl) (List.map (context_entry now) articles) in
     let* response_ :=
       call (generateContent "gemini-2.5-pro-exp-03-25"
               (answer_prompt query_ context)) in
     let* answer_ := lift (response_text response_) in
     ret {| answer := answer_; sources := cited answer_ articles |})
    (fun error =>
       console_ Error [LText (js "Failed to generate response:"); LExn error];;
       throw error).

Definition storeArticle (article : Article) : M unit :=
  try_catch
    (let* embedding :=
       call (embedContent "gemini-embedding-exp-03-07"
               (title article ++ nl ++ substring0 1000 (content article))) in
     let articleId := substring0 64 (base64 (utf8 (url article))) in
     let* now := clock in
     let metadata :=
       VObject [(js "title", VString (substring0 1000 (title article)));
                (js "url", VString (url article));
                (js "date",
                 VString (if is_empty (date article) then now else date article));
                (js "content", VString (substring0 5000 (content article)))] in
     upsert [(articleId, embedding, metadata)];;
     console_ Log
       [LText (js "Stored article: " ++ substring0 50 (title article) ++ js "...")])
    (fun error =>
       console_ Error [LText (js "Error storing article:"); LExn error];;
       throw error).

End ServiceB.
End ServiceB.

(** ** The consumer runtime

    [consumer.run({eachMessage})] of kafkajs, for one partition: the
    messages are handed to [eachMessage] in order, each after the
    previous call has settled.  The offset of a message is resolved when
    its call returns; when a call throws, the runtime stops there, leaves
    the offset unresolved, and the message and its successors are
    delivered again.  The result is the number of offsets resolved and the
    error that stopped the batch, if any. *)
Section Runner.
Context `{Externals}.

Fixpoint run_batch (eachMessage : nat -> option jsstring -> M unit)
    (partition : nat) (batch : list (option jsstring)) (w : World)
    : nat * option exn * World :=
  match batch with
  | [] => (0%nat, None, w)
  | value :: batch' =>
      match eachMessage partition value w with
      | (Returned _, w') =>
          let '(n, stop, w'') := run_batch eachMessage partition batch' w' in
          (S n, stop, w'')
      | (Threw e, w') => (0%nat, Some e, w')
      end
  end.

End Runner.

(** ** Properties of computations *)
Section Predicates.
Context `{Externals}.

(** [c] leaves the vector index as it found it, whatever else it does. *)
Definition frames_index {A} (c : M A) : Prop :=
  forall w, index (c w).2 = index w.

(** [c] never throws. *)
Definition never_throws {A} (c : M A) : Prop :=
  forall w, exists a, (c w).1 = Returned a.

(** Whatever [c] returns satisfies [Q]. *)
Definition returns {A} (c : M A) (Q : A -> Prop) : Prop :=
  forall w a, (c w).1 = Returned a -> Q a.

(** The contract of the vector store that the retriever relies on: a
    query for [topK] neighbours yields at most [topK] matches. *)
Definition store_respects_topK : Prop :=
  forall idx v topK x ms x',
    query_matches idx v topK x = (Returned ms, x') -> (length ms <= topK)%nat.
End Predicates.

(** The metadata that [storeArticle] builds for an [Article], [now] being
    the date the clock gives. *)
Definition truncated_metadata (now : jsstring) (a : Article) : jsval :=
  VObject [(js "title", VString (substring0 1000 (title a)));
           (js "url", VString (url a));
           (js "date", VString (if is_empty (date a) then now else date a));
           (js "content", VString (substring0 5000 (content a)))].

(** An element of [sources] as server.ts sends it: an object whose
    properties are, in this order, some of [title], [url], [date]. *)
Definition source_shape (v : jsval) : Prop :=
  exists props,
    v = VObject props /\
    sublist (List.map fst props) [js "title"; js "url"; js "date"].

(** The text [[label](u)] occurs in [answer_], with a non-empty [label]
    free of closing brackets and a non-empty [u] free of closing
    parentheses. *)
Definition cited_in (answer_ : jsstring) (u : jsstring) : Prop :=
  exists pre label post,
    answer_ = pre ++ [91] ++ label ++ [93; 40] ++ u ++ [41] ++ post /\
    label <> [] /\ Forall (fun c => c <> 93) label /\
    u <> [] /\ Forall (fun c => c <> 41) u.

(** What holds of [sources] and [usedUrls] at each iteration of the loop
    of [generateResponse]. *)
Definition loop_invariant (sources_ : list Article) (usedUrls : gset jsstring) : Prop :=
  NoDup (List.map url sources_) /\ forall a, a ∈ sources_ -> url a ∈ usedUrls.

(** [text] has an opening brace before a closing brace. *)
Definition has_span (text : jsstring) : Prop :=
  exists i j, (i < j)%nat /\ text !! i = Some 123 /\ text !! j = Some 125.

Definition is_byte (b : N) : Prop := b < 256.

(** ** A scripted outside world, for worked examples

    Every page is fetched as given by [page]; every selector selects one
    element whose text is the whole page; the model answers [reply];
    the embedding of a text is its first four units; the store accepts
    every write and answers a query with its first [topK] records. *)
Module Scripted.

Definition world (page : jsstring -> outcome jsstring)
    (reply : string -> jsstring -> outcome jsstring) : Externals :=
  {| ext_state := unit;
     response := jsstring;
     vector := list N;
     fetch_text := fun u x => (page u, x);
     select_texts := fun html _ => [html];
     generateContent := fun m p x => (reply m p, x);
     response_text := fun r => Returned r;
     embedContent := fun _ t x => (Returned (take 4 t), x);
     upsert_refused := fun _ x => (None, x);
     query_matches := fun idx _ k x =>
       (Returned (take k (List.map (fun r => (r.1, r.2.2)) (map_to_list idx))), x);
     today := fun _ => js "2025-01-01";
     number_to_string := fun l => l;
     number_is_zero := fun l => bool_decide (l = [48]);
     buffer_from_object := fun _ =>
       Threw (ErrorObject TypeError (js "not a string")) |}.

Definition page (u : jsstring) : outcome jsstring :=
  Returned (js "Some page text").

(** A model that wraps its JSON in prose. *)
Definition chatty (m : string) (p : jsstring) : outcome jsstring :=
  Returned (jsq "Sure! {'title': 'T', 'content': 'C', 'url': 'http://a/b', 'date': '2024-05-01'} Done.").

(** A model that refuses. *)
Definition sorry (m : string) (p : jsstring) : outcome jsstring :=
  Returned (js "Sorry, I can't help.").

(** A model whose answer cites one source. *)
Definition citing (m : string) (p : jsstring) : outcome jsstring :=
  Returned (js "X happened [One](http://n/1).").

Definition start (X : Externals) (x : ext_state)
    (records : list (jsstring * (vector * jsval))) : World :=
  @Build_World X x (list_to_map records) [].

Definition three_articles : list Article :=
  [{| title := js "One"; content := js "c1"; url := js "http://n/1";
      date := js "2024-01-01" |};
   {| title := js "Two"; content := js "c2"; url := js "http://n/2";
      date := js "2024-01-02" |};
   {| title := js "Three"; content := js "c3"; url := js "http://n/3";
      date := js "2024-01-03" |}].

(** The three articles as stored records, under the ids [a], [b], [c]. *)
Definition three_records : list (jsstring * (list N * jsval)) :=
  zip [js "a"; js "b"; js "c"]
      (List.map (fun a => ([], Article_value a)) three_articles).

End Scripted.

(** The scripted worlds of the examples: a model that wraps its JSON in
    prose, one that cites a single source, one that refuses. *)
Definition scripted : Externals := Scripted.world Scripted.page Scripted.chatty.
Definition citing_world : Externals := Scripted.world Scripted.page Scripted.citing.
Definition sorry_world : Externals := Scripted.world Scripted.page Scripted.sorry.

(** Does [needle] occur in [hay]? *)
Fixpoint occurs (needle hay : jsstring) : bool :=
  startsWith needle hay ||
  match hay with
  | [] => false
  | _ :: hay' => occurs needle hay'
  end.

(** What [agentHandler] answers with: one of three statuses, and under
    status 200 an answer string and an array of sources of the shape
    [source_shape]. *)
Definition response_shape (r : HttpResponse) : Prop :=
  (status r = 200 \/ status r = 400 \/ status r = 500) /\
  (status r = 200 ->
   exists answer_ items,
     body r = VObject [(js "answer", VString answer_); (js "sources", VArray items)] /\
     Forall source_shape items).

(** ** Notions used by the further properties *)

(** A character of base64 text: a letter, a digit, [+], [/] or the
    padding [=]. *)
Definition is_b64 (c : char16) : bool :=
  ((65 <=? c) && (c <=? 90)) || ((97 <=? c) && (c <=? 122)) ||
  ((48 <=? c) && (c <=? 57)) || (c =? 43) || (c =? 47) || (c =? 61).

(** [s] has no white space but single spaces ([U+0020]), none of them
    next to another; [after_space] tells whether a space stands just
    before [s], so that [single_spaced true s] also says that [s] does
    not begin with white space. *)
Fixpoint single_spaced (after_space : bool) (s : jsstring) : bool :=
  match s with
  | [] => true
  | c :: s' =>
      if is_space c then (c =? 32) && negb after_space && single_spaced true s'
      else single_spaced false s'
  end.

Section Invariants.
Context `{Externals}.

(** Every record of the index has a string as [content] in its
    metadata. *)
Definition content_ok (idx : gmap jsstring (vector * jsval)) : Prop :=
  forall id v md, idx !! id = Some (v, md) -> exists c, get_opt "content" md = VString c.

(** The vector store answers a query with records it holds: every match
    carries the id and the metadata of a record of the index. *)
Definition store_sound : Prop :=
  forall idx v topK x ms x',
    query_matches idx v topK x = (Returned ms, x') ->
    forall m, m ∈ ms -> exists vec, idx !! m.1 = Some (vec, m.2).

End Invariants.

(** The scripted world with an embedding model that is out of quota. *)
Definition no_quota_world : Externals :=
  {| ext_state := unit;
     response := jsstring;
     vector := list N;
     fetch_text := fun u x => (Scripted.page u, x);
     select_texts := fun html _ => [html];
     generateContent := fun m p x => (Scripted.chatty m p, x);
     response_text := fun r => Returned r;
     embedContent := fun _ _ x => (Threw (ErrorObject Error_ (js "quota exceeded")), x);
     upsert_refused := fun _ x => (None, x);
     query_matches := fun idx _ k x =>
       (Returned (take k (List.map (fun r => (r.1, r.2.2)) (map_to_list idx))), x);
     today := fun _ => js "2025-01-01";
     number_to_string := fun l => l;
     number_is_zero := fun l => bool_decide (l = [48]);
     buffer_from_object := fun _ =>
       Threw (ErrorObject TypeError (js "not a string")) |}.

(** The scripted world with a model whose reply depends on the page it
    is asked about. *)
Definition two_replies_world : Externals :=
  Scripted.world Scripted.page
    (fun _ p =>
       if occurs (js "second-story") p
       then Returned (jsq "{'title': 'Second', 'content': 'C2'}")
       else Returned (jsq "{'title': 'First', 'content': 'C1'}")).

(** * Part II: lemmas and theorems *)

Local Open Scope js_scope.

(** ** The regular expression matcher *)

Module RegexFacts.
Import Regex.

Lemma span_while_app p s :
  s = (span_while p s).1 ++ (span_while p s).2.
Proof.
  induction s as [|c s IH]; simpl; [done|].
  destruct (p c); [|done].
  destruct (span_while p s) as [run r]; simpl in *. by f_equal.
Qed.

Lemma span_while_all p s : Forall (fun c => p c = true) (span_while p s).1.
Proof.
  induction s as [|c s IH]; simpl; [constructor|].
  destruct (p c) eqn:E; [|constructor].
  destruct (span_while p s) as [run r]; simpl in *. by constructor.
Qed.

Lemma span_while_stops p s : stops p (span_while p s).2.
Proof.
  induction s as [|c s IH]; simpl; [done|].
  destruct (p c) eqn:E; [|done].
  destruct (span_while p s) as [run r]; simpl in *. done.
Qed.

Lemma span_while_unique p run r :
  Forall (fun c => p c = true) run -> stops p r ->
  span_while p (run ++ r) = (run, r).
Proof.
  induction 1 as [|c run Hc _ IH]; intros Hr; simpl.
  - destruct r as [|d r]; [done|]. simpl in *. by rewrite Hr.
  - rewrite Hc, (IH Hr). done.
Qed.

(** What the greedy [+] amounts to when the continuation either always
    succeeds or always fails in front of a unit of the class: the class
    takes its longest run, which must not be empty. *)
Lemma many1_longest {R} p (k : jsstring -> jsstring -> option R) :
  (forall t r, is_Some (k t r)) \/ (forall t c r, p c = true -> k t (c :: r) = None) ->
  forall s taken,
    many1 p k taken s =
      match (span_while p s).1 with
      | [] => None
      | run => k (taken ++ run) (span_while p s).2
      end.
Proof.
  intros Hk. induction s as [|c s IH]; intros taken; simpl; [done|].
  destruct (p c) eqn:Hc; [|done].
  rewrite IH. destruct (span_while p s) as [run r] eqn:E; simpl.
  destruct run as [|d run]; simpl.
  - pose proof (span_while_app p s) as Hs. rewrite E in Hs. simpl in Hs.
    by rewrite <- Hs.
  - rewrite <- (assoc_L (++) taken [c] (d :: run)). simpl.
    destruct (k (taken ++ c :: d :: run) r) eqn:Ek; [done|].
    destruct Hk as [Hk|Hk].
    + destruct (Hk (taken ++ c :: d :: run) r) as [x Hx]. congruence.
    + pose proof (span_while_app p s) as Hs. rewrite E in Hs. simpl in Hs.
      pose proof (span_while_all p s) as Ha. rewrite E in Ha. simpl in Ha.
      rewrite Hs. simpl. apply Hk. by inversion Ha.
Qed.

(** Whatever the continuation, a successful [+] took a non-empty prefix
    of the input, all of it in the class. *)
Lemma many1_inv {R} p (k : jsstring -> jsstring -> option R) s taken x :
  many1 p k taken s = Some x ->
  exists run r, s = run ++ r /\ run <> [] /\ Forall (fun c => p c = true) run /\
                k (taken ++ run) r = Some x.
Proof.
  revert taken. induction s as [|c s IH]; intros taken; simpl; [done|].
  destruct (p c) eqn:Hc; [|done].
  destruct (many1 p k (taken ++ [c]) s) eqn:E.
  - intros [= ->]. destruct (IH _ E) as (run & r & -> & _ & Hall & Hk).
    exists (c :: run), r. rewrite <- (assoc_L (++)) in Hk. simpl in Hk.
    repeat split; [done| by constructor | done].
  - intros Hk. exists [c], s. repeat split; [done| by repeat constructor | done].
Qed.

(** A match consumes a prefix of the input. *)
Lemma match_here_split r : forall s h,
  match_here r s = Some h -> s = consumed h ++ rest h.
Proof.
  induction r as [|n r IH]; intros s h; simpl.
  - by intros [= <-].
  - set (k := fun taken s' => _).
    assert (Hk : forall t s' h', k t s' = Some h' -> t ++ s' = consumed h' ++ rest h').
    { intros t s' h'. unfold k. destruct (match_here r s') as [h0|] eqn:E; [|done].
      intros [= <-]. simpl. rewrite (IH _ _ E). by rewrite (assoc_L (++)). }
    assert (Hone : forall p h', one p k s = Some h' -> s = consumed h' ++ rest h').
    { intros p h'. unfold one. destruct s as [|c s]; [done|].
      destruct (p c); [|done]. intros E. by apply Hk in E. }
    destruct (atom_of n) as [p|p|p].
    + apply Hone.
    + destruct (one p k s) eqn:E.
      * intros [= <-]. by apply Hone in E.
      * intros E'. by apply (Hk [] s) in E'.
    + intros E. apply many1_inv in E as (run & r' & -> & _ & _ & E).
      by apply Hk in E.
Qed.

(** One literal unit in front of a pattern. *)
Lemma match_here_one c r s :
  match_here (Plain (One (eqc c)) :: r) s =
    match s with
    | d :: s' =>
        if d =? c then
          match match_here r s' with
          | Some h => Some (Hit (d :: consumed h) (groups h) (rest h))
          | None => None
          end
        else None
    | [] => None
    end.
Proof. destruct s; reflexivity. Qed.

(** [search_from] finds the leftmost position where the pattern matches. *)
Lemma search_from_Some r : forall s i f,
  search_from r s i = Some f ->
  exists j h, (j <= length s)%nat /\ match_here r (drop j s) = Some h /\
    f = Found (i + j) (consumed h) (groups h) (i + j + length (consumed h)) /\
    forall j', (j' < j)%nat -> match_here r (drop j' s) = None.
Proof.
  induction s as [|c s IH]; intros i f; simpl.
  - destruct (match_here r []) as [h|] eqn:E; [|done]. intros [= <-].
    exists 0%nat, h. rewrite Nat.add_0_r. repeat split; [done|done|lia].
  - destruct (match_here r (c :: s)) as [h|] eqn:E.
    + intros [= <-]. exists 0%nat, h. rewrite Nat.add_0_r.
      repeat split; [lia|done|lia].
    + intros Hs. apply IH in Hs as (j & h & Hj & Hm & -> & Hmin).
      exists (S j), h. repeat split; [simpl; lia | done | f_equal; lia |].
      intros [|j'] Hlt; [done|]. simpl. apply Hmin. lia.
Qed.

Lemma search_from_None r : forall s i,
  search_from r s i = None ->
  forall j, (j <= length s)%nat -> match_here r (drop j s) = None.
Proof.
  induction s as [|c s IH]; intros i; simpl.
  - destruct (match_here r []) eqn:E; [done|]. intros _ j Hj.
    by rewrite drop_nil.
  - destruct (match_here r (c :: s)) eqn:E; [done|]. intros Hs [|j] Hj; [done|].
    simpl. apply (IH _ Hs). simpl in Hj. lia.
Qed.



Lemma match_here_class_plus p s :
  match_here [Plain (Many1 p)] s =
    match span_while p s with
    | ([], _) => None
    | (run, r) => Some (Hit run [] r)
    end.
Proof.
  cbn [match_here atom_of captures]. rewrite many1_longest.
  - destruct (span_while p s) as [[|c run] r]; simpl; [done|].
    by rewrite app_nil_r.
  - left. intros t r. eauto.
Qed.

Lemma urlRegex_units :
  urlRegex =
    [Plain (One (eqc 104)); Plain (One (eqc 116)); Plain (One (eqc 116));
     Plain (One (eqc 112)); Plain (Maybe (eqc 115)); Plain (One (eqc 58));
     Plain (One (eqc 47)); Plain (One (eqc 47)); Plain (Many1 non_space)].
Proof. reflexivity. Qed.

Ltac unit_step s :=
  rewrite match_here_one;
  destruct s as [|?c s]; [reflexivity|];
  match goal with
  | |- context [N.eqb ?c ?k] =>
      let Hne := fresh "Hne" in
      destruct (N.eqb_spec c k) as [->|Hne];
      [| simpl; rewrite ?(proj2 (N.eqb_neq c k) Hne); reflexivity]
  end.

Lemma match_here_colon_slashes s :
  match_here [Plain (One (eqc 58)); Plain (One (eqc 47)); Plain (One (eqc 47));
              Plain (Many1 non_space)] s =
    if startsWith (js "://") s then
      match after_scheme (drop 3 s) with
      | Some h => Some (Hit (js "://" ++ consumed h) [] (rest h))
      | None => None
      end
    else None.
Proof.
  change (js "://") with [58; 47; 47].
  unit_step s. unit_step s. unit_step s.
  rewrite match_here_class_plus. unfold after_scheme. simpl. rewrite drop_0.
  destruct (span_while non_space s) as [[|c run] r]; reflexivity.
Qed.

Lemma match_here_url s : match_here urlRegex s = url_here s.
Proof.
  rewrite urlRegex_units. unfold url_here.
  change (js "https://") with [104; 116; 116; 112; 115; 58; 47; 47].
  change (js "http://") with [104; 116; 116; 112; 58; 47; 47].
  unit_step s. unit_step s. unit_step s. unit_step s.
  change (match_here (Plain (Maybe (eqc 115)) :: ?r) s)
    with (match one (eqc 115)
                  (fun taken s' =>
                     match match_here r s' with
                     | Some h => Some (Hit (taken ++ consumed h) (groups h) (rest h))
                     | None => None
                     end) s with
          | Some h => Some h
          | None =>
              match match_here r s with
              | Some h => Some (Hit ([] ++ consumed h) (groups h) (rest h))
              | None => None
              end
          end).
  destruct s as [|c s].
  { cbn [one]. rewrite match_here_colon_slashes. reflexivity. }
  unfold one, eqc.
  destruct (N.eqb_spec c 115) as [->|Hne]; rewrite !match_here_colon_slashes;
    change (js "://") with [58; 47; 47]; cbn [startsWith andb].
  - change (115 =? 58) with false. rewrite !N.eqb_refl. cbn [andb].
    change (drop 8 (104 :: 116 :: 116 :: 112 :: 115 :: s)) with (drop 3 s).
    destruct (s) as [|c1 [|c2 [|c3 s']]]; try reflexivity;
      try (destruct (c1 =? 58); reflexivity);
      try (destruct (c1 =? 58), (c2 =? 47); reflexivity).
    destruct (c1 =? 58), (c2 =? 47), (c3 =? 47); try reflexivity.
    cbn [andb]. destruct (after_scheme _) as [h|]; reflexivity.
  - rewrite (proj2 (N.eqb_neq c 115) Hne).
    rewrite !N.eqb_refl. cbn [andb].
    change (drop 7 (104 :: 116 :: 116 :: 112 :: c :: s)) with (drop 3 (c :: s)).
    destruct (c =? 58); [|reflexivity].
    destruct s as [|c2 [|c3 s']]; try reflexivity;
      try (destruct (c2 =? 47); reflexivity).
    destruct (c2 =? 47), (c3 =? 47); try reflexivity.
    cbn [andb]. destruct (after_scheme _) as [h|]; reflexivity.
Qed.

Lemma after_scheme_Some s h :
  after_scheme s = Some h <->
  consumed h <> [] /\ groups h = [] /\ s = consumed h ++ rest h /\
  Forall (fun c => is_space c = false) (consumed h) /\ stops non_space (rest h).
Proof.
  unfold after_scheme. split.
  - pose proof (span_while_app non_space s) as Happ.
    pose proof (span_while_all non_space s) as Hall.
    pose proof (span_while_stops non_space s) as Hstop.
    destruct (span_while non_space s) as [[|c run] r]; [done|].
    intros [= <-]. simpl in *. repeat split; try done.
    eapply Forall_impl; [exact Hall|]. intros x. unfold non_space.
    by destruct (is_space x).
  - destruct h as [run gs r]. simpl. intros (Hne & -> & -> & Hall & Hstop).
    rewrite span_while_unique; [by destruct run| |done].
    eapply Forall_impl; [exact Hall|]. intros x Hx. unfold non_space. by rewrite Hx.
Qed.

Lemma startsWith_app p r : startsWith p (p ++ r) = true.
Proof. induction p as [|a p IH]; simpl; [done|]. by rewrite N.eqb_refl. Qed.

Lemma startsWith_true p : forall s,
  startsWith p s = true -> s = p ++ drop (length p) s.
Proof.
  induction p as [|a p IH]; intros [|b s]; simpl; try done.
  intros [Hb Hs]%andb_prop. apply N.eqb_eq in Hb as ->. f_equal. by apply IH.
Qed.

(** The text shape of a match of [urlRegex] at the head of [s]. *)
Lemma url_here_Some s h :
  url_here s = Some h <->
  exists p body,
    url_scheme p /\ consumed h = p ++ body /\ groups h = [] /\
    s = p ++ body ++ rest h /\ body <> [] /\
    Forall (fun c => is_space c = false) body /\ stops non_space (rest h).
Proof.
  unfold url_here. split.
  - destruct (startsWith (js "https://") s) eqn:E1;
      [| destruct (startsWith (js "http://") s) eqn:E2; [|done]].
    + apply startsWith_true in E1.
      change (length (js "https://")) with 8%nat in E1.
      destruct (after_scheme _) as [h0|] eqn:E; [|done]. intros [= <-].
      apply after_scheme_Some in E as (Hne & Hg & Hs & Hall & Hstop).
      exists (js "https://"), (consumed h0). simpl.
      repeat split; try done; [by right | by rewrite <- Hs].
    + apply startsWith_true in E2.
      change (length (js "http://")) with 7%nat in E2.
      destruct (after_scheme _) as [h0|] eqn:E; [|done]. intros [= <-].
      apply after_scheme_Some in E as (Hne & Hg & Hs & Hall & Hstop).
      exists (js "http://"), (consumed h0). simpl.
      repeat split; try done; [by left | by rewrite <- Hs].
  - intros (p & body & Hp & Hc & Hg & -> & Hne & Hall & Hstop).
    assert (Ha : after_scheme (body ++ rest h) = Some (Hit body [] (rest h)))
      by (by apply after_scheme_Some).
    destruct h as [c g r]. cbn [consumed groups rest] in *. subst c g.
    destruct Hp as [-> | ->].
    + assert (startsWith (js "https://") (js "http://" ++ body ++ r) = false)
        as -> by reflexivity.
      rewrite startsWith_app.
      change (drop 7 (js "http://" ++ body ++ r)) with (drop 0 (body ++ r)).
      by rewrite drop_0, Ha.
    + rewrite startsWith_app.
      change (drop 8 (js "https://" ++ body ++ r)) with (drop 0 (body ++ r)).
      by rewrite drop_0, Ha.
Qed.

End RegexFacts.

(** ** [extractUrlFromQuery] *)

Import RegexFacts.

Lemma url_at_match q i m :
  url_at q i m <->
  (i <= length q)%nat /\
  exists h, Regex.match_here urlRegex (drop i q) = Some h /\ Regex.consumed h = m.
Proof.
  unfold url_at. split.
  - intros (Hi & p & body & post & Hd & -> & Hp & Hne & Hall & Hstop).
    split; [done|]. exists (Regex.Hit (p ++ body) [] post). split; [|done].
    rewrite match_here_url. apply url_here_Some. exists p, body. simpl.
    repeat split; try done. by rewrite Hd, (assoc_L (++)).
  - intros (Hi & h & Hm & <-). split; [done|].
    rewrite match_here_url in Hm.
    apply url_here_Some in Hm as (p & body & Hp & Hc & _ & Hs & Hne & Hall & Hstop).
    exists p, body, (Regex.rest h). rewrite Hc, Hs.
    repeat split; try done. by rewrite (assoc_L (++)).
Qed.

(** A detected URL is never empty, and neither is the query it was found
    in. *)
Lemma extractUrlFromQuery_nonempty q m :
  extractUrlFromQuery q = Some m -> is_empty q = false /\ is_empty m = false.
Proof.
  unfold extractUrlFromQuery, Regex.str_match, Regex.exec. cbn [fst].
  destruct (Regex.search_from urlRegex q 0) as [f|] eqn:E; [|done].
  apply search_from_Some in E as (j & h & Hj & Hm & -> & _). cbn. intros [= <-].
  pose proof (match_here_split _ _ _ Hm) as Hsplit.
  rewrite match_here_url in Hm.
  apply url_here_Some in Hm as (p & body & Hp & Hc & _ & _ & Hne & _).
  unfold is_empty. split; apply bool_decide_eq_false.
  - intros ->. rewrite drop_nil in Hsplit. rewrite Hc in Hsplit.
    by destruct p, body.
  - rewrite Hc. by destruct p, body.
Qed.

(** Claim C10, as the code has it: [extractUrlFromQuery] returns the text
    at the first index of the query where [http://] or [https://] is
    followed by at least one unit that is not white space, extended over
    every such unit up to the next white space or the end of the query;
    it returns [null] exactly when the query has no such index.  Of
    several URLs in a query only the first is returned. *)
Theorem extractUrlFromQuery_first_url (q : jsstring) :
  match extractUrlFromQuery q with
  | Some m =>
      exists i, url_at q i m /\ forall j m', (j < i)%nat -> ~ url_at q j m'
  | None => forall i m, ~ url_at q i m
  end.
Proof.
  unfold extractUrlFromQuery, Regex.str_match, Regex.exec. cbn [fst].
  destruct (Regex.search_from urlRegex q 0) as [f|] eqn:E.
  - apply search_from_Some in E as (j & h & Hj & Hm & -> & Hmin). cbn.
    exists j. split.
    + apply url_at_match. eauto.
    + intros j' m' Hlt (_ & h' & Hm' & _)%url_at_match.
      rewrite (Hmin j' Hlt) in Hm'. done.
  - intros i m (Hi & h & Hm & _)%url_at_match.
    by rewrite (search_from_None _ _ _ E i Hi) in Hm.
Qed.

Example extractUrl_scenario :
  extractUrlFromQuery (js "What happened at https://example.com/news/1")
  = Some (js "https://example.com/news/1").
Proof. vm_compute. reflexivity. Qed.

Example extractUrl_first_of_two :
  extractUrlFromQuery (js "compare http://a.b/c with https://d.e/f")
  = Some (js "http://a.b/c").
Proof. vm_compute. reflexivity. Qed.

Example extractUrl_inside_a_word :
  extractUrlFromQuery (js "see xhttp://a.b now") = Some (js "http://a.b").
Proof. vm_compute. reflexivity. Qed.

(** Claim C10 as stated fails: the query [see http:// now] contains a
    maximal run of units that are not white space and that begins with
    [http://], yet [extractUrlFromQuery] returns [null]. *)
Lemma extractUrlFromQuery_bare_scheme :
  maximal_run_at (js "see http:// now") 4 (js "http://") /\
  extractUrlFromQuery (js "see http:// now") = None.
Proof.
  split; [|vm_compute; reflexivity].
  split; [vm_compute; lia|].
  exists (js " now"). split; [reflexivity|]. split.
  - exists (js "http://"), []. split; [by left | reflexivity].
  - split; [|split; reflexivity].
    repeat constructor.
Qed.

(** ** The cited sources of [generateResponse] *)

Import RegexFacts.

Module CiteFacts.
Import Regex ServiceB.

Lemma match_here_group_plus p r s h :
  match_here (Group (Many1 p) :: r) s = Some h ->
  exists run s' h',
    s = run ++ s' /\ run <> [] /\ Forall (fun c => p c = true) run /\
    match_here r s' = Some h' /\
    h = Hit (run ++ consumed h') (run :: groups h') (rest h').
Proof.
  cbn [match_here atom_of captures]. intros E.
  apply many1_inv in E as (run & s' & -> & Hne & Hall & E).
  destruct (match_here r s') as [h'|] eqn:E'; [|done].
  injection E as <-. by exists run, s', h'.
Qed.

Lemma match_here_unit c r s h :
  match_here (Plain (One (eqc c)) :: r) s = Some h ->
  exists s' h', s = c :: s' /\ match_here r s' = Some h' /\
                h = Hit (c :: consumed h') (groups h') (rest h').
Proof.
  rewrite match_here_one. destruct s as [|d s]; [done|].
  destruct (N.eqb_spec d c) as [->|]; [|done].
  destruct (match_here r s) as [h'|] eqn:E; [|done].
  intros [= <-]. by exists s, h'.
Qed.

(** The text shape of a match of [sourceRegex]: [[label](url)]. *)
Lemma match_here_source s h :
  match_here sourceRegex s = Some h ->
  exists label u,
    s = [91] ++ label ++ [93; 40] ++ u ++ [41] ++ rest h /\
    consumed h = [91] ++ label ++ [93; 40] ++ u ++ [41] /\
    groups h = [label; u] /\
    label <> [] /\ Forall (fun c => c <> 93) label /\
    u <> [] /\ Forall (fun c => c <> 41) u.
Proof.
  unfold sourceRegex. intros E.
  apply match_here_unit in E as (s1 & h1 & -> & E & ->).
  apply match_here_group_plus in E as (label & s2 & h2 & -> & Hl & Hla & E & ->).
  apply match_here_unit in E as (s3 & h3 & -> & E & ->).
  apply match_here_unit in E as (s4 & h4 & -> & E & ->).
  apply match_here_group_plus in E as (u & s5 & h5 & -> & Hu & Hua & E & ->).
  apply match_here_unit in E as (s6 & h6 & -> & E & ->).
  injection E as <-. cbn [consumed groups rest].
  exists label, u.
  repeat split; try done.
  - eapply Forall_impl; [exact Hla|]. intros c. unfold neqc.
    destruct (N.eqb_spec c 93); [done|]. done.
  - eapply Forall_impl; [exact Hua|]. intros c. unfold neqc.
    destruct (N.eqb_spec c 41); [done|]. done.
Qed.

(** What one call of [sourceRegex.exec(answer)] gives. *)
Lemma exec_source_Some answer_ lastIndex m lastIndex' :
  exec sourceRegex true lastIndex answer_ = (Some m, lastIndex') ->
  (lastIndex < lastIndex' <= length answer_)%nat /\
  cited_in answer_ (nth 1 (group m) []).
Proof.
  unfold exec. destruct (Nat.ltb_spec (length answer_) lastIndex) as [|Hle]; [done|].
  destruct (search_from _ _ _) as [f|] eqn:E; [|done]. intros [= -> <-].
  apply search_from_Some in E as (j & h & Hj & Hm & -> & _).
  rewrite length_drop in Hj.
  pose proof (match_here_split _ _ _ Hm) as Hsplit.
  apply match_here_source in Hm as (label & u & Hs & Hc & Hg & Hl & Hla & Hu & Hua).
  cbn [after group]. split.
  - assert (Hlen : (length (drop (lastIndex + j) answer_) =
                   length (consumed h) + length (rest h))%nat)
      by (by rewrite <- length_app, <- Hsplit, drop_drop).
    rewrite length_drop in Hlen.
    assert (0 < length (consumed h))%nat by (rewrite Hc; simpl; lia). lia.
  - rewrite Hg. cbn [nth]. exists (take (lastIndex + j) answer_), label, (rest h).
    repeat split; try done.
    rewrite <- (take_drop (lastIndex + j) answer_) at 1. f_equal.
    rewrite <- drop_drop. exact Hs.
Qed.

Lemma exec_source_None answer_ lastIndex lastIndex' :
  exec sourceRegex true lastIndex answer_ = (None, lastIndex') -> lastIndex' = 0%nat.
Proof.
  unfold exec. destruct (length answer_ <? lastIndex)%nat; [by intros [= <-]|].
  destruct (search_from _ _ _); [done|]. by intros [= <-].
Qed.

(** The loop ends within [length answer + 1] calls of [exec]. *)
Lemma cite_loop_terminates_from answer_ articles : forall fuel lastIndex sources_ usedUrls,
  (length answer_ - lastIndex < fuel)%nat ->
  is_Some (cite_loop fuel answer_ articles lastIndex sources_ usedUrls).
Proof.
  induction fuel as [|fuel IH]; intros li srcs used Hf; [lia|].
  cbn [cite_loop].
  destruct (exec sourceRegex true li answer_) as [[m|] li'] eqn:E; [|eauto].
  apply exec_source_Some in E as [Hli _].
  assert (length answer_ - li' < fuel)%nat by lia.
  destruct (bool_decide _); [by apply IH|].
  destruct (find _ _); by apply IH.
Qed.

Lemma cite_loop_terminates answer_ articles :
  is_Some (cite_loop (S (length answer_)) answer_ articles 0 [] ∅).
Proof. apply cite_loop_terminates_from. lia. Qed.

Lemma find_url_Some articles u a :
  find (fun a => jsstring_eqb (url a) u) articles = Some a ->
  a ∈ articles /\ url a = u.
Proof.
  intros [Hin Hu]%find_some. split; [by apply list_elem_of_In|].
  unfold jsstring_eqb in Hu. by apply bool_decide_eq_true in Hu.
Qed.

(** What the loop adds: candidates, each cited in the answer, each under a
    URL not used before; the regular expression object is left with
    [lastIndex = 0]. *)
Lemma cite_loop_spec answer_ articles :
  forall fuel lastIndex sources_ usedUrls lastIndex' sources' usedUrls',
  cite_loop fuel answer_ articles lastIndex sources_ usedUrls
    = Some (lastIndex', sources', usedUrls') ->
  lastIndex' = 0%nat /\
  (exists added, sources' = sources_ ++ added /\
     forall a, a ∈ added -> a ∈ articles /\ cited_in answer_ (url a)) /\
  (loop_invariant sources_ usedUrls -> loop_invariant sources' usedUrls').
Proof.
  induction fuel as [|fuel IH]; intros li srcs used li' srcs' used'; [done|].
  cbn [cite_loop].
  destruct (exec sourceRegex true li answer_) as [[m|] li1] eqn:E.
  - apply exec_source_Some in E as [_ Hcited].
    destruct (bool_decide _) eqn:Hused; [by apply IH|].
    apply bool_decide_eq_false in Hused.
    destruct (find _ _) as [a|] eqn:Hfind; [|by apply IH].
    apply find_url_Some in Hfind as [Hin Hurl].
    intros (-> & (added & -> & Hadded) & Hinv)%IH. split; [done|]. split.
    + exists (a :: added). rewrite <- (assoc_L (++)). split; [done|].
      intros b [->|Hb]%elem_of_cons; [|by apply Hadded].
      by rewrite Hurl.
    + intros [Hnd Hsub]. apply Hinv. split.
      * rewrite map_app. apply NoDup_app. split; [done|]. split.
        -- intros x Hx [->|[]%elem_of_nil]%elem_of_cons.
           apply list_elem_of_fmap in Hx as (b & Hb & Hbin).
           apply Hused. rewrite <- Hurl, Hb. by apply Hsub.
        -- apply NoDup_singleton.
      * intros b [Hb|Hb%list_elem_of_singleton]%elem_of_app.
        -- apply elem_of_union_r. by apply Hsub.
        -- subst b. apply elem_of_union_l, elem_of_singleton. done.
  - intros [= <- <- <-]. apply exec_source_None in E as ->.
    split; [done|]. split; [|done]. exists []. rewrite app_nil_r.
    split; [done|]. by intros a ?%elem_of_nil.
Qed.

Lemma find_url_unique (L : list Article) u a :
  NoDup (List.map url L) -> a ∈ L -> url a = u ->
  find (fun a => jsstring_eqb (url a) u) L = Some a.
Proof.
  induction L as [|b L IH]; simpl; intros Hnd Hin Hu; [by apply elem_of_nil in Hin|].
  apply NoDup_cons in Hnd as [Hb Hnd].
  unfold jsstring_eqb at 1. case_bool_decide as Hbu.
  - apply elem_of_cons in Hin as [->|Hin]; [done|].
    exfalso. apply Hb. rewrite Hbu, <- Hu. apply list_elem_of_fmap. eauto.
  - apply elem_of_cons in Hin as [->|Hin]; [done|]. by apply IH.
Qed.

(** The loop does the same over any duplicate-free list of candidates
    that holds the articles it adds and no article foreign to
    [articles]. *)
Lemma cite_loop_same answer_ articles (L : list Article) :
  NoDup (List.map url L) -> (forall a, a ∈ L -> a ∈ articles) ->
  forall fuel lastIndex sources_ usedUrls lastIndex' added usedUrls',
  cite_loop fuel answer_ articles lastIndex sources_ usedUrls
    = Some (lastIndex', sources_ ++ added, usedUrls') ->
  (forall a, a ∈ added -> a ∈ L) ->
  cite_loop fuel answer_ L lastIndex sources_ usedUrls
    = Some (lastIndex', sources_ ++ added, usedUrls').
Proof.
  intros Hnd HL.
  induction fuel as [|fuel IH]; intros li srcs used li' added used'; [done|].
  cbn [cite_loop].
  destruct (exec sourceRegex true li answer_) as [[m|] li1]; [|done].
  destruct (bool_decide _); [by apply IH|].
  destruct (find _ articles) as [a|] eqn:Hfind.
  - intros Hloop Hadded.
    destruct (cite_loop_spec _ _ _ _ _ _ _ _ _ Hloop) as (_ & (added' & Heq & _) & _).
    rewrite <- (assoc_L (++)) in Heq. apply app_inv_head in Heq. subst added.
    apply find_url_Some in Hfind as [_ Hurl].
    rewrite (find_url_unique L _ a Hnd); [| apply Hadded; by left | done].
    rewrite (assoc_L (++)) in Hloop |- *. apply IH; [done|].
    intros b Hb. apply Hadded. by right.
  - intros Hloop Hadded.
    destruct (find _ L) as [b|] eqn:HfindL; [|by apply IH].
    apply find_url_Some in HfindL as [HbL Hb].
    apply HL, list_elem_of_In in HbL.
    pose proof (find_none _ _ Hfind _ HbL) as Hno. cbv beta in Hno.
    unfold jsstring_eqb in Hno. by apply bool_decide_eq_false in Hno.
Qed.

End CiteFacts.

Section C4.
Context `{Externals}.
Import ServiceB CiteFacts.

Lemma cited_loop answer_ articles :
  exists usedUrls,
    cite_loop (S (length answer_)) answer_ articles 0 [] ∅
      = Some (0%nat, cited answer_ articles, usedUrls)
    /\ (forall a, a ∈ cited answer_ articles ->
          a ∈ articles /\ cited_in answer_ (url a))
    /\ NoDup (List.map url (cited answer_ articles)).
Proof.
  unfold cited.
  destruct (cite_loop_terminates answer_ articles) as [[[li srcs] used] E].
  rewrite E. exists used.
  destruct (cite_loop_spec _ _ _ _ _ _ _ _ _ E) as (-> & (added & -> & Hadded) & Hinv).
  split; [done|]. split; [exact Hadded|].
  apply Hinv. split; [constructor | by intros a ?%elem_of_nil].
Qed.

(** Claim C4: the sources that [generateResponse] returns are the ones
    its extraction loop collects from the answer text; the loop leaves
    the regular expression object where it started ([lastIndex = 0]),
    so that running it again over the same answer collects the same
    sources; every source is one of the candidate articles; no two
    sources have the same URL; and extracting again with the sources as
    candidates gives the sources back. *)
Theorem generateResponse_sources (query_ answer_ : jsstring) (articles : list Article) (w : World) :
  match generateResponse query_ articles w with
  | (Returned r, _) => sources r = cited (answer r) articles
  | (Threw _, _) => True
  end /\
  (exists usedUrls,
     cite_loop (S (length answer_)) answer_ articles 0 [] ∅
       = Some (0%nat, cited answer_ articles, usedUrls)) /\
  (forall a, a ∈ cited answer_ articles -> a ∈ articles) /\
  NoDup (List.map url (cited answer_ articles)) /\
  cited answer_ (cited answer_ articles) = cited answer_ articles.
Proof.
  destruct (cited_loop answer_ articles) as (used & Hloop & Hsub & Hnd).
  split; [|split; [eauto|split; [apply Hsub|split; [done|]]]].
  - unfold generateResponse, try_catch, bind, clock, call, lift, ret.
    destruct (generateContent _ _ _) as [[r|e] x]; [|done].
    destruct (response_text r); done.
  - pose proof (cite_loop_same answer_ articles (cited answer_ articles) Hnd
                  (fun a Ha => proj1 (Hsub a Ha)) _ 0%nat [] ∅ 0%nat
                  (cited answer_ articles) used Hloop (fun a Ha => Ha)) as Hsame.
    unfold cited at 1. by rewrite Hsame.
Qed.
End C4.

(** ** base64 and UTF-8 *)

Module Base64Facts.

Lemma b64_char_inj i j : i < 64 -> j < 64 -> b64_char i = b64_char j -> i = j.
Proof.
  unfold b64_char. intros Hi Hj.
  repeat match goal with
  | |- context [N.ltb ?a ?b] => destruct (N.ltb_spec a b)
  | |- context [N.eqb ?a ?b] => destruct (N.eqb_spec a b)
  end; lia.
Qed.

Lemma b64_char_not_pad i : i < 64 -> b64_char i <> b64_pad.
Proof.
  unfold b64_char, b64_pad. intros Hi.
  repeat match goal with
  | |- context [N.ltb ?a ?b] => destruct (N.ltb_spec a b)
  | |- context [N.eqb ?a ?b] => destruct (N.eqb_spec a b)
  end; lia.
Qed.

Lemma list_ind3 {A} (P : list A -> Prop) :
  P [] -> (forall a, P [a]) -> (forall a b, P [a; b]) ->
  (forall a b c r, P r -> P (a :: b :: c :: r)) ->
  forall l, P l.
Proof.
  intros H0 H1 H2 H3.
  fix IH 1. intros [|a [|b [|c r]]]; [done..|]. apply H3, IH.
Qed.

Lemma div_mod_parts a k : k <> 0 -> a = k * (a / k) + a mod k /\ a mod k < k.
Proof. intros Hk. split; [apply N.div_mod; done | by apply N.mod_lt]. Qed.

(** The four sextets of a group of three bytes determine the bytes. *)
Lemma sextets_inj a b c a' b' c' :
  a / 4 = a' / 4 ->
  (a mod 4) * 16 + b / 16 = (a' mod 4) * 16 + b' / 16 ->
  (b mod 16) * 4 + c / 64 = (b' mod 16) * 4 + c' / 64 ->
  c mod 64 = c' mod 64 ->
  is_byte b -> is_byte b' -> is_byte c -> is_byte c' ->
  a = a' /\ b = b' /\ c = c'.
Proof.
  unfold is_byte.
  destruct (div_mod_parts a 4) as [Ha Ha1]; [done|].
  destruct (div_mod_parts a' 4) as [Ha' Ha1']; [done|].
  destruct (div_mod_parts b 16) as [Hb Hb1]; [done|].
  destruct (div_mod_parts b' 16) as [Hb' Hb1']; [done|].
  destruct (div_mod_parts c 64) as [Hc Hc1]; [done|].
  destruct (div_mod_parts c' 64) as [Hc' Hc1']; [done|].
  revert Ha Ha1 Ha' Ha1' Hb Hb1 Hb' Hb1' Hc Hc1 Hc' Hc1'.
  generalize (a / 4) (a mod 4) (a' / 4) (a' mod 4) (b / 16) (b mod 16)
             (b' / 16) (b' mod 16) (c / 64) (c mod 64) (c' / 64) (c' mod 64).
  intros. lia.
Qed.

Lemma sextet_bounds a b c :
  is_byte a -> is_byte b -> is_byte c ->
  a / 4 < 64 /\ (a mod 4) * 16 + b / 16 < 64 /\
  (b mod 16) * 4 + c / 64 < 64 /\ c mod 64 < 64.
Proof.
  unfold is_byte. intros Ha Hb Hc.
  destruct (div_mod_parts a 4) as [Ha0 Ha1]; [done|].
  destruct (div_mod_parts b 16) as [Hb0 Hb1]; [done|].
  destruct (div_mod_parts c 64) as [Hc0 Hc1]; [done|].
  revert Ha0 Ha1 Hb0 Hb1 Hc0 Hc1.
  generalize (a / 4) (a mod 4) (b / 16) (b mod 16) (c / 64) (c mod 64).
  intros. lia.
Qed.

Lemma is_byte_0 : is_byte 0.
Proof. done. Qed.

Ltac byte_hyp := first [assumption | exact is_byte_0].

Ltac use_bounds a b c :=
  let B := fresh "B" in
  assert (B := sextet_bounds a b c ltac:(byte_hyp) ltac:(byte_hyp) ltac:(byte_hyp)).

Ltac pad_clash :=
  match goal with
  | H : b64_pad = b64_char _ |- _ =>
      symmetry in H; apply b64_char_not_pad in H; [done|tauto]
  | H : b64_char _ = b64_pad |- _ =>
      apply b64_char_not_pad in H; [done|tauto]
  end.

Ltac chars_inj :=
  repeat match goal with
  | H : b64_char _ = b64_char _ |- _ => apply b64_char_inj in H; [|tauto..]
  end.

Lemma base64_inj : forall bs1 bs2,
  Forall is_byte bs1 -> Forall is_byte bs2 ->
  base64 bs1 = base64 bs2 -> bs1 = bs2.
Proof.
  induction bs1 as [|a|a b|a b c r IH] using list_ind3;
    intros [|a' [|b' [|c' r']]] H1 H2 E; cbn [base64] in E; try done;
    repeat match goal with
    | H : Forall _ (_ :: _) |- _ => apply Forall_cons in H as [? H]
    end;
    injection E; clear E; intros.
  - use_bounds a 0 0. use_bounds a' 0 0.
    change (0 / 16) with 0 in *. rewrite !N.add_0_r in *. chars_inj.
    destruct (sextets_inj a 0 0 a' 0 0) as (-> & _); try done.
    all: change (0 / 16) with 0; rewrite ?N.add_0_r; done.
  - use_bounds a' b' 0. change (0 / 64) with 0 in *. rewrite N.add_0_r in *.
    pad_clash.
  - use_bounds a' b' c'. pad_clash.
  - use_bounds a b 0. change (0 / 64) with 0 in *. rewrite N.add_0_r in *.
    pad_clash.
  - use_bounds a b 0. use_bounds a' b' 0.
    change (0 / 64) with 0 in *. rewrite !N.add_0_r in *. chars_inj.
    destruct (sextets_inj a b 0 a' b' 0) as (-> & -> & _); try done.
    all: change (0 / 64) with 0; rewrite ?N.add_0_r; done.
  - use_bounds a' b' c'. pad_clash.
  - use_bounds a b c. pad_clash.
  - use_bounds a b c. pad_clash.
  - use_bounds a b c. use_bounds a' b' c'. chars_inj.
    destruct (sextets_inj a b c a' b' c') as (-> & -> & ->); try done.
    f_equal. f_equal. f_equal. by apply IH.
Qed.

(** Cutting the text after [4 k] characters cuts the bytes after [3 k]. *)
Lemma base64_take k : forall bs,
  take (4 * k) (base64 bs) = base64 (take (3 * k) bs).
Proof.
  induction k as [|k IH]; intros bs; [by rewrite !take_0|].
  replace (4 * S k)%nat with (4 + 4 * k)%nat by lia.
  replace (3 * S k)%nat with (3 + 3 * k)%nat by lia.
  destruct bs as [|a [|b [|c r]]].
  1-3: rewrite !take_ge by (simpl; lia); reflexivity.
  change (take (3 + 3 * k) (a :: b :: c :: r)) with (a :: b :: c :: take (3 * k) r).
  cbn [base64].
  change (take (4 + 4 * k) (?x :: ?y :: ?z :: ?t :: ?l))
    with (x :: y :: z :: t :: take (4 * k) l).
  by rewrite IH.
Qed.

Lemma utf8_pair_bytes hi lo :
  is_high_surrogate hi = true -> is_low_surrogate lo = true ->
  Forall is_byte (utf8_pair hi lo).
Proof.
  unfold is_high_surrogate, is_low_surrogate, utf8_pair, is_byte.
  intros [H1 H2]%andb_prop [H3 H4]%andb_prop.
  apply N.leb_le in H1, H3. apply N.ltb_lt in H2, H4.
  set (cp := 65536 + (hi - 55296) * 1024 + (lo - 56320)).
  assert (cp < 1114112) by (unfold cp; lia).
  destruct (div_mod_parts cp 262144) as [Ha Ha1]; [done|].
  destruct (div_mod_parts (cp / 4096) 64) as [Hb Hb1]; [done|].
  destruct (div_mod_parts (cp / 64) 64) as [Hc Hc1]; [done|].
  destruct (div_mod_parts cp 64) as [Hd Hd1]; [done|].
  repeat constructor; try lia.
  revert Ha Ha1. generalize (cp / 262144) (cp mod 262144). intros. lia.
Qed.

Lemma utf8_bytes_upto n : forall s, (length s <= n)%nat -> Forall is_byte (utf8 s).
Proof.
  induction n as [|n IH]; intros [|c s] Hlen; simpl in Hlen;
    [constructor | lia | constructor |].
  cbn [utf8].
  assert (Hs : Forall is_byte (utf8 s)) by (apply IH; lia).
  destruct (N.ltb_spec c 128); [constructor; [unfold is_byte; lia|done]|].
  destruct (N.ltb_spec c 2048).
  { destruct (div_mod_parts c 64) as [Hc Hc1]; [done|].
    repeat constructor; try done; unfold is_byte.
    - revert Hc Hc1. generalize (c / 64) (c mod 64). intros. lia.
    - lia. }
  destruct (is_high_surrogate c) eqn:Hhi.
  { destruct s as [|d s']; [repeat constructor|].
    destruct (is_low_surrogate d) eqn:Hlo.
    - apply Forall_app. split; [by apply utf8_pair_bytes|]. apply IH. simpl in Hlen. lia.
    - apply Forall_app. split; [repeat constructor|done]. }
  destruct (is_low_surrogate c).
  { apply Forall_app. split; [repeat constructor|done]. }
  destruct (div_mod_parts (c / 4096) 16) as [Ha Ha1]; [done|].
  destruct (div_mod_parts (c / 64) 64) as [Hb Hb1]; [done|].
  destruct (div_mod_parts c 64) as [Hc Hc1]; [done|].
  repeat constructor; try done; unfold is_byte; lia.
Qed.

Lemma utf8_bytes s : Forall is_byte (utf8 s).
Proof. by apply (utf8_bytes_upto (length s)). Qed.


(** The id is the base64 text of the first 48 bytes of the URL. *)
Lemma articleId_48 u : articleId u = base64 (take 48 (utf8 u)).
Proof. unfold articleId, substring0. exact (base64_take 16 (utf8 u)). Qed.

Lemma articleId_eq u1 u2 :
  articleId u1 = articleId u2 <-> take 48 (utf8 u1) = take 48 (utf8 u2).
Proof.
  rewrite !articleId_48. split; [|by intros ->].
  apply base64_inj; apply Forall_take, utf8_bytes.
Qed.

End Base64Facts.

(** ** Computations that leave the index alone *)

Section MonadFacts.
Context `{Externals}.

Lemma frames_ret {A} (a : A) : frames_index (ret a).
Proof. done. Qed.

Lemma frames_throw {A} e : frames_index (throw (A := A) e).
Proof. done. Qed.

Lemma frames_lift {A} (o : outcome A) : frames_index (lift o).
Proof. done. Qed.

Lemma frames_clock : frames_index clock.
Proof. done. Qed.

Lemma frames_console l args : frames_index (console_ l args).
Proof. done. Qed.

Lemma frames_call {A} (f : ext_state -> outcome A * ext_state) : frames_index (call f).
Proof. intros w. unfold call. by destruct (f (outside w)). Qed.

Lemma frames_query v k : frames_index (query v k).
Proof. intros w. unfold query. by destruct (query_matches _ _ _ _). Qed.

Lemma frames_bind {A B} (c : M A) (k : A -> M B) :
  frames_index c -> (forall a, frames_index (k a)) -> frames_index (bind c k).
Proof.
  intros Hc Hk w. unfold bind. specialize (Hc w).
  destruct (c w) as [[a|e] w1]; simpl in *; [|done].
  by rewrite Hk.
Qed.

Lemma frames_try_catch {A} (c : M A) (h : exn -> M A) :
  frames_index c -> (forall e, frames_index (h e)) -> frames_index (try_catch c h).
Proof.
  intros Hc Hh w. unfold try_catch. specialize (Hc w).
  destruct (c w) as [[a|e] w1]; simpl in *; [done|].
  by rewrite Hh.
Qed.

Lemma never_throws_try_catch {A} (c : M A) (h : exn -> M A) :
  (forall e, never_throws (h e)) -> never_throws (try_catch c h).
Proof.
  intros Hh w. unfold try_catch.
  destruct (c w) as [[a|e] w1]; [by exists a|]. apply Hh.
Qed.

Lemma never_throws_console l args : never_throws (console_ l args).
Proof. intros w. by exists tt. Qed.

Lemma never_throws_ret {A} (a : A) : never_throws (ret a).
Proof. intros w. by exists a. Qed.

Lemma never_throws_bind {A B} (c : M A) (k : A -> M B) :
  never_throws c -> (forall a, never_throws (k a)) -> never_throws (bind c k).
Proof.
  intros Hc Hk w. unfold bind. destruct (Hc w) as [a Ha].
  destruct (c w) as [[a'|e] w1]; simpl in Ha; [|done]. apply Hk.
Qed.

Lemma returns_ret {A} (a : A) (Q : A -> Prop) : Q a -> returns (ret a) Q.
Proof. intros HQ w a' [= <-]. done. Qed.

Lemma returns_throw {A} e (Q : A -> Prop) : returns (throw e) Q.
Proof. intros w a. done. Qed.

Lemma returns_bind {A B} (c : M A) (k : A -> M B) (Q : B -> Prop) :
  (forall a, returns (k a) Q) -> returns (bind c k) Q.
Proof.
  intros Hk w b. unfold bind. destruct (c w) as [[a|e] w1]; [|done]. apply Hk.
Qed.

Lemma returns_try_catch {A} (c : M A) (h : exn -> M A) (Q : A -> Prop) :
  returns c Q -> (forall e, returns (h e) Q) -> returns (try_catch c h) Q.
Proof.
  intros Hc Hh w a. unfold try_catch. specialize (Hc w).
  destruct (c w) as [[a'|e] w1]; simpl in *; [|apply Hh].
  intros [= <-]. by apply Hc.
Qed.

End MonadFacts.

Create HintDb frames.
#[export] Hint Resolve frames_ret frames_throw frames_lift frames_clock
  frames_console frames_call frames_query : frames.

Ltac frame_step :=
  first
    [ apply frames_bind; [|intros ?]
    | apply frames_try_catch; [|intros ?]
    | match goal with
      | |- frames_index (if ?b then _ else _) => destruct b
      | |- frames_index (match ?x with _ => _ end) => destruct x
      end
    | solve [auto with frames]
    | apply frames_console
    | apply frames_ret ].

Ltac frames := repeat frame_step.

Section ServerFrames.
Context `{Externals}.

(** server.ts never writes to the vector index. *)
Lemma frames_agentHandler body_ : frames_index (Server.agentHandler body_).
Proof. unfold Server.agentHandler. frames. Qed.

Lemma frames_answer_from_url u : frames_index (Server.answer_from_url u).
Proof. unfold Server.answer_from_url. frames. Qed.

(** Neither does the listener that answers queries. *)
Lemma frames_query_eachMessage p v : frames_index (QueryConsumer.eachMessage p v).
Proof. unfold QueryConsumer.eachMessage. frames. Qed.
End ServerFrames.

(** ** Writes to the index *)

Section Stores.
Context `{Externals}.

Lemma get_Article_title (a : Article) :
  get "title" (Article_value a) = Returned (VString (title a)).
Proof. reflexivity. Qed.

Lemma get_Article_content (a : Article) :
  get "content" (Article_value a) = Returned (VString (content a)).
Proof. reflexivity. Qed.

Lemma get_Article_url (a : Article) :
  get "url" (Article_value a) = Returned (VString (url a)).
Proof. reflexivity. Qed.

Lemma get_Article_date (a : Article) :
  get "date" (Article_value a) = Returned (VString (date a)).
Proof. reflexivity. Qed.

(** A successful [storeArticle] of the second service module puts one
    record in the index, under the id of the URL and with the truncated
    metadata; a failed one leaves the index alone. *)
Lemma ServiceB_storeArticle_index (a : Article) (w : World) :
  match ServiceB.storeArticle a w with
  | (Returned _, w') =>
      exists v now,
        index w' = <[ articleId (url a) := (v, truncated_metadata now a) ]> (index w)
  | (Threw _, w') => index w' = index w
  end.
Proof.
  unfold ServiceB.storeArticle, try_catch, bind, call, clock, upsert, console_, throw.
  cbn [outside index console].
  destruct (embedContent _ _ _) as [[v|e] x]; [|done].
  cbn [outside index console].
  destruct (upsert_refused _ _) as [[e|] x']; [done|].
  cbn. eauto.
Qed.


(** A successful [ingest] of consumer.ts puts one record in the index,
    under the id of the message URL and with the object that
    [JSON.parse] returned as metadata, as it is. *)
Lemma ingest_index (url_ : jsstring) (w : World) :
  match IngestConsumer.ingest url_ w with
  | (Returned _, w') =>
      exists v text article,
        JSON.parse (json_span text) = Returned article /\
        index w' = <[ articleId url_ := (v, article) ]> (index w)
  | (Threw _, w') => index w' = index w
  end.
Proof.
  unfold IngestConsumer.ingest, bind, call, upsert, console_, throw, lift, ret.
  cbn [outside index console].
  destruct (fetch_text _ _) as [[html|e] x0]; [|done].
  destruct (is_empty html); [done|].
  cbn [outside index console].
  destruct (generateContent _ _ _) as [[r|e] x1]; [|done].
  destruct (response_text r) as [text|e]; [|done].
  destruct (JSON.parse (json_span text)) as [article|e] eqn:Hparse; [|done].
  destruct (get "title" article) as [t|e]; [|done].
  destruct (get "content" article) as [c|e]; [|done].
  destruct (call_substring0 c 1000) as [sub|e]; [|done].
  cbn [outside index console].
  destruct (embedContent _ _ _) as [[v|e] x2]; [|done].
  cbn [outside index console].
  destruct (upsert_refused _ _) as [[e|] x3]; [done|].
  cbn [outside index console foldl fst snd]. exists v, text, article. done.
Qed.
End Stores.

Section StoreRuns.
Context `{Externals}.

(** [storeArticle] of the second service module, step by step: the
    embedding call, the clock read in the state the embedding left, the
    write. *)
Lemma ServiceB_storeArticle_run (a : Article) (w : World) :
  match embedContent "gemini-embedding-exp-03-07"
          (title a ++ nl ++ substring0 1000 (content a)) (outside w) with
  | (Returned v, x) =>
      match upsert_refused [(articleId (url a), v, truncated_metadata (today x) a)] x with
      | (None, _) =>
          exists w',
            ServiceB.storeArticle a w = (Returned tt, w') /\
            index w' = <[ articleId (url a) := (v, truncated_metadata (today x) a) ]> (index w)
      | (Some e, _) =>
          exists w', ServiceB.storeArticle a w = (Threw e, w') /\ index w' = index w
      end
  | (Threw e, _) =>
      exists w', ServiceB.storeArticle a w = (Threw e, w') /\ index w' = index w
  end.
Proof.
  unfold ServiceB.storeArticle, try_catch, bind, call, clock, upsert, console_, throw.
  cbn [outside index console].
  destruct (embedContent _ _ _) as [[v|e] x]; [|eauto].
  cbn [outside index console].
  change (VObject _) with (truncated_metadata (today x) a).
  change (substring0 64 (base64 (utf8 (url a)))) with (articleId (url a)).
  destruct (upsert_refused _ _) as [[e|] x']; eauto.
Qed.

(** The same for the first service module, given an [Article]; an error
    of the embedding call is replaced by the module's own. *)
Lemma ServiceA_storeArticle_run (a : Article) (w : World) :
  match embedContent "gemini-embedding-exp-03-07"
          (title a ++ nl ++ substring0 1000 (content a)) (outside w) with
  | (Returned v, x) =>
      match upsert_refused [(articleId (url a), v, truncated_metadata (today x) a)] x with
      | (None, _) =>
          exists w',
            ServiceA.storeArticle (Article_value a) w = (Returned tt, w') /\
            index w' = <[ articleId (url a) := (v, truncated_metadata (today x) a) ]> (index w)
      | (Some e, _) =>
          exists w',
            ServiceA.storeArticle (Article_value a) w = (Threw e, w') /\ index w' = index w
      end
  | (Threw _, _) =>
      exists w',
        ServiceA.storeArticle (Article_value a) w
        = (Threw (ErrorObject Error_ (js "Failed to generate embeddings.")), w') /\
        index w' = index w
  end.
Proof.
  unfold ServiceA.storeArticle.
  rewrite get_Article_title, get_Article_content, get_Article_url, get_Article_date.
  unfold try_catch, bind, call, clock, upsert, console_, throw, lift.
  cbn [outside index console call_substring0 Buffer_from ToString].
  destruct (embedContent _ _ _) as [[v|e] x]; [|eauto].
  cbn [outside index console].
  replace (or_else (VString (date a)) (VString (today x)))
    with (VString (if is_empty (date a) then today x else date a))
    by (unfold or_else, truthy, is_empty; by destruct (bool_decide (date a = []))).
  change (VObject _) with (truncated_metadata (today x) a).
  change (substring0 64 (base64 (utf8 (url a)))) with (articleId (url a)).
  destruct (upsert_refused _ _) as [[e|] x']; eauto.
Qed.

(** When the page is fetched, the model replies with text whose span
    parses to an object with a string [content], the embedding call
    answers and the store accepts, [ingest] returns, having written the
    object under the id of the message URL. *)
Lemma ingest_succeeds (u : jsstring) (w : World) (html : jsstring) (x0 x1 x2 x3 : ext_state)
    (r : response) (text : jsstring) (props : list (jsstring * jsval)) (c : jsstring)
    (v : vector) :
  fetch_text u (outside w) = (Returned html, x0) -> is_empty html = false ->
  generateContent "gemini-2.5-pro-exp-03-25" (IngestConsumer.prompt_for u html) x0
    = (Returned r, x1) ->
  response_text r = Returned text ->
  JSON.parse (json_span text) = Returned (VObject props) ->
  assoc (js "content") props = Some (VString c) ->
  embedContent "gemini-embedding-exp-03-07"
    (ToString (get_opt "title" (VObject props)) ++ nl ++ substring0 1000 c) x1
    = (Returned v, x2) ->
  upsert_refused [(articleId u, v, VObject props)] x2 = (None, x3) ->
  exists w',
    IngestConsumer.ingest u w = (Returned tt, w') /\
    index w' = <[ articleId u := (v, VObject props) ]> (index w).
Proof.
  intros Hf Hh Hg Ht Hp Hc He Hu.
  unfold IngestConsumer.ingest, bind, call, upsert, console_, throw, lift, ret.
  cbn [outside index console]. rewrite Hf, Hh. cbn [outside index console].
  fold (IngestConsumer.prompt_for u html). rewrite Hg, Ht, Hp.
  cbn [get get_opt] in *. rewrite Hc. cbn [call_substring0 outside index console].
  rewrite He. cbn [outside index console].
  change (substring0 64 (base64 (utf8 u))) with (articleId u). rewrite Hu.
  cbn [outside index console foldl fst snd]. eauto.
Qed.

End StoreRuns.



Lemma Forall_ascii_dec (s : jsstring) :
  forallb (fun c => c <? 128) s = true -> Forall (fun c => c < 128) s.
Proof.
  intros Hs. apply Forall_forall. intros c Hc.
  apply N.ltb_lt. rewrite forallb_forall in Hs. apply Hs. by apply list_elem_of_In.
Qed.



Lemma substring0_length n s : (length (substring0 n s) <= N.to_nat n)%nat.
Proof. unfold substring0. rewrite length_take. lia. Qed.

(** Claim C2, as the code has it: [storeArticle] (either service module)
    stores, for every [Article] for which the embedding call answers and
    the store accepts the write, a metadata object whose title is the
    first 1000 units of the article's title and whose content is the
    first 5000 units of its content, whatever their lengths; the URL is
    carried through; the date is carried through when it is not empty,
    and otherwise is the date that the clock gives when the metadata is
    built, after the embedding call.  When the embedding call fails or
    the store refuses, nothing is stored. *)
Theorem storeArticle_metadata `{Externals} (a : Article) (w : World) :
  match embedContent "gemini-embedding-exp-03-07"
          (title a ++ nl ++ substring0 1000 (content a)) (outside w) with
  | (Returned v, x) =>
      let metadata :=
        VObject [(js "title", VString (take 1000 (title a)));
                 (js "url", VString (url a));
                 (js "date", VString (if is_empty (date a) then today x else date a));
                 (js "content", VString (take 5000 (content a)))] in
      match upsert_refused [(articleId (url a), v, metadata)] x with
      | (None, _) =>
          (exists w',
             ServiceB.storeArticle a w = (Returned tt, w') /\
             index w' = <[ articleId (url a) := (v, metadata) ]> (index w)) /\
          (exists w',
             ServiceA.storeArticle (Article_value a) w = (Returned tt, w') /\
             index w' = <[ articleId (url a) := (v, metadata) ]> (index w))
      | (Some e, _) =>
          (exists w', ServiceB.storeArticle a w = (Threw e, w') /\ index w' = index w) /\
          (exists w',
             ServiceA.storeArticle (Article_value a) w = (Threw e, w') /\
             index w' = index w)
      end
  | (Threw e, _) =>
      (exists w', ServiceB.storeArticle a w = (Threw e, w') /\ index w' = index w) /\
      (exists w',
         ServiceA.storeArticle (Article_value a) w
         = (Threw (ErrorObject Error_ (js "Failed to generate embeddings.")), w') /\
         index w' = index w)
  end /\
  (length (take 1000 (title a)) <= 1000)%nat /\
  (length (take 5000 (content a)) <= 5000)%nat.
Proof.
  split; [|rewrite !length_take; lia].
  pose proof (ServiceB_storeArticle_run a w) as Hb.
  pose proof (ServiceA_storeArticle_run a w) as Ha.
  destruct (embedContent _ _ _) as [[v|e] x]; [|by split].
  cbv zeta.
  change (VObject _) with (truncated_metadata (today x) a).
  destruct (upsert_refused _ _) as [[e|] x']; by split.
Qed.

(** Claim C2 as stated fails on the date: an article whose date is empty
    is stored with the date of the clock, not with its own. *)
Lemma storeArticle_replaces_empty_date :
  let a := {| title := js "T"; content := js "C"; url := js "http://a/b"; date := [] |} in
  exists v md,
    index (ServiceB.storeArticle (H := scripted) a (Scripted.start scripted tt [])).2
      !! articleId (url a) = Some (v, md) /\
    get_opt "date" md = VString (js "2025-01-01") /\
    get_opt "date" md <> VString (date a).
Proof.
  intros a. eexists _, _. split; [vm_compute; reflexivity|]. split; [reflexivity|].
  vm_compute. discriminate.
Qed.

(** The listener of consumer.ts does not truncate: a title of 1001 units
    in the model's JSON is stored whole. *)
Example ingest_stores_untruncated :
  let long := repeat 65 1001 in
  let X := Scripted.world Scripted.page
             (fun _ _ => Returned (jsq "{'title': '" ++ long ++ jsq "', 'content': 'C'}")) in
  exists v md,
    index (IngestConsumer.eachMessage (H := X) 0 (Some (js "http://a/b"))
             (Scripted.start X tt [])).2
      !! articleId (js "http://a/b") = Some (v, md) /\
    get_opt "title" md = VString long.
Proof.
  intros long X. eexists _, _. split; vm_compute; reflexivity.
Qed.

(** ** The retriever, the endpoint, the listeners *)

Lemma keys_article_of_match m :
  keys (article_of_match m) = [js "title"; js "content"; js "url"; js "date"].
Proof. reflexivity. Qed.

Lemma get_article_of_match m :
  get_opt "title" (article_of_match m) = get_opt "title" m.2 /\
  get_opt "content" (article_of_match m) = get_opt "content" m.2 /\
  get_opt "url" (article_of_match m) = get_opt "url" m.2 /\
  get_opt "date" (article_of_match m) = get_opt "date" m.2.
Proof. repeat split; reflexivity. Qed.

(** Claim C6: given a vector store that answers a query for [topK]
    neighbours with at most [topK] matches, [searchArticles] returns at
    most [topK] articles: one per match and in the same order, none
    dropped.  Each article has all four properties [title], [content],
    [url] and [date], the [url] among them; a property has the value the
    match's metadata gives it, and is [undefined] when the metadata (or
    the whole metadata object) is missing it.  The mapping itself never
    fails: [searchArticles] throws only what the embedding call or the
    store query threw. *)
Theorem searchArticles_results `{Externals} (Hstore : store_respects_topK)
    (query_ : jsstring) (topK : nat) (w : World) :
  match searchArticles query_ topK w with
  | (Returned articles, _) =>
      (length articles <= topK)%nat /\
      exists v x x' matches,
        embedContent "gemini-embedding-exp-03-07" query_ (outside w) = (Returned v, x) /\
        query_matches (index w) v topK x = (Returned matches, x') /\
        articles = List.map article_of_match matches /\
        length articles = length matches /\
        Forall (fun a => keys a = [js "title"; js "content"; js "url"; js "date"])
               articles
  | (Threw e, _) =>
      (exists x, embedContent "gemini-embedding-exp-03-07" query_ (outside w)
                 = (Threw e, x)) \/
      (exists v x x', embedContent "gemini-embedding-exp-03-07" query_ (outside w)
                      = (Returned v, x) /\
                      query_matches (index w) v topK x = (Threw e, x'))
  end /\
  forall m : jsstring * jsval,
    get_opt "title" (article_of_match m) = get_opt "title" m.2 /\
    get_opt "content" (article_of_match m) = get_opt "content" m.2 /\
    get_opt "url" (article_of_match m) = get_opt "url" m.2 /\
    get_opt "date" (article_of_match m) = get_opt "date" m.2 /\
    (exists props, article_of_match m = VObject props /\
                   assoc (js "url") props = Some (get_opt "url" m.2)) /\
    (forall k props, m.2 = VObject props -> assoc (js k) props = None ->
                     get_opt k m.2 = VUndefined) /\
    (forall k, m.2 = VUndefined -> get_opt k m.2 = VUndefined).
Proof.
  split.
  - unfold searchArticles, try_catch, bind, call, query, ret, console_, throw.
    cbn [outside index console].
    destruct (embedContent _ _ _) as [[v|e] x] eqn:Hembed; [|left; eauto].
    cbn [outside index console].
    destruct (query_matches _ _ _ _) as [[ms|e] x'] eqn:Hquery; [|right; eauto 6].
    split.
    + rewrite length_map. eapply Hstore, Hquery.
    + exists v, x, x', ms. repeat split; try done.
      * by rewrite length_map.
      * apply Forall_forall. intros a Ha%list_elem_of_In.
        apply in_map_iff in Ha as (m & <- & _). reflexivity.
  - intros m. repeat split; try reflexivity.
    + eexists. split; reflexivity.
    + intros k props -> Hk. cbn. by rewrite Hk.
    + by intros k ->.
Qed.

Lemma scripted_respects_topK page reply :
  store_respects_topK (H := Scripted.world page reply).
Proof.
  intros idx v topK x ms x' [= <- _]. rewrite length_take. lia.
Qed.

(** [searchArticles_results] in the scripted world, whose store holds
    three records: a query for two neighbours returns at most two
    articles. *)
Lemma searchArticles_results_witness :
  store_respects_topK (H := scripted) /\
  match searchArticles (H := scripted) (js "latest on topic X") 2
          (Scripted.start scripted tt Scripted.three_records) with
  | (Returned articles, _) => (length articles <= 2)%nat
  | (Threw _, _) => False
  end.
Proof.
  split; [apply scripted_respects_topK|].
  pose proof (searchArticles_results (H := scripted)
                (scripted_respects_topK _ _) (js "latest on topic X") 2
                (Scripted.start scripted tt Scripted.three_records)) as [Hr _].
  destruct (searchArticles _ _ _) as [[articles|e] w'].
  - apply Hr.
  - vm_compute in Hr. destruct Hr as [[x Hx]|(v & x & x' & _ & Hx)]; discriminate.
Defined.

Section Endpoint.
Context `{Externals}.

(** The response of the URL branch of [agentHandler]: status 200 and
    exactly one source. *)
Lemma answer_from_url_returns url_ :
  returns (Server.answer_from_url url_)
    (fun r => status r = 200 /\
              exists answer_ src,
                body r = VObject [(js "answer", VString answer_);
                                  (js "sources", VArray [src])]).
Proof.
  unfold Server.answer_from_url.
  do 7 (apply returns_bind; intros ?).
  apply returns_ret. split; [done|]. cbn. eauto.
Qed.

Lemma agentHandler_url_branch (q url_ : jsstring) (w : World) :
  extractUrlFromQuery q = Some url_ ->
  Server.agentHandler (VObject [(js "query", VString q)]) w
  = try_catch (Server.answer_from_url url_) Server.on_error w.
Proof.
  intros E. destruct (extractUrlFromQuery_nonempty _ _ E) as [Hq Hu].
  unfold Server.agentHandler, try_catch, bind, lift.
  change (get "query" (VObject [(js "query", VString q)])) with (Returned (VString q)).
  cbn iota. by rewrite Hq, E, Hu.
Qed.
End Endpoint.

(** Claim C7: when the query of a request contains a URL, [agentHandler]
    runs [processArticle] on that URL and asks the model for a summary
    (a 200 response has exactly one source), and it writes nothing to the
    vector index, whether it succeeds or fails; the listener of
    consumer.ts, given the same URL, puts a record in the index when it
    succeeds. *)
Theorem url_query_is_not_stored `{Externals} (q url_ : jsstring) (w : World)
    (Hurl : extractUrlFromQuery q = Some url_) :
  Server.agentHandler (VObject [(js "query", VString q)]) w
    = try_catch (Server.answer_from_url url_) Server.on_error w /\
  index (Server.agentHandler (VObject [(js "query", VString q)]) w).2 = index w /\
  returns (Server.answer_from_url url_)
    (fun r => status r = 200 /\
              exists answer_ src,
                body r = VObject [(js "answer", VString answer_);
                                  (js "sources", VArray [src])]) /\
  match IngestConsumer.ingest url_ w with
  | (Returned _, w') =>
      exists v md, index w' = <[ articleId url_ := (v, md) ]> (index w)
  | (Threw _, w') => index w' = index w
  end.
Proof.
  split; [by apply agentHandler_url_branch|].
  split; [apply frames_agentHandler|].
  split; [apply answer_from_url_returns|].
  pose proof (ingest_index url_ w) as Hs.
  destruct (IngestConsumer.ingest url_ w) as [[[]|e] w']; [|done].
  destruct Hs as (v & text & article & _ & Hs). eauto.
Qed.

(** [url_query_is_not_stored] in the scripted world: the query of the
    specification's scenario contains a URL, and answering it leaves the
    empty index empty. *)
Lemma url_query_is_not_stored_witness :
  extractUrlFromQuery (js "What happened at https://example.com/news/1")
    = Some (js "https://example.com/news/1") /\
  index (Server.agentHandler (H := scripted)
           (VObject [(js "query",
                      VString (js "What happened at https://example.com/news/1"))])
           (Scripted.start scripted tt [])).2 = ∅.
Proof.
  split; [vm_compute; reflexivity|].
  apply (proj1 (proj2 (url_query_is_not_stored (H := scripted)
                         (js "What happened at https://example.com/news/1")
                         (js "https://example.com/news/1")
                         (Scripted.start scripted tt [])
                         ltac:(vm_compute; reflexivity)))).
Defined.

Section Listeners.
Context `{Externals}.

Lemma ingest_eachMessage_returns partition value w :
  exists w', IngestConsumer.eachMessage partition value w = (Returned tt, w').
Proof.
  unfold IngestConsumer.eachMessage.
  destruct value as [url_|]; [|eauto].
  destruct (_ || _); [eauto|].
  unfold bind, console_, try_catch. cbn iota beta.
  destruct (IngestConsumer.ingest url_ _) as [[[]|e] w1]; [eauto|].
  unfold IngestConsumer.on_error. eauto.
Qed.

Lemma query_eachMessage_returns partition value w :
  exists w', QueryConsumer.eachMessage partition value w = (Returned tt, w').
Proof.
  unfold QueryConsumer.eachMessage.
  destruct value as [query_|]; [|eauto].
  destruct (is_empty _); [eauto|].
  unfold bind, console_, try_catch. cbn iota beta.
  destruct (QueryConsumer.answer_query query_ _) as [[[]|e] w1]; [eauto|].
  unfold QueryConsumer.on_error. eauto.
Qed.

(** A handler that never throws lets the runtime resolve every offset of
    the batch. *)
Lemma run_batch_all (eachMessage : nat -> option jsstring -> M unit) partition :
  (forall value w, exists w', eachMessage partition value w = (Returned tt, w')) ->
  forall batch w,
    exists w', run_batch eachMessage partition batch w = (length batch, None, w').
Proof.
  intros Hh. induction batch as [|value batch IH]; intros w; cbn [run_batch]; [eauto|].
  destruct (Hh value w) as [w1 ->].
  destruct (IH w1) as [w2 ->]. eauto.
Qed.
End Listeners.

(** Claim C8: [eachMessage] of either listener returns normally for every
    message and from every state: whatever its [try] block throws is
    caught by its [catch] block, which writes one line to [console.error]
    and returns.  So the consumer runtime sees no rejection: it hands
    every message of a batch to the handler once, in order, and resolves
    every offset, whatever the outcome of the single messages. *)
Theorem eachMessage_swallows_errors `{Externals} (partition : nat)
    (value : option jsstring) (batch : list (option jsstring)) (w : World) :
  (exists w', IngestConsumer.eachMessage partition value w = (Returned tt, w')) /\
  (exists w', QueryConsumer.eachMessage partition value w = (Returned tt, w')) /\
  (forall url_ e w1,
     IngestConsumer.ingest url_ w = (Threw e, w1) ->
     try_catch (IngestConsumer.ingest url_) (IngestConsumer.on_error url_) w
     = (Returned tt,
        {| outside := outside w1; index := index w1;
           console := console w1
             ++ [(Error, [LText (js "Failed to process article " ++ url_ ++ js ":");
                          message_or e (LExn e)])] |})) /\
  (forall query_ e w1,
     QueryConsumer.answer_query query_ w = (Threw e, w1) ->
     try_catch (QueryConsumer.answer_query query_) (QueryConsumer.on_error query_) w
     = (Returned tt,
        {| outside := outside w1; index := index w1;
           console := console w1
             ++ [(Error, [LText (js "Failed to process query " ++ query_ ++ js ":");
                          LExn e])] |})) /\
  (exists w', run_batch IngestConsumer.eachMessage partition batch w
              = (length batch, None, w')) /\
  (exists w', run_batch QueryConsumer.eachMessage partition batch w
              = (length batch, None, w')).
Proof.
  split; [apply ingest_eachMessage_returns|].
  split; [apply query_eachMessage_returns|].
  split; [by intros url_ e w1 Hrun; unfold try_catch; rewrite Hrun|].
  split; [by intros query_ e w1 Hrun; unfold try_catch; rewrite Hrun|].
  split; apply run_batch_all; intros;
    [apply ingest_eachMessage_returns | apply query_eachMessage_returns].
Qed.

(** A batch of three messages whose second makes the model refuse: all
    three offsets are resolved, one error line is logged, and the two
    good URLs are in the index. *)
Example batch_with_a_failing_message :
  let X := Scripted.world Scripted.page
             (fun _ p => if bool_decide (p = IngestConsumer.prompt_of
                                              (js "http://bad") (js "Some page text")
                                              (js "Some page text"))
                         then Scripted.sorry "" p
                         else Scripted.chatty "" p) in
  let out := run_batch (H := X) IngestConsumer.eachMessage 0
               [Some (js "http://a/1"); Some (js "http://bad"); Some (js "http://a/2")]
               (Scripted.start X tt []) in
  out.1 = (3%nat, None) /\
  size (index out.2) = 2%nat /\
  length (List.filter (fun l => match l.1 with Error => true | _ => false end)
            (console out.2)) = 1%nat.
Proof. vm_compute. done. Qed.

Lemma occurs_unfold needle hay :
  occurs needle hay =
    startsWith needle hay ||
    match hay with
    | [] => false
    | _ :: hay' => occurs needle hay'
    end.
Proof. by destruct hay. Qed.

Lemma occurs_infix needle post : forall pre,
  occurs needle (pre ++ needle ++ post) = true.
Proof.
  induction pre as [|c pre IH].
  - rewrite occurs_unfold. cbn [app]. by rewrite RegexFacts.startsWith_app.
  - rewrite occurs_unfold. cbn [app]. rewrite IH. apply orb_true_r.
Qed.

Lemma cited_in_occurs answer_ u :
  cited_in answer_ u -> occurs ([93; 40] ++ u ++ [41]) answer_ = true.
Proof.
  intros (pre & label & post & -> & _).
  replace (pre ++ [91] ++ label ++ [93; 40] ++ u ++ [41] ++ post)
    with ((pre ++ [91] ++ label) ++ ([93; 40] ++ u ++ [41]) ++ post)
    by (repeat rewrite <- app_assoc; reflexivity).
  apply occurs_infix.
Qed.

(** [JSON.stringify] keeps the order of the properties it keeps. *)
Lemma json_body_object props :
  exists props',
    json_body (VObject props) = VObject props' /\
    sublist (List.map fst props') (List.map fst props).
Proof.
  cbn [json_body]. eexists. split; [reflexivity|].
  induction props as [|[k v] props IH]; [constructor|].
  destruct v; cbn [List.map fst]; (by apply sublist_cons) || (by apply sublist_skip).
Qed.

Lemma assoc_None k props : k ∉ List.map fst props -> assoc k props = None.
Proof.
  induction props as [|[k' v] props IH]; [done|]. cbn [assoc List.map fst].
  intros Hk. unfold jsstring_eqb. case_bool_decide as Hkk.
  - exfalso. apply Hk. subst. by left.
  - apply IH. intros Hin. apply Hk. by right.
Qed.

Lemma source_has_no_content props :
  sublist (List.map fst props) [js "title"; js "url"; js "date"] ->
  assoc (js "content") props = None.
Proof.
  intros Hsub. apply assoc_None. intros Hin.
  pose proof (elem_of_sublist _ _ _ Hin Hsub) as Hc.
  vm_compute in Hc. by repeat (apply elem_of_cons in Hc as [Hc|Hc]; [done|]);
    apply elem_of_nil in Hc.
Qed.

Lemma json_source_shape t u d :
  source_shape (json_body (VObject [(js "title", t); (js "url", u); (js "date", d)])).
Proof. apply json_body_object. Qed.

Lemma json_sources (articles : list jsval) :
  List.map (fun i => match i with VUndefined => VNull | _ => json_body i end)
           (List.map source_of articles)
  = List.map (fun a => json_body (source_of a)) articles.
Proof. rewrite map_map. reflexivity. Qed.

Section Shapes.
Context `{Externals}.

Lemma answer_from_index_returns q :
  returns (Server.answer_from_index q) response_shape.
Proof.
  unfold Server.answer_from_index.
  do 4 (apply returns_bind; intros ?).
  apply returns_ret. split; [by left|]. intros _.
  cbn [res_json body json_body]. eexists _, _. split; [reflexivity|].
  rewrite json_sources. apply Forall_forall. intros s Hs%list_elem_of_In.
  apply in_map_iff in Hs as (art & <- & _). apply json_source_shape.
Qed.

Lemma answer_from_url_shape url_ :
  returns (Server.answer_from_url url_) response_shape.
Proof.
  unfold Server.answer_from_url.
  do 7 (apply returns_bind; intros ?).
  apply returns_ret. split; [by left|]. intros _.
  cbn [res_json body json_body List.map]. eexists _, _. split; [reflexivity|].
  constructor; [|constructor]. apply json_source_shape.
Qed.

Lemma agentHandler_returns body_ :
  returns (Server.agentHandler body_) response_shape.
Proof.
  unfold Server.agentHandler. apply returns_try_catch.
  - apply returns_bind. intros q.
    assert (H400 : returns
              (ret (res_status_json 400
                      (VObject [(js "error",
                                 VString (js "Query is required and must be a string"))])))
              response_shape).
    { apply returns_ret. split; [right; by left|]. done. }
    destruct q; try exact H400.
    destruct (is_empty s); [exact H400|].
    destruct (extractUrlFromQuery s) as [u|]; [|apply answer_from_index_returns].
    destruct (is_empty u);
      [apply answer_from_index_returns | apply answer_from_url_shape].
  - intros e. unfold Server.on_error. apply returns_bind. intros _.
    apply returns_ret. split; [right; by right|]. done.
Qed.

Lemma agentHandler_never_throws body_ : never_throws (Server.agentHandler body_).
Proof.
  unfold Server.agentHandler. apply never_throws_try_catch. intros e.
  unfold Server.on_error. apply never_throws_bind; [apply never_throws_console|].
  intros _. apply never_throws_ret.
Qed.
End Shapes.

(** Claim C9, as the code has it: [agentHandler] always answers, with
    status 200, 400 or 500; the body of a 200 response is an object with
    the string [answer] and the array [sources], and each element of
    [sources] is an object whose properties are among [title], [url] and
    [date], in this order (a property whose value is [undefined] is left
    out by [res.json]); no element has a [content] property. *)
Theorem agentHandler_response_shape `{Externals} (req_body : jsval) (w : World) :
  exists r w',
    Server.agentHandler req_body w = (Returned r, w') /\
    (status r = 200 \/ status r = 400 \/ status r = 500) /\
    (status r = 200 ->
     exists answer_ items,
       body r = VObject [(js "answer", VString answer_); (js "sources", VArray items)] /\
       Forall (fun item =>
                 exists props,
                   item = VObject props /\
                   sublist (List.map fst props) [js "title"; js "url"; js "date"] /\
                   assoc (js "content") props = None) items).
Proof.
  destruct (agentHandler_never_throws req_body w) as [r Hr].
  pose proof (agentHandler_returns req_body w r Hr) as [Hst Hshape].
  destruct (Server.agentHandler req_body w) as [o w'] eqn:E. simpl in Hr. subst o.
  exists r, w'. split; [done|]. split; [done|].
  intros H200. destruct (Hshape H200) as (answer_ & items & Hb & Hitems).
  exists answer_, items. split; [done|].
  eapply Forall_impl; [exact Hitems|]. intros item (props & -> & Hsub).
  exists props. split; [done|]. split; [done|]. by apply source_has_no_content.
Qed.

(** Claim C9 as stated fails: the 200 response to the query of the
    specification's scenario has one source, and the source has the
    properties [title], [url] and [date] but no [content]. *)
Lemma agentHandler_source_without_content :
  exists answer_ src,
    (Server.agentHandler (H := scripted)
       (VObject [(js "query",
                  VString (js "What happened at https://example.com/news/1"))])
       (Scripted.start scripted tt [])).1
    = Returned {| status := 200;
                  body := VObject [(js "answer", VString answer_);
                                   (js "sources", VArray [src])] |} /\
    keys src = [js "title"; js "url"; js "date"] /\
    get_opt "content" src = VUndefined.
Proof. eexists _, _. split; [vm_compute; reflexivity|]. split; reflexivity. Qed.

Section NoUrl.
Context `{Externals}.

Lemma agentHandler_index_branch (q : jsstring) (w : World) :
  is_empty q = false -> extractUrlFromQuery q = None ->
  Server.agentHandler (VObject [(js "query", VString q)]) w
  = try_catch (Server.answer_from_index q) Server.on_error w.
Proof.
  intros Hq E. unfold Server.agentHandler, try_catch, bind, lift.
  change (get "query" (VObject [(js "query", VString q)])) with (Returned (VString q)).
  cbn iota. by rewrite Hq, E.
Qed.

(** A 200 response of the search branch lists every article that
    [searchArticles] returned. *)
Lemma answer_from_index_sources q w r w' :
  Server.answer_from_index q w = (Returned r, w') ->
  exists articles w1 answer_,
    searchArticles q 3 w = (Returned articles, w1) /\
    body r = VObject [(js "answer", VString answer_);
                      (js "sources",
                       VArray (List.map (fun a => json_body (source_of a)) articles))].
Proof.
  unfold Server.answer_from_index, bind.
  destruct (searchArticles q 3 w) as [[articles|e] w1]; [|done].
  unfold lift at 1. destruct (context_lines articles) as [lines|e]; [|done].
  destruct (call _ w1) as [[resp|e] w2]; [|done].
  unfold lift. destruct (response_text resp) as [answer_|e]; [|done].
  unfold ret. intros [= <- <-]. exists articles, w1, answer_. split; [done|].
  cbn [res_json body json_body]. by rewrite json_sources.
Qed.

Lemma generateResponse_cited query_ articles :
  returns (ServiceB.generateResponse query_ articles)
    (fun res => forall a, a ∈ ServiceB.sources res ->
                          a ∈ articles /\ cited_in (ServiceB.answer res) (url a)).
Proof.
  unfold ServiceB.generateResponse. apply returns_try_catch.
  - do 3 (apply returns_bind; intros ?). apply returns_ret. cbn.
    destruct (cited_loop a1 articles) as (used & _ & Hsub & _). exact Hsub.
  - intros e. apply returns_bind. intros _. apply returns_throw.
Qed.
End NoUrl.

(** Claim C3, as the code has it: for a query without URL, the [sources]
    of a 200 response of [agentHandler] are all the articles that
    [searchArticles] returned, in order, each reduced to its title, URL
    and date; the answer text plays no part.  The extraction of cited
    sources is done by [generateResponse], which [agentHandler] does not
    call: there, an article is among the sources only if it is a candidate
    and the answer contains a citation [[label](url)] of its URL. *)
Theorem no_url_query_sources `{Externals} (q : jsstring) (w w' : World)
    (r : HttpResponse)
    (Hq : is_empty q = false) (Hno : extractUrlFromQuery q = None)
    (Hrun : Server.agentHandler (VObject [(js "query", VString q)]) w = (Returned r, w'))
    (H200 : status r = 200) :
  (exists articles w1 answer_,
     searchArticles q 3 w = (Returned articles, w1) /\
     body r = VObject [(js "answer", VString answer_);
                       (js "sources",
                        VArray (List.map (fun a => json_body (source_of a)) articles))]) /\
  (forall query_ candidates,
     returns (ServiceB.generateResponse query_ candidates)
       (fun res => forall a, a ∈ ServiceB.sources res ->
                             a ∈ candidates /\ cited_in (ServiceB.answer res) (url a))).
Proof.
  split; [|apply generateResponse_cited].
  rewrite agentHandler_index_branch in Hrun by done.
  unfold try_catch in Hrun.
  destruct (Server.answer_from_index q w) as [[r0|e] w0] eqn:E.
  - injection Hrun as <- <-. by apply answer_from_index_sources in E.
  - unfold Server.on_error, bind, console_, ret in Hrun. injection Hrun as <- _.
    done.
Qed.


(** Claim C3 as stated fails: the store holds three articles, the answer
    cites the first of them only, and the 200 response lists all three;
    the second is a source although its URL is cited nowhere in the
    answer. *)
Lemma agentHandler_lists_uncited_sources :
  exists answer_ s1 s2 s3,
    (Server.agentHandler (H := citing_world)
       (VObject [(js "query", VString (js "latest on topic X"))])
       (Scripted.start citing_world tt Scripted.three_records)).1
    = Returned {| status := 200;
                  body := VObject [(js "answer", VString answer_);
                                   (js "sources", VArray [s1; s2; s3])] |} /\
    get_opt "url" s2 = VString (js "http://n/2") /\
    ~ cited_in answer_ (js "http://n/2") /\
    List.map url (ServiceB.cited answer_ Scripted.three_articles)
    = [js "http://n/1"].
Proof.
  eexists _, _, _, _. split; [vm_compute; reflexivity|].
  split; [reflexivity|]. split; [|vm_compute; reflexivity].
  intros Hc%cited_in_occurs. vm_compute in Hc. discriminate.
Qed.

(** [no_url_query_sources] in that world: the three stored articles are
    the sources. *)
Lemma no_url_query_sources_witness :
  let w := Scripted.start citing_world tt Scripted.three_records in
  let out := Server.agentHandler (H := citing_world)
               (VObject [(js "query", VString (js "latest on topic X"))]) w in
  exists articles w1 answer_ r,
    out.1 = Returned r /\
    searchArticles (H := citing_world) (js "latest on topic X") 3 w
      = (Returned articles, w1) /\
    length articles = 3%nat /\
    body r = VObject [(js "answer", VString answer_);
                      (js "sources",
                       VArray (List.map (fun a => json_body (source_of a)) articles))].
Proof.
  intros w out.
  destruct out as [[r|e] w'] eqn:E; [|vm_compute in E; discriminate].
  destruct (no_url_query_sources (H := citing_world) (js "latest on topic X") w w' r
              ltac:(vm_compute; reflexivity) ltac:(vm_compute; reflexivity) E)
    as [(articles & w1 & answer_ & Hs & Hb) _].
  { vm_compute in E. injection E as <- _. reflexivity. }
  exists articles, w1, answer_, r. split; [reflexivity|]. split; [exact Hs|].
  split; [|exact Hb].
  vm_compute in Hs. injection Hs as <- _. reflexivity.
Defined.

(** ** The span handed to [JSON.parse] *)

Module SpanFacts.

Lemma indexOf_from_spec c : forall s i,
  ((c ∉ s) /\ indexOf_from c s i = (-1)%Z) \/
  (exists pre post, s = pre ++ c :: post /\ (c ∉ pre) /\
                    indexOf_from c s i = (i + Z.of_nat (length pre))%Z).
Proof.
  induction s as [|d s IH]; intros i; cbn [indexOf_from].
  - left. split; [apply not_elem_of_nil|done].
  - destruct (N.eqb_spec d c) as [->|Hne].
    + right. exists [], s. repeat split; [apply not_elem_of_nil|simpl; lia].
    + destruct (IH (i + 1)%Z) as [[Hnot ->]|(pre & post & -> & Hpre & ->)].
      * left. split; [|done]. by apply not_elem_of_cons.
      * right. exists (d :: pre), post. repeat split.
        -- apply not_elem_of_cons. split; [congruence|done].
        -- cbn [length]. lia.
Qed.

Lemma lastIndexOf_from_app c : forall s i found,
  lastIndexOf_from c s i found =
    if bool_decide (c ∈ s) then lastIndexOf_from c s i (-1) else found.
Proof.
  induction s as [|d s IH]; intros i found; cbn [lastIndexOf_from].
  - by rewrite bool_decide_eq_false_2 by apply not_elem_of_nil.
  - rewrite IH. rewrite (IH _ (if d =? c then i else (-1)%Z)).
    destruct (decide (c ∈ s)) as [Hs|Hs].
    + rewrite !(bool_decide_eq_true_2 (c ∈ s)) by done.
      by rewrite (bool_decide_eq_true_2 (c ∈ d :: s)) by (apply elem_of_cons; by right).
    + rewrite !(bool_decide_eq_false_2 (c ∈ s)) by done.
      destruct (N.eqb_spec d c) as [->|Hne].
      * by rewrite (bool_decide_eq_true_2 (c ∈ c :: s)) by (apply elem_of_cons; by left).
      * rewrite (bool_decide_eq_false_2 (c ∈ d :: s)); [done|].
        apply not_elem_of_cons. split; [congruence|done].
Qed.

Lemma lastIndexOf_from_spec c : forall s i,
  ((c ∉ s) /\ lastIndexOf_from c s i (-1) = (-1)%Z) \/
  (exists pre post, s = pre ++ c :: post /\ (c ∉ post) /\
                    lastIndexOf_from c s i (-1) = (i + Z.of_nat (length pre))%Z).
Proof.
  induction s as [|d s IH]; intros i; cbn [lastIndexOf_from].
  - left. split; [apply not_elem_of_nil|done].
  - rewrite lastIndexOf_from_app.
    destruct (IH (i + 1)%Z) as [[Hnot Hl]|(pre & post & -> & Hpost & Hl)].
    + rewrite bool_decide_eq_false_2 by done.
      destruct (N.eqb_spec d c) as [->|Hne].
      * right. exists [], s. repeat split; [done|simpl; lia].
      * left. split; [|done]. apply not_elem_of_cons. split; [congruence|done].
    + rewrite bool_decide_eq_true_2 by (apply elem_of_app; right; by left).
      right. exists (d :: pre), post. repeat split; [done|].
      rewrite Hl. cbn [length]. lia.
Qed.

Lemma indexOf_spec c s :
  ((c ∉ s) /\ indexOf c s = (-1)%Z) \/
  (exists pre post, s = pre ++ c :: post /\ (c ∉ pre) /\
                    indexOf c s = Z.of_nat (length pre)).
Proof. exact (indexOf_from_spec c s 0). Qed.

Lemma lastIndexOf_spec c s :
  ((c ∉ s) /\ lastIndexOf c s = (-1)%Z) \/
  (exists pre post, s = pre ++ c :: post /\ (c ∉ post) /\
                    lastIndexOf c s = Z.of_nat (length pre)).
Proof. exact (lastIndexOf_from_spec c s 0). Qed.

(** [slice] with a start at or after its end is empty. *)
Lemma slice_empty s a b :
  (slice_index (Z.of_nat (length s)) b <= slice_index (Z.of_nat (length s)) a)%Z ->
  slice s a b = [].
Proof.
  intros Hle. unfold slice. cbv zeta.
  replace (Z.to_nat _) with 0%nat by lia. apply take_0.
Qed.

(** [slice] between two indices inside the string. *)
Lemma slice_middle (pre mid post : jsstring) :
  slice (pre ++ mid ++ post) (Z.of_nat (length pre))
        (Z.of_nat (length pre + length mid)) = mid.
Proof.
  unfold slice, slice_index. cbv zeta. rewrite !length_app.
  destruct (Z.ltb_spec (Z.of_nat (length pre)) 0); [lia|].
  destruct (Z.ltb_spec (Z.of_nat (length pre + length mid)) 0); [lia|].
  rewrite !Z.min_l by lia. rewrite Nat2Z.id.
  replace (Z.to_nat _) with (length mid) by lia.
  rewrite drop_app_length. by rewrite take_app_length.
Qed.

Lemma indexOf_from_first (c : char16) (pre post : jsstring) : (c ∉ pre) -> forall i,
  indexOf_from c (pre ++ c :: post) i = (i + Z.of_nat (length pre))%Z.
Proof.
  induction pre as [|d pre IH]; intros Hpre i; cbn [app indexOf_from length].
  - rewrite N.eqb_refl. lia.
  - apply not_elem_of_cons in Hpre as [Hne Hpre].
    destruct (N.eqb_spec d c) as [->|_]; [done|]. rewrite IH by done. lia.
Qed.

Lemma lastIndexOf_from_last (c : char16) (pre post : jsstring) : (c ∉ post) -> forall i found,
  lastIndexOf_from c (pre ++ c :: post) i found = (i + Z.of_nat (length pre))%Z.
Proof.
  intros Hpost. induction pre as [|d pre IH]; intros i found;
    cbn [app lastIndexOf_from length].
  - rewrite N.eqb_refl, lastIndexOf_from_app.
    rewrite bool_decide_eq_false_2 by done. lia.
  - rewrite IH. lia.
Qed.

(** Prose before the first opening brace and after the last closing
    brace is cut away. *)
Lemma json_span_tolerant (pre mid post : jsstring) :
  (123 ∉ pre) -> (125 ∉ post) ->
  json_span (pre ++ 123 :: mid ++ 125 :: post) = 123 :: mid ++ [125].
Proof.
  intros Hpre Hpost. unfold json_span, indexOf, lastIndexOf. cbv zeta.
  assert (Hi : indexOf_from 123 (pre ++ 123 :: mid ++ 125 :: post) 0
               = Z.of_nat (length pre))
    by (rewrite indexOf_from_first by done; lia).
  assert (Hl : Z.add (lastIndexOf_from 125 (pre ++ 123 :: mid ++ 125 :: post) 0 (-1)) 1
               = Z.of_nat (length pre + length (123 :: mid ++ [125]))).
  { replace (pre ++ 123 :: mid ++ 125 :: post)
      with ((pre ++ 123 :: mid) ++ 125 :: post)
      by (rewrite <- app_assoc; reflexivity).
    rewrite lastIndexOf_from_last by done.
    cbn [length]. rewrite !length_app. cbn [length]. lia. }
  rewrite Hi, Hl.
  replace (pre ++ 123 :: mid ++ 125 :: post)
    with (pre ++ (123 :: mid ++ [125]) ++ post)
    by (cbn [app]; rewrite <- app_assoc; reflexivity).
  apply slice_middle.
Qed.

(** Without an opening brace before a closing brace, what is handed to
    [JSON.parse] is the empty string or a lone closing brace. *)
Lemma json_span_no_span text :
  ~ has_span text -> json_span text = [] \/ json_span text = [125].
Proof.
  intros Hno. unfold json_span. cbv zeta.
  destruct (indexOf_spec 123 text) as [[_ ->]|(pre1 & post1 & E1 & Hpre1 & ->)];
    destruct (lastIndexOf_spec 125 text) as [[_ ->]|(pre2 & post2 & E2 & Hpost2 & ->)].
  - left. apply slice_empty. unfold slice_index. simpl. lia.
  - destruct post2 as [|c post2].
    + right. subst text. unfold slice, slice_index. cbv zeta.
      rewrite length_app. cbn [length].
      destruct (Z.ltb_spec (-1) 0); [|lia].
      destruct (Z.ltb_spec (Z.of_nat (length pre2) + 1) 0); [lia|].
      rewrite Z.max_l, Z.min_l by lia.
      replace (Z.to_nat (Z.of_nat (length pre2 + 1) + -1)) with (length pre2) by lia.
      rewrite drop_app_length.
      replace (Z.to_nat _) with 1%nat by lia. reflexivity.
    + left. apply slice_empty. subst text. unfold slice_index.
      rewrite length_app. cbn [length].
      destruct (Z.ltb_spec (-1) 0); [|lia].
      destruct (Z.ltb_spec (Z.of_nat (length pre2) + 1) 0); lia.
  - left. apply slice_empty. unfold slice_index. simpl.
    destruct (Z.ltb_spec (Z.of_nat (length pre1)) 0); lia.
  - left. apply slice_empty. unfold slice_index.
    destruct (Z.ltb_spec (Z.of_nat (length pre1)) 0); [lia|].
    destruct (Z.ltb_spec (Z.of_nat (length pre2) + 1) 0); [lia|].
    assert (Hi : text !! length pre1 = Some 123)
      by (rewrite E1; apply list_lookup_middle; done).
    assert (Hj : text !! length pre2 = Some 125)
      by (rewrite E2; apply list_lookup_middle; done).
    assert (~ (length pre1 < length pre2)%nat) by (intros Hlt; apply Hno; by exists (length pre1), (length pre2)).
    assert (length pre1 <> length pre2) by (intros Heq; rewrite Heq in Hi; congruence).
    assert (length pre1 < length text)%nat by (eapply lookup_lt_Some; eauto).
    lia.
Qed.


End SpanFacts.

Section Normalizers.
Context `{Externals}.



End Normalizers.

(** ** [JSON.parse] is total *)

Module JSONFacts.
Import JSON.

Lemma skip_ws_length s : (length (skip_ws s) <= length s)%nat.
Proof.
  induction s as [|c s IH]; [done|]. cbn [skip_ws].
  destruct (is_ws c); cbn [length]; lia.
Qed.

Lemma next_is_shorter c s r : next_is c s = Some r -> (length r < length s)%nat.
Proof.
  unfold next_is. pose proof (skip_ws_length s) as Hs.
  destruct (skip_ws s) as [|d s']; [done|]. destruct (d =? c); [|done].
  intros [= <-]. cbn [length] in Hs. lia.
Qed.

Lemma span_digits_length s :
  length s = (length (span_digits s).1 + length (span_digits s).2)%nat.
Proof.
  induction s as [|c s IH]; [done|]. cbn [span_digits].
  destruct (is_digit c); [|done].
  destruct (span_digits s) as [d r]. cbn [fst snd length] in *. lia.
Qed.

Lemma optional_length p s :
  length s = (length (optional p s).1 + length (optional p s).2)%nat.
Proof. destruct s as [|c s]; [done|]. cbn [optional]. by destruct (p c). Qed.

Lemma parse_chars_shorter_upto n : forall s acc str r,
  (length s <= n)%nat -> parse_chars s acc = POk str r -> (length r < length s)%nat.
Proof.
  induction n as [|n IH]; intros [|c s] acc str r Hn; try done.
  { cbn [length] in Hn. lia. }
  cbn [length] in Hn. cbn [parse_chars].
  destruct (c =? 34). { intros [= _ <-]. cbn [length]. lia. }
  destruct (c =? 92).
  - destruct s as [|e s]; [done|]. destruct (e =? 117).
    + destruct s as [|a [|b [|c0 [|d s]]]]; try done.
      destruct (hex_value a), (hex_value b), (hex_value c0), (hex_value d); try done.
      intros Hp. apply IH in Hp; cbn [length] in *; lia.
    + destruct (escape e); [|done].
      intros Hp. apply IH in Hp; cbn [length] in *; lia.
  - destruct (c <? 32); [done|].
    intros Hp. apply IH in Hp; cbn [length] in *; lia.
Qed.

Lemma parse_chars_shorter s acc str r :
  parse_chars s acc = POk str r -> (length r < length s)%nat.
Proof. by apply (parse_chars_shorter_upto (length s)). Qed.

Lemma parse_number_shorter s l r :
  parse_number s = POk l r -> (length r < length s)%nat.
Proof.
  unfold parse_number.
  pose proof (optional_length (eqc 45) s) as H1.
  destruct (optional (eqc 45) s) as [sign s1]. cbn [fst snd] in H1.
  pose proof (span_digits_length s1) as H2.
  destruct (span_digits s1) as [int s2]. cbn [fst snd] in H2.
  destruct int as [|d ds]; [done|].
  destruct (_ && _); [done|].
  pose proof (optional_length (eqc 46) s2) as H3.
  destruct (optional (eqc 46) s2) as [dot s3]. cbn [fst snd] in H3.
  assert (exists frac s4,
            match dot with [] => ([], s2) | _ :: _ => span_digits s3 end = (frac, s4) /\
            (length s4 <= length s2)%nat) as (frac & s4 & -> & H4).
  { destruct dot.
    - eexists _, _. split; [reflexivity|]. lia.
    - pose proof (span_digits_length s3) as H4.
      destruct (span_digits s3) as [frac s4]. cbn [fst snd] in H4.
      eexists _, _. split; [reflexivity|]. lia. }
  assert (Hgoal : forall res : pres jsstring,
            (let '(e, s5) := optional (fun c => (c =? 101) || (c =? 69)) s4 in
             match e with
             | [] => POk (sign ++ (d :: ds) ++ dot ++ frac) s4
             | _ :: _ =>
                 let '(esign, s6) := optional (fun c => (c =? 43) || (c =? 45)) s5 in
                 let '(x, s7) := span_digits s6 in
                 match x with
                 | [] => PBad
                 | _ :: _ => POk (sign ++ (d :: ds) ++ dot ++ frac ++ e ++ esign ++ x) s7
                 end
             end) = POk l r -> (length r < length s)%nat).
  { intros _.
    pose proof (optional_length (fun c => (c =? 101) || (c =? 69)) s4) as H5.
    destruct (optional _ s4) as [e s5]. cbn [fst snd] in H5.
    destruct e as [|e0 e].
    - intros [= _ <-]. cbn [length] in *. lia.
    - pose proof (optional_length (fun c => (c =? 43) || (c =? 45)) s5) as H6.
      destruct (optional _ s5) as [esign s6]. cbn [fst snd] in H6.
      pose proof (span_digits_length s6) as H7.
      destruct (span_digits s6) as [x s7]. cbn [fst snd] in H7.
      destruct x; [done|]. intros [= _ <-]. cbn [length] in *. lia. }
  destruct dot as [|dt dot]; [exact (Hgoal PBad)|].
  destruct frac; [done|exact (Hgoal PBad)].
Qed.

Lemma expect_shorter w v s v' r :
  js w <> [] -> expect w v s = POk v' r -> (length r < length s)%nat.
Proof.
  unfold expect. intros Hw. destruct (startsWith (js w) s) eqn:E; [|done].
  intros [= _ <-]. apply RegexFacts.startsWith_true in E.
  rewrite E at 2. rewrite length_app. destruct (js w); [done|]. cbn [length]. lia.
Qed.

(** Every parser consumes input. *)
Lemma parse_shorter : forall fuel,
  (forall s v r, parse_value fuel s = POk v r -> (length r < length s)%nat) /\
  (forall s acc v r, parse_members fuel s acc = POk v r -> (length r < length s)%nat) /\
  (forall s acc v r, parse_elements fuel s acc = POk v r -> (length r < length s)%nat).
Proof.
  induction fuel as [|fuel (IHv & IHm & IHe)]; [done|].
  split; [|split].
  - intros s v r. cbn [parse_value].
    pose proof (skip_ws_length s) as Hs.
    destruct (skip_ws s) as [|c s1]; [done|]. cbn [length] in Hs.
    destruct (c =? 123).
    { destruct (next_is 125 s1) as [s2|] eqn:E.
      - intros [= _ <-]. apply next_is_shorter in E. lia.
      - intros Hp%IHm. lia. }
    destruct (c =? 91).
    { destruct (next_is 93 s1) as [s2|] eqn:E.
      - intros [= _ <-]. apply next_is_shorter in E. lia.
      - intros Hp%IHe. lia. }
    destruct (c =? 34).
    { destruct (parse_chars s1 []) as [str s2| |] eqn:E; try done.
      intros [= _ <-]. apply parse_chars_shorter in E. lia. }
    destruct (c =? 116). { intros Hp%expect_shorter; [cbn [length] in Hp; lia|done]. }
    destruct (c =? 102). { intros Hp%expect_shorter; [cbn [length] in Hp; lia|done]. }
    destruct (c =? 110). { intros Hp%expect_shorter; [cbn [length] in Hp; lia|done]. }
    destruct (parse_number (c :: s1)) as [l s2| |] eqn:E; try done.
    intros [= _ <-]. apply parse_number_shorter in E. cbn [length] in E. lia.
  - intros s acc v r. cbn [parse_members].
    destruct (next_is 34 s) as [s1|] eqn:E1; [|done]. apply next_is_shorter in E1.
    destruct (parse_chars s1 []) as [key s2| |] eqn:E2; try done.
    apply parse_chars_shorter in E2.
    destruct (next_is 58 s2) as [s3|] eqn:E3; [|done]. apply next_is_shorter in E3.
    destruct (parse_value fuel s3) as [v1 s4| |] eqn:E4; try done. apply IHv in E4.
    destruct (next_is 44 s4) as [s5|] eqn:E5.
    { apply next_is_shorter in E5. intros Hp%IHm. lia. }
    destruct (next_is 125 s4) as [s5|] eqn:E6; [|done].
    apply next_is_shorter in E6. intros [= _ <-]. lia.
  - intros s acc v r. cbn [parse_elements].
    destruct (parse_value fuel s) as [v1 s1| |] eqn:E1; try done. apply IHv in E1.
    destruct (next_is 44 s1) as [s2|] eqn:E2.
    { apply next_is_shorter in E2. intros Hp%IHe. lia. }
    destruct (next_is 93 s1) as [s2|] eqn:E3; [|done].
    apply next_is_shorter in E3. intros [= _ <-]. lia.
Qed.

Lemma parse_chars_fuel : forall s acc, parse_chars s acc <> PFuel.
Proof.
  intros s. induction s as [s IH] using (induction_ltof1 _ (@length N)).
  unfold ltof in IH. intros acc. destruct s as [|c s]; [done|]. cbn [parse_chars].
  destruct (c =? 34); [done|]. destruct (c =? 92).
  - destruct s as [|e s]; [done|]. destruct (e =? 117).
    + destruct s as [|a [|b [|c0 [|d s]]]]; try done.
      destruct (hex_value a), (hex_value b), (hex_value c0), (hex_value d); try done.
      apply IH. cbn [length]. lia.
    + destruct (escape e); [|done]. apply IH. cbn [length]. lia.
  - destruct (c <? 32); [done|]. apply IH. cbn [length]. lia.
Qed.

Lemma parse_number_fuel s : parse_number s <> PFuel.
Proof.
  unfold parse_number.
  destruct (optional (eqc 45) s) as [sign s1].
  destruct (span_digits s1) as [int s2].
  destruct int as [|d ds]; [done|]. destruct (_ && _); [done|].
  destruct (optional (eqc 46) s2) as [dot s3].
  destruct (match dot with [] => _ | _ => _ end) as [frac s4].
  assert (Hgoal :
            (let '(e, s5) := optional (fun c => (c =? 101) || (c =? 69)) s4 in
             match e with
             | [] => POk (sign ++ (d :: ds) ++ dot ++ frac) s4
             | _ :: _ =>
                 let '(esign, s6) := optional (fun c => (c =? 43) || (c =? 45)) s5 in
                 let '(x, s7) := span_digits s6 in
                 match x with
                 | [] => PBad
                 | _ :: _ => POk (sign ++ (d :: ds) ++ dot ++ frac ++ e ++ esign ++ x) s7
                 end
             end) <> PFuel).
  { destruct (optional _ s4) as [e s5]. destruct e; [done|].
    destruct (optional _ s5) as [esign s6]. destruct (span_digits s6) as [x s7].
    by destruct x. }
  destruct dot; [exact Hgoal|]. destruct frac; [done|exact Hgoal].
Qed.

(** The fuel that [JSON.parse] gives is enough: parsing never stops for
    lack of fuel when the fuel exceeds twice the length of the input. *)
Lemma parse_fuel : forall fuel,
  (forall s, (2 * length s < fuel)%nat -> parse_value fuel s <> PFuel) /\
  (forall s acc, (2 * length s + 1 < fuel)%nat -> parse_members fuel s acc <> PFuel) /\
  (forall s acc, (2 * length s + 1 < fuel)%nat -> parse_elements fuel s acc <> PFuel).
Proof.
  induction fuel as [|fuel (IHv & IHm & IHe)]; [repeat split; intros; lia|].
  destruct (parse_shorter fuel) as (Sv & Sm & Se).
  split; [|split].
  - intros s Hf. cbn [parse_value].
    pose proof (skip_ws_length s) as Hs.
    destruct (skip_ws s) as [|c s1]; [done|]. cbn [length] in Hs.
    destruct (c =? 123).
    { destruct (next_is 125 s1); [done|]. apply IHm. lia. }
    destruct (c =? 91).
    { destruct (next_is 93 s1); [done|]. apply IHe. lia. }
    destruct (c =? 34).
    { pose proof (parse_chars_fuel s1 []). by destruct (parse_chars s1 []). }
    unfold expect.
    destruct (c =? 116). { by destruct (startsWith _ _). }
    destruct (c =? 102). { by destruct (startsWith _ _). }
    destruct (c =? 110). { by destruct (startsWith _ _). }
    pose proof (parse_number_fuel (c :: s1)). by destruct (parse_number (c :: s1)).
  - intros s acc Hf. cbn [parse_members].
    destruct (next_is 34 s) as [s1|] eqn:E1; [|done]. apply next_is_shorter in E1.
    pose proof (parse_chars_fuel s1 []) as Hc.
    destruct (parse_chars s1 []) as [key s2| |] eqn:E2; try done.
    apply parse_chars_shorter in E2.
    destruct (next_is 58 s2) as [s3|] eqn:E3; [|done]. apply next_is_shorter in E3.
    assert (Hv : parse_value fuel s3 <> PFuel) by (apply IHv; lia).
    destruct (parse_value fuel s3) as [v1 s4| |] eqn:E4; try done. apply Sv in E4.
    destruct (next_is 44 s4) as [s5|] eqn:E5.
    { apply next_is_shorter in E5. apply IHm. lia. }
    by destruct (next_is 125 s4).
  - intros s acc Hf. cbn [parse_elements].
    assert (Hv : parse_value fuel s <> PFuel) by (apply IHv; lia).
    destruct (parse_value fuel s) as [v1 s1| |] eqn:E1; try done. apply Sv in E1.
    destruct (next_is 44 s1) as [s2|] eqn:E2.
    { apply next_is_shorter in E2. apply IHe. lia. }
    by destruct (next_is 93 s1).
Qed.

(** [JSON.parse] never runs out of fuel: when it throws, the text is not
    JSON. *)
Lemma parse_total text : parse_value (S (2 * length text)) text <> PFuel.
Proof. apply parse_fuel. lia. Qed.

End JSONFacts.

(** ** The normalizers *)






(** server.ts, on the same reply, returns the object. *)
Example Server_tolerates_prose :
  (Server.processArticle (H := scripted) (js "http://a/b")
     (Scripted.start scripted tt [])).1
  = Returned (Article_value {| title := js "T"; content := js "C";
                               url := js "http://a/b"; date := js "2024-05-01" |}).
Proof. vm_compute. reflexivity. Qed.

(** * Part III: further properties of the code *)

(** ** The URL detector and the span of the normalizers *)

Import RegexFacts.

(** A text that is a scheme followed by units that are not white space,
    and nothing else, is matched whole at its head. *)
Lemma url_here_whole p body :
  url_scheme p -> body <> [] -> Forall (fun c => is_space c = false) body ->
  url_here (p ++ body) = Some (Regex.Hit (p ++ body) [] []).
Proof.
  intros Hp Hne Hall. apply url_here_Some. exists p, body. simpl.
  rewrite app_nil_r. done.
Qed.

(** Property X1: [extractUrlFromQuery] finds the URL it returned again:
    applied to its own result it returns that result, whole.  So a URL
    taken from a query can be put back in a query (or be a query by
    itself) and is detected unchanged. *)
Theorem extractUrlFromQuery_idempotent (q m : jsstring)
    (Hq : extractUrlFromQuery q = Some m) :
  extractUrlFromQuery m = Some m.
Proof.
  revert Hq. unfold extractUrlFromQuery, Regex.str_match, Regex.exec. cbn [fst].
  destruct (Regex.search_from urlRegex q 0) as [f|] eqn:E; [|done].
  apply search_from_Some in E as (j & h & Hj & Hm & -> & _). cbn. intros [= <-].
  rewrite match_here_url in Hm.
  apply url_here_Some in Hm as (p & body & Hp & Hc & _ & _ & Hne & Hall & _).
  rewrite Hc.
  assert (Hw : Regex.match_here urlRegex (p ++ body)
               = Some (Regex.Hit (p ++ body) [] [])).
  { rewrite match_here_url. by apply url_here_whole. }
  destruct (p ++ body) as [|c s] eqn:Es.
  - by destruct p, body.
  - cbn [Regex.search_from]. rewrite Hw. reflexivity.
Qed.

Lemma extractUrlFromQuery_idempotent_witness :
  extractUrlFromQuery (js "read https://a.b/c?d=1, please") = Some (js "https://a.b/c?d=1,")
  /\ extractUrlFromQuery (js "https://a.b/c?d=1,") = Some (js "https://a.b/c?d=1,").
Proof.
  split; [vm_compute; reflexivity|].
  apply (extractUrlFromQuery_idempotent (js "read https://a.b/c?d=1, please")).
  vm_compute. reflexivity.
Defined.

Import SpanFacts.

(** The three shapes of the span: with an opening brace before a closing
    brace it runs from the first opening brace to the last closing brace;
    without, it is empty or a lone closing brace. *)
Lemma json_span_cases text :
  (json_span text = [] \/ json_span text = [125]) \/
  exists pre mid post,
    text = pre ++ 123 :: mid ++ 125 :: post /\ (123 ∉ pre) /\ (125 ∉ post) /\
    json_span text = 123 :: mid ++ [125].
Proof.
  destruct (indexOf_spec 123 text) as [[Hno _]|(pre1 & post1 & E1 & Hpre1 & _)].
  { left. apply json_span_no_span. intros (i & j & _ & Hi & _).
    apply Hno. eapply list_elem_of_lookup_2. exact Hi. }
  destruct (lastIndexOf_spec 125 text) as [[Hno _]|(pre2 & post2 & E2 & Hpost2 & _)].
  { left. apply json_span_no_span. intros (i & j & _ & _ & Hj).
    apply Hno. eapply list_elem_of_lookup_2. exact Hj. }
  destruct (decide (length pre1 < length pre2)%nat) as [Hlt|Hge].
  - right. rewrite E1 in E2.
    apply app_eq_inv in E2 as [(k & Hk1 & Hk2)|(k & Hk1 & Hk2)].
    + subst pre1. rewrite length_app in Hlt. lia.
    + destruct k as [|c k].
      * rewrite app_nil_r in Hk1. subst. lia.
      * injection Hk2 as Hc Hp. subst c post1 pre2. exists pre1, k, post2.
        repeat split; try done. rewrite E1. by apply json_span_tolerant.
  - left. apply json_span_no_span. intros (i & j & Hij & Hi & Hj).
    assert (length pre1 <= i)%nat.
    { destruct (decide (i < length pre1)%nat) as [Hi'|]; [|lia].
      rewrite E1, lookup_app_l in Hi by done.
      apply list_elem_of_lookup_2 in Hi. done. }
    assert (j <= length pre2)%nat.
    { destruct (decide (length pre2 < j)%nat) as [Hj'|]; [|lia].
      rewrite E2 in Hj. rewrite lookup_app_r in Hj by lia.
      destruct (j - length pre2)%nat as [|n] eqn:En; [lia|]. simpl in Hj.
      apply list_elem_of_lookup_2 in Hj. done. }
    lia.
Qed.

(** Property X2: the text that the brace-seeking normalizers hand to
    [JSON.parse] is always one contiguous part of the model's reply; it
    is empty, a lone closing brace, or begins with an opening and ends
    with a closing brace; and cutting it out a second time changes
    nothing. *)
Theorem json_span_is_a_fixed_part (text : jsstring) :
  (exists before after_, text = before ++ json_span text ++ after_) /\
  (json_span text = [] \/ json_span text = [125] \/
   exists mid, json_span text = 123 :: mid ++ [125]) /\
  json_span (json_span text) = json_span text.
Proof.
  destruct (json_span_cases text) as [Hno|(pre & mid & post & E & Hpre & Hpost & Hs)].
  - split; [|split].
    + unfold json_span, slice. cbv zeta.
      set (a := Z.to_nat _). set (b := Z.to_nat _).
      exists (take b text), (drop a (drop b text)).
      by rewrite take_drop, take_drop.
    + destruct Hno; auto.
    + destruct Hno as [-> | ->]; reflexivity.
  - rewrite Hs. split; [|split].
    + exists pre, post. rewrite E. cbn [app]. by rewrite <- app_assoc.
    + right. right. by exists mid.
    + apply (json_span_tolerant [] mid []); apply not_elem_of_nil.
Qed.

(** What the member parser returns is an object. *)
Lemma parse_members_object : forall fuel s acc v r,
  JSON.parse_members fuel s acc = JSON.POk v r -> exists props, v = VObject props.
Proof.
  induction fuel as [|fuel IH]; intros s acc v r; [done|].
  cbn [JSON.parse_members].
  destruct (JSON.next_is 34 s) as [s1|]; [|done].
  destruct (JSON.parse_chars s1 []) as [key s2| |]; [|done..].
  destruct (JSON.next_is 58 s2) as [s3|]; [|done].
  destruct (JSON.parse_value fuel s3) as [x s4| |]; [|done..].
  destruct (JSON.next_is 44 s4) as [s5|].
  - apply IH.
  - destruct (JSON.next_is 125 s4) as [s5|]; [|done]. intros [= <- _]. eauto.
Qed.

(** A text that begins with an opening brace parses to an object or not
    at all. *)
Lemma parse_brace_object s v :
  JSON.parse (123 :: s) = Returned v -> exists props, v = VObject props.
Proof.
  unfold JSON.parse. cbn [JSON.parse_value JSON.skip_ws].
  change (JSON.is_ws 123) with false. cbn iota.
  change (123 =? 123) with true. cbn iota.
  destruct (JSON.next_is 125 s) as [s2|].
  - destruct (JSON.skip_ws s2); [|done]. intros [= <-]. eauto.
  - destruct (JSON.parse_members _ s []) as [x r| |] eqn:E; [|done..].
    destruct (JSON.skip_ws r); [|done]. intros [= <-].
    by apply parse_members_object in E.
Qed.

Lemma parse_span_object text v :
  JSON.parse (json_span text) = Returned v -> exists props, v = VObject props.
Proof.
  destruct (json_span_cases text) as [[-> | ->]|(pre & mid & post & _ & _ & _ & ->)].
  - vm_compute. done.
  - vm_compute. done.
  - apply parse_brace_object.
Qed.

(** ** The endpoint *)

Section EndpointMore.
Context `{Externals}.


Lemma ServiceB_processArticle_object u w article w1 :
  ServiceB.processArticle u w = (Returned article, w1) ->
  exists props, article = VObject props.
Proof.
  unfold ServiceB.processArticle, try_catch, bind, call, lift, ret, throw, console_.
  cbn [outside index console].
  destruct (fetch_text _ _) as [[html|e] x0]; [|done].
  destruct (is_empty html); [done|].
  cbn [outside index console].
  destruct (generateContent _ _ _) as [[r|e] x1]; [|done].
  destruct (response_text r) as [text|e]; [|done].
  destruct (JSON.parse (json_span text)) as [v|e] eqn:Hparse; [|done].
  intros [= <- _]. by apply parse_span_object in Hparse.
Qed.

Lemma bind_unfold {A B} (c : M A) (k : A -> M B) w :
  bind c k w = match c w with
               | (Returned a, w') => k a w'
               | (Threw e, w') => (Threw e, w')
               end.
Proof. reflexivity. Qed.

Lemma get_object k props : get k (VObject props) = Returned (get_opt k (VObject props)).
Proof. reflexivity. Qed.

(** What [processArticle] throws it has logged, as the last line of the
    console, and it has left the index alone. *)
Lemma Server_processArticle_throws u w e w1 :
  Server.processArticle u w = (Threw e, w1) ->
  exists before,
    console w1 = before ++ [(Error, [LText (js "Failed to process article " ++ u ++ js ":");
                                     LExn e])].
Proof.
  unfold Server.processArticle, try_catch.
  destruct (bind _ _ w) as [[v|e0] w0]; [done|].
  unfold bind, console_, throw. intros [= <- <-]. cbn [console]. eauto.
Qed.

End EndpointMore.



(** Property X4: a request without a usable query is answered without
    any call to the outside world.  When the body is [undefined] or
    [null], reading [query] off it throws and the handler answers 500
    after one [console.error] line; for any other body whose [query] is
    missing, not a string, or the empty string, it answers 400 with the
    fixed error message and leaves the world exactly as it was. *)
Theorem agentHandler_unusable_query `{Externals} (req_body : jsval) (w : World) :
  match req_body with
  | VUndefined | VNull =>
      exists e details,
        Server.agentHandler req_body w
        = (Returned {| status := 500;
                       body := VObject [(js "error", VString (js "Processing failed"));
                                        (js "details", VString details)] |},
           {| outside := outside w; index := index w;
              console := console w ++ [(Error, [LText (js "API Error:"); LExn e])] |})
  | _ =>
      match get_opt "query" req_body with
      | VString (_ :: _) => True
      | _ =>
          Server.agentHandler req_body w
          = (Returned {| status := 400;
                         body := VObject
                                   [(js "error",
                                     VString (js "Query is required and must be a string"))] |},
             w)
      end
  end.
Proof.
  destruct req_body as [| |b|l|s|items|props];
    try (eexists _, _; reflexivity); try reflexivity.
  unfold Server.agentHandler, try_catch, bind, lift. rewrite get_object.
  destruct (get_opt "query" (VObject props)) as [| |b|l|[|c q]|items|props']; reflexivity.
Qed.

(** Property X5: when the query contains a URL and [processArticle]
    throws, [agentHandler] answers 500 and hands the message of that very
    error to the client as [details] (['Unknown error'] when what was
    thrown is no [Error]); the error is logged twice, first by
    [processArticle], then by the handler. *)
Theorem agentHandler_reports_url_failure `{Externals} (q u : jsstring) (w w1 : World)
    (e : exn)
    (Hurl : extractUrlFromQuery q = Some u)
    (Hrun : Server.processArticle u w = (Threw e, w1)) :
  Server.agentHandler (VObject [(js "query", VString q)]) w
  = (Returned {| status := 500;
                 body := VObject [(js "error", VString (js "Processing failed"));
                                  (js "details",
                                   VString (match e with
                                            | ErrorObject _ m => m
                                            | ThrownValue _ => js "Unknown error"
                                            end))] |},
     {| outside := outside w1; index := index w1;
        console := console w1 ++ [(Error, [LText (js "API Error:"); LExn e])] |}) /\
  exists before,
    console w1 = before ++ [(Error, [LText (js "Failed to process article " ++ u ++ js ":");
                                     LExn e])].
Proof.
  split; [|by eapply Server_processArticle_throws].
  rewrite (agentHandler_url_branch q u w Hurl).
  unfold try_catch, Server.answer_from_url.
  rewrite (bind_unfold (Server.processArticle u)), Hrun.
  reflexivity.
Qed.

Lemma agentHandler_reports_url_failure_witness :
  let w := Scripted.start sorry_world tt [] in
  let q := js "summarise https://example.com/a" in
  exists m,
    (Server.agentHandler (H := sorry_world) (VObject [(js "query", VString q)]) w).1
    = Returned {| status := 500;
                  body := VObject [(js "error", VString (js "Processing failed"));
                                   (js "details", VString m)] |}.
Proof.
  intros w q.
  destruct (Server.processArticle (H := sorry_world) (js "https://example.com/a") w)
    as [[v|e] w1] eqn:E; [vm_compute in E; discriminate|].
  destruct (agentHandler_reports_url_failure (H := sorry_world) q
              (js "https://example.com/a") w w1 e
              ltac:(vm_compute; reflexivity) E) as [Hr _].
  eexists. rewrite Hr. reflexivity.
Defined.

Section IndexBranch.
Context `{Externals}.

Lemma frames_searchArticles q k : frames_index (searchArticles q k).
Proof. unfold searchArticles. frames. Qed.

Lemma frames_generateResponse q articles :
  frames_index (ServiceB.generateResponse q articles).
Proof. unfold ServiceB.generateResponse. frames. Qed.

Lemma frames_ServiceB_processArticle u : frames_index (ServiceB.processArticle u).
Proof. unfold ServiceB.processArticle. frames. Qed.

(** One article whose [content] is not a string is enough for the
    context block to fail with a [TypeError]. *)
Lemma context_lines_needs_content articles :
  Exists (fun a => forall s, get_opt "content" a <> VString s) articles ->
  exists m, context_lines articles = Threw (ErrorObject TypeError m).
Proof.
  induction articles as [|a articles IH]; intros Hbad.
  - by apply Exists_nil in Hbad.
  - cbn [context_lines].
    destruct (get "title" a) as [t|e] eqn:Et.
    2:{ destruct a; try discriminate; injection Et as <-; eauto. }
    destruct (get "content" a) as [c|e] eqn:Ec.
    2:{ destruct a; try discriminate; injection Ec as <-; eauto. }
    destruct (call_substring0 c 1000) as [sub|e] eqn:Es.
    2:{ destruct c; try discriminate; injection Es as <-; eauto. }
    apply Exists_cons in Hbad as [Hbad|Hbad].
    + exfalso. destruct c; try discriminate.
      destruct a; try discriminate; injection Ec as Ec; by eapply Hbad.
    + destruct (IH Hbad) as [m ->]. eauto.
Qed.

End IndexBranch.

(** Property X6: nothing on the retrieval side writes to the vector
    index: not [agentHandler], for any request body, nor the listener
    that answers queries, nor [searchArticles], nor [generateResponse],
    nor [processArticle] of the second service module (whose
    [storeArticle] nothing calls). *)
Theorem retrieval_code_never_writes `{Externals} (req_body : jsval) (partition : nat)
    (value : option jsstring) (q u : jsstring) (topK : nat) (articles : list Article)
    (w : World) :
  index (Server.agentHandler req_body w).2 = index w /\
  index (QueryConsumer.eachMessage partition value w).2 = index w /\
  index (searchArticles q topK w).2 = index w /\
  index (ServiceB.generateResponse q articles w).2 = index w /\
  index (ServiceB.processArticle u w).2 = index w.
Proof.
  split; [apply frames_agentHandler|].
  split; [apply frames_query_eachMessage|].
  split; [apply frames_searchArticles|].
  split; [apply frames_generateResponse | apply frames_ServiceB_processArticle].
Qed.

(** Property X7: [searchArticles] passes on a match whose metadata has no
    string [content], but the search branch of [agentHandler] does not
    survive it: building the context calls [a.content.substring], which
    throws a [TypeError]; the handler answers 500 with the message of
    that error, and the model is never called (the outside world is as
    the search left it). *)
Theorem index_branch_needs_content `{Externals} (q : jsstring) (w w1 : World)
    (articles : list jsval)
    (Hq : is_empty q = false) (Hno : extractUrlFromQuery q = None)
    (Hsearch : searchArticles q 3 w = (Returned articles, w1))
    (Hbad : Exists (fun a => forall s, get_opt "content" a <> VString s) articles) :
  exists m,
    Server.agentHandler (VObject [(js "query", VString q)]) w
    = (Returned {| status := 500;
                   body := VObject [(js "error", VString (js "Processing failed"));
                                    (js "details", VString m)] |},
       {| outside := outside w1; index := index w1;
          console := console w1
            ++ [(Error, [LText (js "API Error:"); LExn (ErrorObject TypeError m)])] |}).
Proof.
  destruct (context_lines_needs_content articles Hbad) as [m Hm]. exists m.
  rewrite (agentHandler_index_branch q w Hq Hno).
  unfold try_catch, Server.answer_from_index.
  rewrite (bind_unfold (searchArticles q 3)), Hsearch.
  rewrite (bind_unfold (lift (context_lines articles))). unfold lift at 1.
  rewrite Hm. reflexivity.
Qed.

Lemma index_branch_needs_content_witness :
  let w := Scripted.start citing_world tt
             [(js "a", ([], VObject [(js "title", VString (js "One"));
                                     (js "url", VString (js "http://n/1"))]))] in
  exists m,
    (Server.agentHandler (H := citing_world)
       (VObject [(js "query", VString (js "latest on topic X"))]) w).1
    = Returned {| status := 500;
                  body := VObject [(js "error", VString (js "Processing failed"));
                                   (js "details", VString m)] |}.
Proof.
  intros w.
  destruct (searchArticles (H := citing_world) (js "latest on topic X") 3 w)
    as [[articles|e] w1] eqn:E; [|vm_compute in E; discriminate].
  destruct (index_branch_needs_content (H := citing_world) (js "latest on topic X")
              w w1 articles ltac:(vm_compute; reflexivity) ltac:(vm_compute; reflexivity) E)
    as [m Hm].
  { vm_compute in E. injection E as <- _. apply Exists_cons_hd. intros s. discriminate. }
  exists m. rewrite Hm. reflexivity.
Defined.

(** ** The ingesting listener *)

Section ListenerMore.
Context `{Externals}.

(** The record a successful [ingest] writes: the object parsed from the
    model's reply, whose [content] is a string, under the id of the
    message URL. *)
Lemma ingest_record (u : jsstring) (w : World) :
  match IngestConsumer.ingest u w with
  | (Returned _, w') =>
      exists v text props c,
        JSON.parse (json_span text) = Returned (VObject props) /\
        assoc (js "content") props = Some (VString c) /\
        index w' = <[ articleId u := (v, VObject props) ]> (index w)
  | (Threw _, w') => index w' = index w
  end.
Proof.
  unfold IngestConsumer.ingest, bind, call, upsert, console_, throw, lift, ret.
  cbn [outside index console].
  destruct (fetch_text _ _) as [[html|e] x0]; [|done].
  destruct (is_empty html); [done|].
  cbn [outside index console].
  destruct (generateContent _ _ _) as [[r|e] x1]; [|done].
  destruct (response_text r) as [text|e]; [|done].
  destruct (JSON.parse (json_span text)) as [article|e] eqn:Hparse; [|done].
  destruct (parse_span_object _ _ Hparse) as [props ->].
  rewrite !get_object.
  destruct (call_substring0 _ 1000) as [sub|e] eqn:Hsub; [|done].
  cbn [outside index console].
  destruct (embedContent _ _ _) as [[v|e] x2]; [|done].
  cbn [outside index console].
  destruct (upsert_refused _ _) as [[e|] x3]; [done|].
  cbn [outside index console foldl fst snd].
  cbn [get_opt] in Hsub.
  destruct (assoc (js "content") props) as [[| | | |c| |]|] eqn:Hc; try discriminate.
  exists v, text, props, c. done.
Qed.

Lemma console_unfold l args w :
  console_ l args w
  = (Returned tt,
     {| outside := outside w; index := index w; console := console w ++ [(l, args)] |}).
Proof. reflexivity. Qed.

Lemma ingest_eachMessage_index partition u w :
  index (IngestConsumer.eachMessage partition (Some u) w).2 = index w \/
  exists r, index (IngestConsumer.eachMessage partition (Some u) w).2
            = <[ articleId u := r ]> (index w).
Proof.
  unfold IngestConsumer.eachMessage.
  destruct (_ || _); [by left|].
  rewrite bind_unfold, console_unfold. unfold try_catch.
  set (w0 := {| outside := outside w; index := index w; console := _ |}).
  pose proof (ingest_record u w0) as Hi.
  destruct (IngestConsumer.ingest u w0) as [[[]|e] w1].
  - right. cbn [snd]. destruct Hi as (v & text & props & c & _ & _ & ->). eauto.
  - left. unfold IngestConsumer.on_error, console_. cbn [snd index]. exact Hi.
Qed.

End ListenerMore.

(** Property X8: a message to the ingesting listener can change at most
    the record under the id of its own URL; every other record of the
    index stays as it was.  A message without a value, or whose value
    does not begin with [http] (the empty string included), changes
    nothing but the console, which gets one warning: nothing is fetched,
    no model is called, nothing is stored. *)
Theorem eachMessage_touches_one_record `{Externals} (partition : nat)
    (value : option jsstring) (w : World) :
  let w' := (IngestConsumer.eachMessage partition value w).2 in
  (forall id, (forall u, value = Some u -> id <> articleId u) ->
              index w' !! id = index w !! id) /\
  (match value with
   | Some u => startsWith (js "http") u = false
   | None => True
   end ->
   w' = {| outside := outside w; index := index w;
           console := console w
             ++ [(Warn, [LText (js "Invalid URL in message [Partition "
                                ++ decimal partition ++ js "]")])] |}).
Proof.
  intros w'. subst w'. split.
  - intros id Hid. destruct value as [u|]; [|reflexivity].
    destruct (ingest_eachMessage_index partition u w) as [-> | [r ->]]; [done|].
    apply lookup_insert_ne. intros Heq. by apply (Hid u).
  - destruct value as [u|]; [|reflexivity].
    intros Hu. unfold IngestConsumer.eachMessage. rewrite Hu.
    by rewrite orb_true_r.
Qed.

(** Property X9: the listener stores the model's reply as it is.  When
    the page is fetched and the span of the model's reply parses to an
    object whose [content] is a string (and whose [title] is no object
    itself), [ingest] succeeds exactly when the embedding call answers
    and the store accepts the write, and what it then stores, under the
    id of the message URL, is that object: nothing is truncated, nothing
    else is checked.  Otherwise it throws what the embedding call or the
    store threw and leaves the index alone. *)
Theorem ingest_keeps_reply_as_metadata `{Externals} (u : jsstring) (w : World)
    (html : jsstring) (x0 x1 : ext_state) (r : response) (text : jsstring)
    (props : list (jsstring * jsval)) (c : jsstring)
    (Hfetch : fetch_text u (outside w) = (Returned html, x0))
    (Hhtml : is_empty html = false)
    (Hgen : generateContent "gemini-2.5-pro-exp-03-25"
              (IngestConsumer.prompt_for u html) x0 = (Returned r, x1))
    (Htext : response_text r = Returned text)
    (Hparse : JSON.parse (json_span text) = Returned (VObject props))
    (Hcontent : assoc (js "content") props = Some (VString c))
    (Htitle : primitive (get_opt "title" (VObject props)) = true) :
  match embedContent "gemini-embedding-exp-03-07"
          (ToString (get_opt "title" (VObject props)) ++ nl ++ substring0 1000 c) x1 with
  | (Returned v, x2) =>
      match upsert_refused [(articleId u, v, VObject props)] x2 with
      | (None, _) =>
          exists w',
            IngestConsumer.ingest u w = (Returned tt, w') /\
            index w' = <[ articleId u := (v, VObject props) ]> (index w) /\
            index w' !! articleId u = Some (v, VObject props)
      | (Some e, _) =>
          exists w', IngestConsumer.ingest u w = (Threw e, w') /\ index w' = index w
      end
  | (Threw e, _) =>
      exists w', IngestConsumer.ingest u w = (Threw e, w') /\ index w' = index w
  end.
Proof.
  unfold IngestConsumer.ingest, bind, call, upsert, console_, throw, lift, ret.
  cbn [outside index console]. rewrite Hfetch, Hhtml. cbn [outside index console].
  fold (IngestConsumer.prompt_for u html). rewrite Hgen, Htext, Hparse.
  cbn [get get_opt] in *. rewrite Hcontent. cbn [call_substring0 outside index console].
  destruct (embedContent _ _ _) as [[v|e] x2]; [|eauto].
  cbn [outside index console].
  change (substring0 64 (base64 (utf8 u))) with (articleId u).
  destruct (upsert_refused _ _) as [[e|] x3]; [eauto|].
  cbn [outside index console foldl fst snd].
  eexists. split; [reflexivity|]. split; [reflexivity|]. apply lookup_insert_eq.
Qed.

Lemma ingest_keeps_reply_as_metadata_witness :
  exists w',
    IngestConsumer.ingest (H := scripted) (js "http://a/b") (Scripted.start scripted tt [])
      = (Returned tt, w') /\
    index w' !! articleId (js "http://a/b")
    = Some (js "T" ++ nl ++ js "C",
            VObject [(js "title", VString (js "T")); (js "content", VString (js "C"));
                     (js "url", VString (js "http://a/b"));
                     (js "date", VString (js "2024-05-01"))]).
Proof.
  destruct (ingest_keeps_reply_as_metadata (H := scripted) (js "http://a/b")
              (Scripted.start scripted tt []) (js "Some page text") tt tt
              (jsq "Sure! {'title': 'T', 'content': 'C', 'url': 'http://a/b', 'date': '2024-05-01'} Done.")
              (jsq "Sure! {'title': 'T', 'content': 'C', 'url': 'http://a/b', 'date': '2024-05-01'} Done.")
              [(js "title", VString (js "T")); (js "content", VString (js "C"));
               (js "url", VString (js "http://a/b")); (js "date", VString (js "2024-05-01"))]
              (js "C")
              eq_refl ltac:(vm_compute; reflexivity) eq_refl eq_refl
              ltac:(vm_compute; reflexivity) ltac:(vm_compute; reflexivity) eq_refl)
    as (w' & Hrun & _ & Hlook).
  exists w'. split; [exact Hrun|exact Hlook].
Defined.

(** Property X10: two URLs whose UTF-8 encodings agree on the first 48
    bytes share one record.  When the first has been ingested and the
    second is ingested too, the record of the second (the object parsed
    from the reply about the second page, with its embedding) replaces
    the record of the first: the index is as if only the second had been
    ingested, looking up the id of the first URL gives the second
    record, and the ids are those that were there after the first. *)
Theorem ingest_same_id_replaces `{Externals} (u1 u2 : jsstring) (w w1 : World)
    (html : jsstring) (x0 x1 x2 x3 : ext_state) (r : response) (text : jsstring)
    (props : list (jsstring * jsval)) (c : jsstring) (v : vector)
    (Hsame : take 48 (utf8 u1) = take 48 (utf8 u2))
    (Hfirst : IngestConsumer.ingest u1 w = (Returned tt, w1))
    (Hfetch : fetch_text u2 (outside w1) = (Returned html, x0))
    (Hhtml : is_empty html = false)
    (Hgen : generateContent "gemini-2.5-pro-exp-03-25"
              (IngestConsumer.prompt_for u2 html) x0 = (Returned r, x1))
    (Htext : response_text r = Returned text)
    (Hparse : JSON.parse (json_span text) = Returned (VObject props))
    (Hcontent : assoc (js "content") props = Some (VString c))
    (Htitle : primitive (get_opt "title" (VObject props)) = true)
    (Hembed : embedContent "gemini-embedding-exp-03-07"
                (ToString (get_opt "title" (VObject props)) ++ nl ++ substring0 1000 c) x1
              = (Returned v, x2))
    (Hstore : upsert_refused [(articleId u2, v, VObject props)] x2 = (None, x3)) :
  exists w2,
    IngestConsumer.ingest u2 w1 = (Returned tt, w2) /\
    index w2 = <[ articleId u2 := (v, VObject props) ]> (index w) /\
    index w2 !! articleId u1 = Some (v, VObject props) /\
    dom (index w2) = dom (index w1).
Proof.
  apply Base64Facts.articleId_eq in Hsame.
  pose proof (ingest_record u1 w) as H1. rewrite Hfirst in H1.
  destruct H1 as (v1 & t1 & p1 & c1 & _ & _ & E1).
  destruct (ingest_succeeds u2 w1 html x0 x1 x2 x3 r text props c v
              Hfetch Hhtml Hgen Htext Hparse Hcontent Hembed Hstore) as (w2 & Hrun & E2).
  exists w2. split; [exact Hrun|]. rewrite E2, E1, Hsame. split; [|split].
  - apply insert_insert_eq.
  - apply lookup_insert_eq.
  - rewrite !dom_insert_L. by rewrite (assoc_L (∪)), union_idemp_L.
Qed.

Lemma ingest_same_id_replaces_witness :
  let u1 := js "https://www.example.com/news/2024/05/01/politics/first-story" in
  let u2 := js "https://www.example.com/news/2024/05/01/politics/second-story" in
  let w := Scripted.start two_replies_world tt [] in
  u1 <> u2 /\
  exists w1 w2,
    IngestConsumer.ingest (H := two_replies_world) u1 w = (Returned tt, w1) /\
    index w1 !! articleId u1
    = Some (js "Firs", VObject [(js "title", VString (js "First"));
                                (js "content", VString (js "C1"))]) /\
    IngestConsumer.ingest (H := two_replies_world) u2 w1 = (Returned tt, w2) /\
    index w2 !! articleId u1
    = Some (js "Seco", VObject [(js "title", VString (js "Second"));
                                (js "content", VString (js "C2"))]).
Proof.
  intros u1 u2 w. split; [intros E; vm_compute in E; discriminate|].
  destruct (ingest_succeeds (H := two_replies_world) u1 w (js "Some page text") tt tt tt tt
              (jsq "{'title': 'First', 'content': 'C1'}")
              (jsq "{'title': 'First', 'content': 'C1'}")
              [(js "title", VString (js "First")); (js "content", VString (js "C1"))]
              (js "C1") (js "Firs")
              eq_refl ltac:(vm_compute; reflexivity) ltac:(vm_compute; reflexivity) eq_refl
              ltac:(vm_compute; reflexivity) ltac:(vm_compute; reflexivity)
              ltac:(vm_compute; reflexivity) eq_refl) as (w1 & Hrun1 & Hidx1).
  destruct (ingest_same_id_replaces (H := two_replies_world) u1 u2 w w1
              (js "Some page text") (outside w1) (outside w1) (outside w1) (outside w1)
              (jsq "{'title': 'Second', 'content': 'C2'}")
              (jsq "{'title': 'Second', 'content': 'C2'}")
              [(js "title", VString (js "Second")); (js "content", VString (js "C2"))]
              (js "C2") (js "Seco")
              ltac:(vm_compute; reflexivity) Hrun1
              eq_refl ltac:(vm_compute; reflexivity) ltac:(vm_compute; reflexivity) eq_refl
              ltac:(vm_compute; reflexivity) ltac:(vm_compute; reflexivity)
              ltac:(vm_compute; reflexivity) ltac:(vm_compute; reflexivity) eq_refl)
    as (w2 & Hrun2 & _ & Hlook & _).
  exists w1, w2. split; [exact Hrun1|]. split.
  - rewrite Hidx1. apply lookup_insert_eq.
  - split; [exact Hrun2|exact Hlook].
Defined.

(** ** The service modules *)

(** Property X12: [storeArticle] of the first service module, given
    anything whose [content] is not a string (no [content] at all,
    [undefined], [null] included), fails before it calls the embedding
    model: the [TypeError] of the property read is caught by the [catch]
    block meant for the embedding call, so what is thrown is
    ['Failed to generate embeddings.']; two error lines are logged and
    neither the index nor the outside world changes. *)
Theorem ServiceA_storeArticle_needs_content `{Externals} (article : jsval) (w : World)
    (Hbad : forall s, get_opt "content" article <> VString s) :
  exists e0,
    ServiceA.storeArticle article w
    = (Threw (ErrorObject Error_ (js "Failed to generate embeddings.")),
       {| outside := outside w; index := index w;
          console := console w
            ++ [(Error, [LText (js "Error generating embeddings with Gemini:");
                         LExn e0]);
                (Error, [LText (js "Error storing article in Pinecone:");
                         LExn (ErrorObject Error_
                                 (js "Failed to generate embeddings."))])] |}).
Proof.
  unfold ServiceA.storeArticle, try_catch, bind, call, lift, console_, throw.
  cbn [outside index console].
  destruct (get "title" article) as [t|e] eqn:Et.
  2:{ exists e. cbn [outside index console]. by rewrite <- app_assoc. }
  destruct (get "content" article) as [c|e] eqn:Ec.
  2:{ exists e. cbn [outside index console]. by rewrite <- app_assoc. }
  destruct (call_substring0 c 1000) as [sub|e] eqn:Es.
  2:{ exists e. cbn [outside index console]. by rewrite <- app_assoc. }
  exfalso. destruct c; try discriminate.
  destruct article; try discriminate; injection Ec as Ec; by eapply Hbad.
Qed.

Lemma ServiceA_storeArticle_needs_content_witness :
  exists w',
    ServiceA.storeArticle (H := scripted)
      (VObject [(js "title", VString (js "T")); (js "url", VString (js "http://a/b"))])
      (Scripted.start scripted tt [])
    = (Threw (ErrorObject Error_ (js "Failed to generate embeddings.")), w') /\
    index w' = ∅ /\
    List.map fst (console w') = [Error; Error].
Proof.
  destruct (ServiceA_storeArticle_needs_content (H := scripted)
              (VObject [(js "title", VString (js "T"));
                        (js "url", VString (js "http://a/b"))])
              (Scripted.start scripted tt [])) as [e0 He].
  { intros s. discriminate. }
  eexists. split; [exact He|]. split; reflexivity.
Defined.



Import RegexFacts CiteFacts.

(** Every article the loop adds is the first candidate with its URL. *)
Lemma cite_loop_first answer_ articles :
  forall fuel lastIndex sources_ usedUrls lastIndex' sources' usedUrls',
  ServiceB.cite_loop fuel answer_ articles lastIndex sources_ usedUrls
    = Some (lastIndex', sources', usedUrls') ->
  exists added, sources' = sources_ ++ added /\
    forall a, a ∈ added ->
      List.find (fun b => jsstring_eqb (url b) (url a)) articles = Some a.
Proof.
  induction fuel as [|fuel IH]; intros li srcs used li' srcs' used'; [done|].
  cbn [ServiceB.cite_loop].
  destruct (Regex.exec ServiceB.sourceRegex true li answer_) as [[m|] li1] eqn:E.
  - destruct (bool_decide _); [by apply IH|].
    destruct (find _ _) as [a|] eqn:Hfind; [|by apply IH].
    intros (added & -> & Hadded)%IH.
    exists (a :: added). rewrite <- (assoc_L (++)). split; [done|].
    intros b [->|Hb]%elem_of_cons; [|by apply Hadded].
    pose proof (find_url_Some _ _ _ Hfind) as [_ Hurl]. by rewrite Hurl.
  - intros [= <- <- <-]. exists []. rewrite app_nil_r.
    split; [done|]. by intros a ?%elem_of_nil.
Qed.

(** Property X14: the sources that [generateResponse] extracts are
    never more than the candidates; each source is the first candidate
    with its URL (of two candidates with the same URL the second is never
    returned); and without candidates there are no sources, whatever
    the answer cites. *)
Theorem cited_sources_bounded (answer_ : jsstring) (articles : list Article) :
  (length (ServiceB.cited answer_ articles) <= length articles)%nat /\
  (forall a, a ∈ ServiceB.cited answer_ articles ->
     List.find (fun b => jsstring_eqb (url b) (url a)) articles = Some a) /\
  ServiceB.cited answer_ [] = [].
Proof.
  assert (Hlen : forall arts,
            (length (ServiceB.cited answer_ arts) <= length arts)%nat).
  { intros arts.
    destruct (cite_loop_terminates answer_ arts) as [[[li srcs] used] E].
    destruct (cite_loop_spec _ _ _ _ _ _ _ _ _ E) as (_ & (added & -> & Hadded) & Hinv).
    destruct Hinv as [Hnd _]; [split; [constructor | by intros a ?%elem_of_nil]|].
    unfold ServiceB.cited. rewrite E. cbn [app] in *.
    rewrite <- (length_map url added), <- (length_map url arts).
    apply submseteq_length, NoDup_submseteq; [done|].
    intros x (a & -> & Ha)%list_elem_of_fmap. apply list_elem_of_fmap.
    exists a. split; [done|]. by apply Hadded. }
  split; [apply Hlen|]. split.
  - destruct (cite_loop_terminates answer_ articles) as [[[li srcs] used] E].
    destruct (cite_loop_first _ _ _ _ _ _ _ _ _ E) as (added & -> & Hadded).
    unfold ServiceB.cited. rewrite E. exact Hadded.
  - specialize (Hlen []). by destruct (ServiceB.cited answer_ []); [|simpl in Hlen; lia].
Qed.

Import RegexFacts CiteFacts.

Section FirstCitation.
Import Regex.

(** A captured class that excludes the unit that must follow it takes
    its longest run. *)
Lemma match_here_group_longest c r s :
  match_here (Group (Many1 (neqc c)) :: Plain (One (eqc c)) :: r) s =
    match span_while (neqc c) s with
    | ([], _) => None
    | (run, s') =>
        match match_here (Plain (One (eqc c)) :: r) s' with
        | Some h => Some (Hit (run ++ consumed h) (run :: groups h) (rest h))
        | None => None
        end
    end.
Proof.
  change (match_here (Group (Many1 (neqc c)) :: Plain (One (eqc c)) :: r) s)
    with (many1 (neqc c)
            (fun taken s' =>
               match match_here (Plain (One (eqc c)) :: r) s' with
               | Some h => Some (Hit (taken ++ consumed h) (taken :: groups h) (rest h))
               | None => None
               end) [] s).
  rewrite many1_longest.
  - by destruct (span_while (neqc c) s) as [[|d run] s'].
  - right. intros t d r' Hd. rewrite match_here_one.
    unfold neqc in Hd. by destruct (d =? c).
Qed.

Lemma span_while_neqc c run s :
  (c ∉ run) -> span_while (neqc c) (run ++ c :: s) = (run, c :: s).
Proof.
  intros Hrun. apply span_while_unique.
  - apply Forall_forall. intros d Hd. unfold neqc.
    destruct (N.eqb_spec d c) as [->|]; [done|done].
  - simpl. unfold neqc. by rewrite N.eqb_refl.
Qed.

(** A well-formed citation at the head of the text is matched, with its
    label and its URL as the two groups. *)
Lemma match_here_source_intro label u post :
  label <> [] -> (93 ∉ label) -> u <> [] -> (41 ∉ u) ->
  match_here ServiceB.sourceRegex ([91] ++ label ++ [93; 40] ++ u ++ [41] ++ post)
  = Some (Hit ([91] ++ label ++ [93; 40] ++ u ++ [41]) [label; u] post).
Proof.
  intros Hl Hl' Hu Hu'. unfold ServiceB.sourceRegex. cbn [app].
  rewrite match_here_one, N.eqb_refl.
  rewrite match_here_group_longest, span_while_neqc by done.
  destruct label as [|l0 label]; [done|].
  rewrite match_here_one, N.eqb_refl.
  rewrite match_here_one, N.eqb_refl.
  rewrite match_here_group_longest, span_while_neqc by done.
  destruct u as [|u0 u]; [done|].
  rewrite match_here_one, N.eqb_refl. cbn [match_here consumed groups rest].
  reflexivity.
Qed.

Lemma search_from_skip (pre s : jsstring) : (91 ∉ pre) -> forall i,
  search_from ServiceB.sourceRegex (pre ++ s) i
  = search_from ServiceB.sourceRegex s (i + length pre).
Proof.
  induction pre as [|c pre IH]; intros Hpre i.
  - cbn [app length]. by rewrite Nat.add_0_r.
  - apply not_elem_of_cons in Hpre as [Hc Hpre].
    cbn [app search_from length]. unfold ServiceB.sourceRegex at 1.
    rewrite match_here_one.
    destruct (N.eqb_spec c 91) as [->|_]; [done|].
    rewrite IH by done. f_equal. lia.
Qed.

End FirstCitation.

(** Property X15: when the first opening bracket of the answer opens a
    well-formed citation [[label](url)] (a non-empty label without
    closing bracket, a non-empty URL without closing parenthesis) and a
    candidate has that URL, then the first such candidate is the first
    source. *)
Theorem first_citation_is_first_source (pre label u post : jsstring)
    (articles : list Article) (a : Article)
    (Hpre : 91 ∉ pre)
    (Hlabel : label <> []) (Hlabel' : 93 ∉ label)
    (Hu : u <> []) (Hu' : 41 ∉ u)
    (Hfind : List.find (fun b => jsstring_eqb (url b) u) articles = Some a) :
  exists more,
    ServiceB.cited (pre ++ [91] ++ label ++ [93; 40] ++ u ++ [41] ++ post) articles
    = a :: more.
Proof.
  set (cite := [91] ++ label ++ [93; 40] ++ u ++ [41]).
  set (answer_ := pre ++ [91] ++ label ++ [93; 40] ++ u ++ [41] ++ post).
  assert (Hexec : Regex.exec ServiceB.sourceRegex true 0 answer_
                  = (Some (Regex.Found (length pre) cite [label; u]
                             (length pre + length cite)),
                     (length pre + length cite)%nat)).
  { unfold Regex.exec. cbn [Nat.ltb Nat.leb]. rewrite drop_0. unfold answer_.
    rewrite search_from_skip by done.
    destruct ([91] ++ label ++ [93; 40] ++ u ++ [41] ++ post) as [|c s] eqn:Es;
      [done|].
    cbn [Regex.search_from]. rewrite <- Es.
    rewrite match_here_source_intro by done. reflexivity. }
  unfold ServiceB.cited. cbn [ServiceB.cite_loop]. rewrite Hexec.
  cbn [Regex.group nth]. rewrite bool_decide_eq_false_2 by set_solver.
  rewrite Hfind.
  destruct (cite_loop_terminates_from answer_ articles (length answer_)
              (length pre + length cite) ([] ++ [a]) ({[u]} ∪ ∅)) as [[[li srcs] used] E].
  { unfold answer_, cite. rewrite !length_app. simpl. lia. }
  rewrite E.
  destruct (cite_loop_spec _ _ _ _ _ _ _ _ _ E) as (_ & (added & -> & _) & _).
  by exists added.
Qed.

Lemma first_citation_is_first_source_witness :
  exists more,
    ServiceB.cited (js "X happened [One](http://n/1), then [Two](http://n/2).")
      Scripted.three_articles
    = {| title := js "One"; content := js "c1"; url := js "http://n/1";
         date := js "2024-01-01" |} :: more.
Proof.
  apply (first_citation_is_first_source (js "X happened ") (js "One") (js "http://n/1")
           (js ", then [Two](http://n/2).") Scripted.three_articles).
  - vm_compute. intros Hin. by repeat (apply elem_of_cons in Hin as [Hin|Hin]; [done|]);
      apply elem_of_nil in Hin.
  - done.
  - vm_compute. intros Hin. by repeat (apply elem_of_cons in Hin as [Hin|Hin]; [done|]);
      apply elem_of_nil in Hin.
  - done.
  - vm_compute. intros Hin. by repeat (apply elem_of_cons in Hin as [Hin|Hin]; [done|]);
      apply elem_of_nil in Hin.
  - vm_compute. reflexivity.
Defined.

(** ** Ids and prompt text *)

Import Base64Facts.

Lemma b64_char_is_b64 i : is_b64 (b64_char i) = true.
Proof.
  unfold b64_char, is_b64.
  destruct (N.ltb_spec i 26);
    [|destruct (N.ltb_spec i 52);
      [|destruct (N.ltb_spec i 62); [|destruct (N.eqb_spec i 62)]]];
  repeat match goal with
  | |- context [N.leb ?a ?b] => destruct (N.leb_spec a b)
  | |- context [N.eqb ?a ?b] => destruct (N.eqb_spec a b)
  end; try reflexivity; lia.
Qed.

Lemma b64_char_no_pad i : b64_char i <> b64_pad.
Proof.
  unfold b64_char, b64_pad.
  destruct (N.ltb_spec i 26); [lia|].
  destruct (N.ltb_spec i 52); [lia|].
  destruct (N.ltb_spec i 62); [lia|].
  destruct (N.eqb_spec i 62); lia.
Qed.

Lemma base64_is_b64 : forall bs, Forall (fun c => is_b64 c = true) (base64 bs).
Proof.
  induction bs as [| | |a b c r IH] using list_ind3; cbn [base64];
    repeat (constructor; [apply b64_char_is_b64 || reflexivity|]); [constructor..|done].
Qed.

Lemma base64_length : forall bs, length (base64 bs) = (4 * ((length bs + 2) / 3))%nat.
Proof.
  induction bs as [| | |a b c r IH] using list_ind3; [reflexivity..|].
  cbn [base64 length]. rewrite IH.
  replace (S (S (S (length r))) + 2)%nat with ((length r + 2) + 1 * 3)%nat by lia.
  rewrite Nat.div_add by lia. lia.
Qed.

(** Text made of whole groups of three bytes carries no padding. *)
Lemma base64_whole_groups k : forall bs,
  length bs = (3 * k)%nat -> b64_pad ∉ base64 bs.
Proof.
  induction k as [|k IH]; intros bs Hlen.
  - destruct bs; [apply not_elem_of_nil|simpl in Hlen; lia].
  - destruct bs as [|a [|b [|c r]]]; try (simpl in Hlen; lia).
    cbn [base64]. rewrite !not_elem_of_cons.
    repeat split; try (apply not_eq_sym, b64_char_no_pad).
    apply IH. simpl in Hlen. lia.
Qed.

(** Property X16: the id of a vector is base64 text of at most 64
    characters: four characters for every three bytes, begun or whole,
    of the first 48 bytes of the URL's UTF-8 encoding.  It is empty only
    for the empty URL, and for a URL of 48 bytes or more it has exactly
    64 characters and no padding. *)
Theorem articleId_is_short_base64 (u : jsstring) :
  length (articleId u) = (4 * ((Nat.min 48 (length (utf8 u)) + 2) / 3))%nat /\
  (length (articleId u) <= 64)%nat /\
  Forall (fun c => is_b64 c = true) (articleId u) /\
  (articleId u = [] <-> u = []) /\
  ((48 <= length (utf8 u))%nat ->
   length (articleId u) = 64%nat /\ (b64_pad ∉ articleId u)).
Proof.
  rewrite articleId_48.
  assert (Hlen : length (base64 (take 48 (utf8 u)))
                 = (4 * ((Nat.min 48 (length (utf8 u)) + 2) / 3))%nat)
    by (by rewrite base64_length, length_take).
  split; [exact Hlen|]. split; [|split; [apply base64_is_b64|split]].
  - rewrite Hlen.
    assert (Hq : ((Nat.min 48 (length (utf8 u)) + 2) / 3 < 17)%nat)
      by (apply Nat.Div0.div_lt_upper_bound; lia).
    revert Hq. generalize ((Nat.min 48 (length (utf8 u)) + 2) / 3)%nat. intros. lia.
  - split.
    + intros He. destruct u as [|c u]; [done|]. exfalso.
      assert (Hu : utf8 (c :: u) <> []).
      { cbn [utf8]. destruct (c <? 128); [done|]. destruct (c <? 2048); [done|].
        destruct (is_high_surrogate c).
        - destruct u as [|d u]; [done|]. by destruct (is_low_surrogate d).
        - by destruct (is_low_surrogate c). }
      destruct (utf8 (c :: u)) as [|a [|b [|c' r]]]; done.
    + by intros ->.
  - intros Hge. rewrite Hlen. rewrite Nat.min_l by lia. split; [reflexivity|].
    apply (base64_whole_groups 16). rewrite length_take. lia.
Qed.

Lemma articleId_is_short_base64_witness :
  length (articleId (js "https://example.com/news/2024/05/01/a-long-headline-about-x"))
  = 64%nat /\
  (b64_pad ∉ articleId (js "https://example.com/news/2024/05/01/a-long-headline-about-x")).
Proof.
  apply (articleId_is_short_base64
           (js "https://example.com/news/2024/05/01/a-long-headline-about-x")).
  vm_compute. lia.
Defined.

Lemma collapse_single_spaced : forall s in_run,
  single_spaced in_run (collapse_spaces s in_run) = true.
Proof.
  induction s as [|c s IH]; intros in_run; [done|]. cbn [collapse_spaces].
  destruct (is_space c) eqn:Hc.
  - destruct in_run; [apply IH|]. cbn [single_spaced].
    change (is_space 32) with true. cbn iota. by rewrite IH.
  - cbn [single_spaced]. rewrite Hc. apply IH.
Qed.

Lemma collapse_length : forall s in_run,
  (length (collapse_spaces s in_run) <= length s)%nat.
Proof.
  induction s as [|c s IH]; intros in_run; [done|]. cbn [collapse_spaces].
  destruct (is_space c); [destruct in_run|]; cbn [length];
    [pose proof (IH true) | pose proof (IH true) | pose proof (IH false)]; lia.
Qed.

Lemma single_spaced_weaken s : single_spaced true s = true -> single_spaced false s = true.
Proof.
  destruct s as [|c s]; [done|]. cbn [single_spaced].
  destruct (is_space c); [|done]. by rewrite andb_false_r.
Qed.

Lemma single_spaced_prefix : forall s t b,
  single_spaced b (s ++ t) = true -> single_spaced b s = true.
Proof.
  induction s as [|c s IH]; intros t b; [done|]. cbn [app single_spaced].
  destruct (is_space c).
  - intros [Hc Hs]%andb_prop. rewrite Hc. by apply IH in Hs.
  - apply IH.
Qed.

(** [trim_start] drops white space and stops at the first unit that is
    not white space. *)
Lemma trim_start_spec s :
  exists ws, s = ws ++ trim_start s /\ Forall (fun c => is_space c = true) ws /\
             stops is_space (trim_start s).
Proof.
  induction s as [|c s (ws & Hs & Hws & Hstop)]; [by exists []|].
  cbn [trim_start]. destruct (is_space c) eqn:Hc.
  - exists (c :: ws). cbn [app]. rewrite <- Hs. repeat split; [by constructor|done].
  - exists []. repeat split; [constructor|done].
Qed.

Lemma trim_start_single_spaced s b :
  single_spaced b s = true -> single_spaced true (trim_start s) = true.
Proof.
  revert b. induction s as [|c s IH]; intros b; [done|].
  cbn [trim_start single_spaced]. destruct (is_space c) eqn:Hc.
  - intros [_ Hs]%andb_prop. by apply IH in Hs.
  - intros Hs. cbn [single_spaced]. by rewrite Hc.
Qed.

Lemma trim_start_keeps s c k :
  is_space c = false -> trim_start (s ++ c :: k) = trim_start s ++ c :: k.
Proof.
  intros Hc. induction s as [|d s IH]; cbn [app trim_start]; [by rewrite Hc|].
  by destruct (is_space d).
Qed.

(** [trim] keeps a part of the text between two runs of white space. *)
Lemma trim_spec s :
  exists before after_,
    s = before ++ trim s ++ after_ /\
    Forall (fun c => is_space c = true) before /\
    Forall (fun c => is_space c = true) after_ /\
    stops is_space (trim s) /\ stops is_space (rev (trim s)).
Proof.
  unfold trim.
  destruct (trim_start_spec s) as (ws1 & Hs1 & Hws1 & Hstop1).
  destruct (trim_start_spec (rev (trim_start s))) as (ws2 & Hs2 & Hws2 & Hstop2).
  exists ws1, (rev ws2). rewrite rev_involutive.
  repeat split; try done.
  - rewrite <- rev_app_distr, <- Hs2, rev_involutive. exact Hs1.
  - apply Forall_forall. intros c Hc%list_elem_of_In.
    apply in_rev, list_elem_of_In in Hc. revert c Hc. by apply Forall_forall.
  - destruct (trim_start s) as [|c t] eqn:Et; [done|].
    simpl in Hstop1. cbn [rev]. rewrite trim_start_keeps by done.
    rewrite rev_app_distr. exact Hstop1.
Qed.

Lemma trim_length s : (length (trim s) <= length s)%nat.
Proof.
  destruct (trim_spec s) as (b & a & Hs & _). rewrite Hs at 2.
  rewrite !length_app. lia.
Qed.

Lemma trim_single_spaced s b :
  single_spaced b s = true -> single_spaced true (trim s) = true.
Proof.
  intros Hs. apply trim_start_single_spaced in Hs.
  unfold trim.
  destruct (trim_start_spec (rev (trim_start s))) as (ws & Hr & _ & _).
  assert (Ht : trim_start s = rev (trim_start (rev (trim_start s))) ++ rev ws)
    by (by rewrite <- rev_app_distr, <- Hr, rev_involutive).
  rewrite Ht in Hs. by apply single_spaced_prefix in Hs.
Qed.

Lemma trim_start_nil s :
  trim_start s = [] <-> Forall (fun c => is_space c = true) s.
Proof.
  induction s as [|c s IH]; cbn [trim_start]; [by split|].
  destruct (is_space c) eqn:Hc.
  - rewrite IH. split; [by constructor|by inversion 1].
  - split; [done|]. inversion 1; congruence.
Qed.

Lemma collapse_all_space : forall s b,
  Forall (fun c => is_space c = true) s ->
  Forall (fun c => is_space c = true) (collapse_spaces s b).
Proof.
  induction s as [|c s IH]; intros b Hs; [done|]. cbn [collapse_spaces].
  inversion Hs as [|? ? Hc Hs']; subst. rewrite Hc.
  destruct b; [by apply IH|]. constructor; [done|by apply IH].
Qed.

Lemma collapse_some_text : forall s b,
  Forall (fun c => is_space c = true) (collapse_spaces s b) ->
  Forall (fun c => is_space c = true) s.
Proof.
  induction s as [|c s IH]; intros b; [done|]. cbn [collapse_spaces].
  destruct (is_space c) eqn:Hc.
  - destruct b.
    + intros Hs. constructor; [done|]. by apply IH in Hs.
    + inversion 1; subst. constructor; [done|]. by eapply IH.
  - inversion 1; congruence.
Qed.

(** Property X17: the raw content that the ingesting listener puts in
    its prompt, [text.replace(/\s+/g, ' ').trim()], has no white space but
    single spaces, none next to another, neither at the beginning nor at
    the end; it is no longer than the text, and it is empty exactly when
    the text is white space only. *)
Theorem rawContent_is_single_spaced (text : jsstring) :
  let rawContent := trim (collapse_spaces text false) in
  single_spaced true rawContent = true /\
  stops is_space (rev rawContent) /\
  (length rawContent <= length text)%nat /\
  (rawContent = [] <-> Forall (fun c => is_space c = true) text).
Proof.
  cbv zeta. split; [|split; [|split]].
  - eapply trim_single_spaced, collapse_single_spaced.
  - by destruct (trim_spec (collapse_spaces text false)) as (b & a & _ & _ & _ & _ & H).
  - etrans; [apply trim_length | apply collapse_length].
  - split.
    + intros He. apply (collapse_some_text text false).
      destruct (trim_spec (collapse_spaces text false)) as (b & a & Hs & Hb & Ha & _).
      rewrite Hs, He. apply Forall_app. split; [done|]. by apply Forall_app.
    + intros Hs. unfold trim.
      apply (collapse_all_space _ false), trim_start_nil in Hs. by rewrite Hs.
Qed.

Ltac literal_lengths :=
  repeat match goal with
  | |- context [length (js ?s)] =>
      let n := eval vm_compute in (length (js s)) in
      change (length (js s)) with n
  | |- context [length (jsq ?s)] =>
      let n := eval vm_compute in (length (jsq s)) in
      change (length (jsq s)) with n
  | |- context [length (spaces ?k)] =>
      let n := eval vm_compute in (length (spaces k)) in
      change (length (spaces k)) with n
  | |- context [length nl] => change (length nl) with 1%nat
  end.

(** Property X23: the prompt that the ingesting listener sends to the
    model has a bounded size, whatever the size of the page: 434 units of
    fixed text, the URL twice, at most 200 units of title and at most
    10000 units of content. *)
Theorem ingest_prompt_is_bounded (url_ rawTitle rawContent : jsstring) :
  length (IngestConsumer.prompt_of url_ rawTitle rawContent)
  = (434 + 2 * length url_ + length (substring0 200 rawTitle)
     + length (substring0 10000 rawContent))%nat /\
  (N.of_nat (length (IngestConsumer.prompt_of url_ rawTitle rawContent))
   <= 10634 + 2 * N.of_nat (length url_))%N.
Proof.
  assert (Hlen : length (IngestConsumer.prompt_of url_ rawTitle rawContent)
                 = (434 + 2 * length url_ + length (substring0 200 rawTitle)
                    + length (substring0 10000 rawContent))%nat).
  { unfold IngestConsumer.prompt_of. rewrite !length_app. literal_lengths. lia. }
  split; [exact Hlen|]. rewrite Hlen.
  pose proof (substring0_length 200 rawTitle).
  pose proof (substring0_length 10000 rawContent). lia.
Qed.

(** ** Invariants of the index *)

Section Invariant.
Context `{Externals}.

Lemma content_ok_insert idx id v props c :
  content_ok idx -> assoc (js "content") props = Some (VString c) ->
  content_ok (<[ id := (v, VObject props) ]> idx).
Proof.
  intros Hok Hc id' v' md'. destruct (decide (id' = id)) as [->|Hne].
  - rewrite lookup_insert_eq. intros [= <- <-]. exists c. cbn [get_opt]. by rewrite Hc.
  - rewrite lookup_insert_ne by done. apply Hok.
Qed.

(** What [storeArticle] of the first service module does to the index,
    whatever it is given. *)
Lemma ServiceA_storeArticle_writes article w :
  index (ServiceA.storeArticle article w).2 = index w \/
  exists id v t u d c,
    index (ServiceA.storeArticle article w).2
    = <[ id := (v, VObject [(js "title", VString t); (js "url", u); (js "date", d);
                            (js "content", VString c)]) ]> (index w).
Proof.
  unfold ServiceA.storeArticle, try_catch, bind, call, clock, upsert, console_,
    throw, lift.
  cbn [outside index console].
  destruct (get "title" article) as [t|e]; [|by left].
  destruct (get "content" article) as [c|e]; [|by left].
  destruct (call_substring0 c 1000) as [sub|e]; [|by left].
  cbn [outside index console].
  destruct (embedContent _ _ _) as [[v|e] x]; [|by left].
  cbn [outside index console].
  destruct (get "url" article) as [u|e]; [|by left].
  destruct (Buffer_from u) as [bytes|e]; [|by left].
  destruct (call_substring0 t 1000) as [t1000|e]; [|by left].
  destruct (get "date" article) as [d|e]; [|by left].
  destruct (call_substring0 c 5000) as [c5000|e]; [|by left].
  cbn [outside index console].
  destruct (upsert_refused _ _) as [[e|] x']; [by left|].
  right. cbn [outside index console foldl fst snd]. eauto 10.
Qed.

Lemma eachMessage_content_ok partition value w :
  content_ok (index w) ->
  content_ok (index (IngestConsumer.eachMessage partition value w).2).
Proof.
  intros Hok. destruct value as [u|]; [|done].
  unfold IngestConsumer.eachMessage. destruct (_ || _); [done|].
  rewrite bind_unfold, console_unfold. unfold try_catch.
  set (w0 := {| outside := outside w; index := index w; console := _ |}).
  pose proof (ingest_record u w0) as Hi.
  destruct (IngestConsumer.ingest u w0) as [[[]|e] w1]; cbn [snd].
  - destruct Hi as (v & text & props & c & _ & Hc & ->). by eapply content_ok_insert.
  - unfold IngestConsumer.on_error, console_. cbn [snd index]. by rewrite Hi.
Qed.

Lemma run_batch_content_ok partition : forall batch w,
  content_ok (index w) ->
  content_ok (index (run_batch IngestConsumer.eachMessage partition batch w).2).
Proof.
  induction batch as [|value batch IH]; intros w Hok; [done|]. cbn [run_batch].
  pose proof (eachMessage_content_ok partition value w Hok) as Hok1.
  destruct (IngestConsumer.eachMessage partition value w) as [[[]|e] w1]; [|done].
  cbn [snd] in Hok1. specialize (IH w1 Hok1).
  by destruct (run_batch _ _ _ w1) as [[n stop] w2].
Qed.

(** With string contents in every retrieved article the context block is
    built without failure. *)
Lemma context_lines_ok articles :
  Forall (fun a => exists props c, a = VObject props /\
                                   get_opt "content" a = VString c) articles ->
  exists lines, context_lines articles = Returned lines.
Proof.
  induction 1 as [|a articles (props & c & -> & Hc) _ [lines IH]]; [by exists []|].
  cbn [context_lines]. rewrite !get_object, Hc. cbn [call_substring0].
  rewrite IH. eauto.
Qed.

Lemma searchArticles_matches q k w articles w1 :
  searchArticles q k w = (Returned articles, w1) ->
  exists v x x' matches,
    query_matches (index w) v k x = (Returned matches, x') /\
    articles = List.map article_of_match matches.
Proof.
  unfold searchArticles, try_catch, bind, call, query, ret, console_, throw.
  cbn [outside index console].
  destruct (embedContent _ _ _) as [[v|e] x]; [|done].
  cbn [outside index console].
  destruct (query_matches _ _ _ _) as [[ms|e] x'] eqn:Eq; [|done].
  intros [= <- _]. by exists v, x, x', ms.
Qed.

End Invariant.

(** Property X18: the writers keep the invariant that every record of
    the index has a string as [content]: if it holds before, it holds
    after one message to the ingesting listener, after a whole batch of
    messages, and after [storeArticle] of either service module (the
    first given any value at all). *)
Theorem writers_keep_string_content `{Externals} (partition : nat)
    (value : option jsstring) (batch : list (option jsstring)) (a : Article)
    (article : jsval) (w : World)
    (Hok : content_ok (index w)) :
  content_ok (index (IngestConsumer.eachMessage partition value w).2) /\
  content_ok (index (run_batch IngestConsumer.eachMessage partition batch w).2) /\
  content_ok (index (ServiceA.storeArticle article w).2) /\
  content_ok (index (ServiceB.storeArticle a w).2).
Proof.
  split; [by apply eachMessage_content_ok|].
  split; [by apply run_batch_content_ok|]. split.
  - destruct (ServiceA_storeArticle_writes article w)
      as [-> | (id & v & t & u & d & c & ->)]; [done|].
    by eapply content_ok_insert.
  - pose proof (ServiceB_storeArticle_index a w) as Hs.
    destruct (ServiceB.storeArticle a w) as [[[]|e] w']; cbn [snd].
    + destruct Hs as (v & now & ->). by eapply content_ok_insert.
    + by rewrite Hs.
Qed.

Lemma writers_keep_string_content_witness :
  content_ok (H := scripted)
    (index (run_batch (H := scripted) IngestConsumer.eachMessage 0
              [Some (js "http://a/1"); None; Some (js "http://a/2")]
              (Scripted.start scripted tt [])).2).
Proof.
  apply (writers_keep_string_content (H := scripted) 0 None
           [Some (js "http://a/1"); None; Some (js "http://a/2")]
           {| title := []; content := []; url := []; date := [] |} VNull
           (Scripted.start scripted tt [])).
  intros id v md Hl. change (index _) with (∅ : gmap (list N) (list N * jsval)) in Hl.
  by rewrite lookup_empty in Hl.
Defined.

(** Property X19: a batch of messages to the ingesting listener changes
    no record but those under the ids of the URLs in the batch. *)
Theorem batch_touches_own_ids `{Externals} (partition : nat)
    (batch : list (option jsstring)) (w : World) (id : jsstring)
    (Hid : forall u, Some u ∈ batch -> id <> articleId u) :
  index (run_batch IngestConsumer.eachMessage partition batch w).2 !! id
  = index w !! id.
Proof.
  revert w. induction batch as [|value batch IH]; intros w; [done|].
  cbn [run_batch].
  assert (H1 : index (IngestConsumer.eachMessage partition value w).2 !! id
               = index w !! id).
  { destruct value as [u|]; [|done].
    destruct (ingest_eachMessage_index partition u w) as [-> | [r ->]]; [done|].
    apply lookup_insert_ne. intros Heq. apply (Hid u); [by left|done]. }
  destruct (IngestConsumer.eachMessage partition value w) as [[[]|e] w1]; [|done].
  cbn [snd] in H1. rewrite <- H1.
  assert (Hid' : forall u, Some u ∈ batch -> id <> articleId u)
    by (intros u Hu; apply Hid; by right).
  specialize (IH Hid' w1).
  by destruct (run_batch _ _ _ w1) as [[n stop] w2].
Qed.

Lemma batch_touches_own_ids_witness :
  index (run_batch (H := scripted) IngestConsumer.eachMessage 0
           [Some (js "http://a/1"); None; Some (js "http://a/2")]
           (Scripted.start scripted tt Scripted.three_records)).2 !! js "b"
  = Some ([], Article_value {| title := js "Two"; content := js "c2";
                               url := js "http://n/2"; date := js "2024-01-02" |}).
Proof.
  rewrite (batch_touches_own_ids (H := scripted)).
  - vm_compute. reflexivity.
  - intros u Hu.
    repeat (apply elem_of_cons in Hu as [Hu|Hu];
            [try discriminate; injection Hu as ->; vm_compute; discriminate|]).
    by apply elem_of_nil in Hu.
Defined.

(** Property X20: over an index whose records all have a string
    [content], and a store that answers with records it holds, the
    search branch of [agentHandler] builds its context without failure:
    once [searchArticles] has returned, the branch fails only if the call
    to the model fails, and otherwise answers 200 with every retrieved
    article among the sources. *)
Theorem index_branch_reads_never_fail `{Externals} (q : jsstring) (w w1 : World)
    (articles : list jsval)
    (Hsound : store_sound) (Hok : content_ok (index w))
    (Hsearch : searchArticles q 3 w = (Returned articles, w1)) :
  exists lines,
    context_lines articles = Returned lines /\
    match generateContent "gemini-1.5-pro"
            (rag_prompt q (join (nl ++ nl) lines)) (outside w1) with
    | (Returned r, x) =>
        let w2 := {| outside := x; index := index w1; console := console w1 |} in
        match response_text r with
        | Returned t =>
            Server.answer_from_index q w
            = (Returned
                 (res_json
                    (VObject [(js "answer", VString t);
                              (js "sources", VArray (List.map source_of articles))])),
               w2)
        | Threw e => Server.answer_from_index q w = (Threw e, w2)
        end
    | (Threw e, x) =>
        Server.answer_from_index q w
        = (Threw e, {| outside := x; index := index w1; console := console w1 |})
    end.
Proof.
  destruct (searchArticles_matches _ _ _ _ _ Hsearch) as (v & x & x' & ms & Hq & ->).
  destruct (context_lines_ok (List.map article_of_match ms)) as [lines Hl].
  { apply Forall_forall. intros a (m & -> & Hm)%list_elem_of_fmap.
    destruct (Hsound _ _ _ _ _ _ Hq m Hm) as [vec Hvec].
    destruct (Hok _ _ _ Hvec) as [c Hc].
    eexists _, c. split; [reflexivity|]. exact Hc. }
  exists lines. split; [done|].
  unfold Server.answer_from_index.
  rewrite (bind_unfold (searchArticles q 3)), Hsearch.
  rewrite (bind_unfold (lift _)). unfold lift at 1. rewrite Hl.
  unfold bind, call, lift, ret.
  destruct (generateContent _ _ _) as [[r|e] x0]; [|done].
  cbv zeta. by destruct (response_text r).
Qed.

(** The store of the scripted world answers with records it holds, and
    the three sample records have string contents. *)
Lemma scripted_store_sound page reply : store_sound (H := Scripted.world page reply).
Proof.
  intros idx v k x ms x' [= <- _] m Hm.
  apply elem_of_take in Hm as (i & Hm & _).
  apply list_elem_of_lookup_2, list_elem_of_fmap in Hm as ([id [vec md]] & -> & Hr).
  apply elem_of_map_to_list in Hr. by exists vec.
Qed.

Lemma three_records_content_ok (X : Externals) (x : ext_state)
    (records : list (jsstring * (vector * jsval))) :
  Forall (fun r => exists c, get_opt "content" r.2.2 = VString c) records ->
  content_ok (index (Scripted.start X x records)).
Proof.
  intros Hall id v md Hl. cbn [Scripted.start index] in Hl.
  apply elem_of_list_to_map_2 in Hl.
  rewrite Forall_forall in Hall. exact (Hall _ Hl).
Qed.

Lemma index_branch_reads_never_fail_witness :
  let w := Scripted.start citing_world tt Scripted.three_records in
  exists articles w1 lines,
    searchArticles (H := citing_world) (js "latest on topic X") 3 w
      = (Returned articles, w1) /\
    context_lines (H := citing_world) articles = Returned lines.
Proof.
  intros w.
  destruct (searchArticles (H := citing_world) (js "latest on topic X") 3 w)
    as [[articles|e] w1] eqn:E; [|vm_compute in E; discriminate].
  destruct (index_branch_reads_never_fail (H := citing_world) (js "latest on topic X")
              w w1 articles (scripted_store_sound _ _)) as (lines & Hl & _).
  - apply (three_records_content_ok citing_world).
    repeat constructor; eexists; reflexivity.
  - exact E.
  - by exists articles, w1, lines.
Defined.

Section SearchFailure.
Context `{Externals}.

Lemma searchArticles_throws q k w e w1 :
  searchArticles q k w = (Threw e, w1) ->
  index w1 = index w /\
  exists before,
    console w1 = before ++ [(Error, [LText (js "Search failed:"); LExn e])].
Proof.
  intros E. split.
  - pose proof (frames_searchArticles q k w) as Hf. by rewrite E in Hf.
  - revert E. unfold searchArticles, try_catch.
    destruct (bind _ _ w) as [[v|e0] w0]; [done|].
    unfold bind, console_, throw. intros [= <- <-]. cbn [console]. eauto.
Qed.

End SearchFailure.

(** Property X21: when the query contains no URL and [searchArticles]
    throws (the embedding call or the store query failed),
    [agentHandler] answers 500 with the message of that error as
    [details]; the error is logged twice, by [searchArticles] and by the
    handler, and the index is unchanged. *)
Theorem agentHandler_reports_search_failure `{Externals} (q : jsstring) (w w1 : World)
    (e : exn)
    (Hq : is_empty q = false) (Hno : extractUrlFromQuery q = None)
    (Hsearch : searchArticles q 3 w = (Threw e, w1)) :
  Server.agentHandler (VObject [(js "query", VString q)]) w
  = (Returned {| status := 500;
                 body := VObject [(js "error", VString (js "Processing failed"));
                                  (js "details",
                                   VString (match e with
                                            | ErrorObject _ m => m
                                            | ThrownValue _ => js "Unknown error"
                                            end))] |},
     {| outside := outside w1; index := index w1;
        console := console w1 ++ [(Error, [LText (js "API Error:"); LExn e])] |}) /\
  index w1 = index w /\
  exists before,
    console w1 = before ++ [(Error, [LText (js "Search failed:"); LExn e])].
Proof.
  split; [|by apply (searchArticles_throws q 3)].
  rewrite (agentHandler_index_branch q w Hq Hno).
  unfold try_catch, Server.answer_from_index.
  rewrite (bind_unfold (searchArticles q 3)), Hsearch. reflexivity.
Qed.

Lemma agentHandler_reports_search_failure_witness :
  (Server.agentHandler (H := no_quota_world)
     (VObject [(js "query", VString (js "latest on topic X"))])
     (Scripted.start no_quota_world tt [])).1
  = Returned {| status := 500;
                body := VObject [(js "error", VString (js "Processing failed"));
                                 (js "details", VString (js "quota exceeded"))] |}.
Proof.
  destruct (searchArticles (H := no_quota_world) (js "latest on topic X") 3
              (Scripted.start no_quota_world tt [])) as [[articles|e] w1] eqn:E;
    [vm_compute in E; discriminate|].
  destruct (agentHandler_reports_search_failure (H := no_quota_world)
              (js "latest on topic X") (Scripted.start no_quota_world tt []) w1 e
              ltac:(vm_compute; reflexivity) ltac:(vm_compute; reflexivity) E)
    as [Hr _].
  rewrite Hr. cbn [fst]. vm_compute in E. injection E as <- _. reflexivity.
Defined.

(** Property X22: the listener that answers queries, when it succeeds,
    logs the model's answer and then, as sources, every article that
    [searchArticles] returned, each reduced to title, URL and date; the
    answer text plays no part in the list, and the index is unchanged. *)
Theorem query_listener_logs_all_sources `{Externals} (q : jsstring) (w w' : World)
    (Hrun : QueryConsumer.answer_query q w = (Returned tt, w')) :
  exists articles w1 answer_,
    searchArticles q 3 w = (Returned articles, w1) /\
    index w' = index w /\
    console w'
    = console w1
      ++ [(Log, [LText (js "Generated response:"); LText answer_]);
          (Log, [LText (js "Sources:");
                 LValue (VArray (List.map source_of articles))])].
Proof.
  revert Hrun. unfold QueryConsumer.answer_query.
  rewrite (bind_unfold (searchArticles q 3)).
  pose proof (frames_searchArticles q 3 w) as Hf.
  destruct (searchArticles q 3 w) as [[articles|e] w1]; [|done]. cbn [snd] in Hf.
  rewrite (bind_unfold (lift _)). unfold lift at 1.
  destruct (context_lines articles) as [lines|e]; [|done].
  unfold bind, call, lift, console_.
  destruct (generateContent _ _ _) as [[r|e] x]; [|done].
  destruct (response_text r) as [answer_|e]; [|done].
  intros [= <-]. exists articles, w1, answer_. cbn [index console].
  split; [done|]. split; [done|]. by rewrite <- app_assoc.
Qed.

Lemma query_listener_logs_all_sources_witness :
  let w := Scripted.start citing_world tt Scripted.three_records in
  exists articles w',
    QueryConsumer.answer_query (H := citing_world) (js "latest on topic X") w
      = (Returned tt, w') /\
    length articles = 3%nat /\
    last (console w')
    = Some (Log, [LText (js "Sources:"); LValue (VArray (List.map source_of articles))]).
Proof.
  intros w.
  destruct (QueryConsumer.answer_query (H := citing_world) (js "latest on topic X") w)
    as [[[]|e] w'] eqn:E; [|vm_compute in E; discriminate].
  destruct (query_listener_logs_all_sources (H := citing_world) _ _ _ E)
    as (articles & w1 & answer_ & Hs & _ & Hc).
  exists articles, w'. split; [done|]. split.
  - vm_compute in Hs. injection Hs as <- _. reflexivity.
  - rewrite Hc. rewrite last_app. reflexivity.
Defined.

(** ** Empty pages *)

(** Property X24: a page that is fetched empty never reaches the model.
    The three [processArticle] functions throw
    ['Failed to fetch valid HTML content.'] right after the fetch, having
    logged it once, and the ingesting listener logs
    ['Failed to fetch HTML content'] and returns; in each case the
    outside world is as the fetch left it and the index is unchanged. *)
Theorem empty_page_never_reaches_model `{Externals} (u : jsstring) (partition : nat)
    (w : World) (x1 : ext_state)
    (Hfetch : fetch_text u (outside w) = (Returned [], x1))
    (Hhttp : startsWith (js "http") u = true) :
  let e := ErrorObject Error_ (js "Failed to fetch valid HTML content.") in
  let after_ (lines : list (level * list logarg)) : World :=
    {| outside := x1; index := index w; console := console w ++ lines |} in
  Server.processArticle u w
  = (Threw e, after_ [(Error, [LText (js "Failed to process article " ++ u ++ js ":");
                               LExn e])]) /\
  ServiceB.processArticle u w
  = (Threw e, after_ [(Error, [LText (js "Failed to process article " ++ u ++ js ":");
                               LExn e])]) /\
  ServiceA.processArticle u w
  = (Threw e, after_ [(Error, [LText (js "Error processing article:"); LExn e])]) /\
  IngestConsumer.eachMessage partition (Some u) w
  = (Returned tt,
     after_ [(Log, [LText (js "Processing article URL [Partition "
                           ++ decimal partition ++ js "]: " ++ u)]);
             (Error, [LText (js "Failed to process article " ++ u ++ js ":");
                      LText (js "Failed to fetch HTML content")])]).
Proof.
  cbv zeta. repeat split.
  - unfold Server.processArticle, try_catch.
    rewrite (bind_unfold (call (fetch_text u))). unfold call at 1. rewrite Hfetch.
    reflexivity.
  - unfold ServiceB.processArticle, try_catch.
    rewrite (bind_unfold (call (fetch_text u))). unfold call at 1. rewrite Hfetch.
    reflexivity.
  - unfold ServiceA.processArticle, try_catch.
    rewrite (bind_unfold (call (fetch_text u))). unfold call at 1. rewrite Hfetch.
    reflexivity.
  - unfold IngestConsumer.eachMessage.
    assert (Hne : is_empty u = false) by (by destruct u).
    rewrite Hne, Hhttp. cbn [orb negb].
    rewrite bind_unfold, console_unfold. unfold try_catch, IngestConsumer.ingest.
    rewrite (bind_unfold (call (fetch_text u))). unfold call at 1.
    cbn [outside index console]. rewrite Hfetch.
    unfold IngestConsumer.on_error, console_, bind, throw.
    change (is_empty (@nil N)) with true. cbn iota beta.
    cbn [outside index console message_or]. by rewrite <- app_assoc.
Qed.

Lemma empty_page_never_reaches_model_witness :
  let X := Scripted.world (fun _ => Returned []) Scripted.chatty in
  (Server.agentHandler (H := X)
     (VObject [(js "query", VString (js "summarise http://a/b"))])
     (Scripted.start X tt [])).1
  = Returned {| status := 500;
                body := VObject [(js "error", VString (js "Processing failed"));
                                 (js "details",
                                  VString (js "Failed to fetch valid HTML content."))] |}.
Proof.
  intros X.
  destruct (empty_page_never_reaches_model (H := X) (js "http://a/b") 0
              (Scripted.start X tt []) tt eq_refl eq_refl) as [Hs _].
  rewrite (agentHandler_url_branch (H := X) (js "summarise http://a/b") (js "http://a/b")
             (Scripted.start X tt []) ltac:(vm_compute; reflexivity)).
  unfold try_catch, Server.answer_from_url.
  rewrite (bind_unfold (Server.processArticle (js "http://a/b"))), Hs. reflexivity.
Defined.
